(** * Maze-Solver: a shallow embedding of [graphics.py]

    The development follows the Python source function by function.
    Objects that the source mutates in place (the grid of cells, the
    window and the module-level random generator) live in an explicit
    state that is threaded through a state-and-error monad; Python
    exceptions are results of their own, and recursion and [while]
    loops are bounded by a fuel argument whose exhaustion is a third
    kind of result. *)

From Stdlib Require Import ZArith Lia.
From stdpp Require Import base tactics option list gmap strings.

Local Open Scope Z_scope.

(** ** Results of running Python code *)

Inductive exn := IndexError | KeyError | AttributeError | RecursionError.

Inductive result (A : Type) : Type :=
| Ok (a : A)
| Raise (e : exn)
| OutOfFuel.

Arguments Ok {A} a.
Arguments Raise {A} e.
Arguments OutOfFuel {A}.

(** ** Data model *)

Module Point.
Record t := make { x : Z; y : Z }.
End Point.

Module Line.
Record t := make { point_a : Point.t; point_b : Point.t }.
End Line.

(** The Tk canvas is the list of the lines drawn on it with their fill
    colour, the most recent one first. *)
Record Window := mkWindow {
  width : Z;
  height : Z;
  running : bool;
  canvas : list (Line.t * string)
}.

(** [Cell.__win] is not a field here: every cell of a maze is created
    with the window of the maze, which is read from the state. *)
Record Cell := mkCell {
  has_left_wall : bool;
  has_right_wall : bool;
  has_top_wall : bool;
  has_bottom_wall : bool;
  _x1 : Z;
  _x2 : Z;
  _y1 : Z;
  _y2 : Z;
  visited : bool;
  valid_dirs : gmap string bool
}.

(** The attributes of a [Maze] that are assigned once in [__init__]. *)
Record Maze := mkMaze {
  x1 : Z;
  y1 : Z;
  num_rows : Z;
  num_cols : Z;
  cell_size_x : Z;
  cell_size_y : Z;
  seed : option Z
}.

(** A call of [Cell.draw_move]: the grid position of the cell, of
    [to_cell], and the [undo] flag. *)
Definition Move : Type := (Z * Z) * (Z * Z) * bool.

(** The mutable objects: [Maze.__cells], the window that [Maze.__win]
    refers to ([None] when the maze has no window), and the generator
    of the [random] module, given by the outcomes of its future draws.
    [wall_log] and [moves] are ghost fields that no code reads: the
    grid as it was after each assignment to wall flags, and the calls
    of [draw_move], both most recent first. *)
Record State := mkState {
  cells : list (list Cell);
  win : option Window;
  random : list nat;
  wall_log : list (list (list Cell));
  moves : list Move
}.

Definition Cell_init : Cell :=
  mkCell true true true true (-1) (-1) (-1) (-1) false ∅.

Definition with_left (b : bool) (c : Cell) : Cell :=
  mkCell b (has_right_wall c) (has_top_wall c) (has_bottom_wall c)
         (_x1 c) (_x2 c) (_y1 c) (_y2 c) (visited c) (valid_dirs c).

Definition with_right (b : bool) (c : Cell) : Cell :=
  mkCell (has_left_wall c) b (has_top_wall c) (has_bottom_wall c)
         (_x1 c) (_x2 c) (_y1 c) (_y2 c) (visited c) (valid_dirs c).

Definition with_top (b : bool) (c : Cell) : Cell :=
  mkCell (has_left_wall c) (has_right_wall c) b (has_bottom_wall c)
         (_x1 c) (_x2 c) (_y1 c) (_y2 c) (visited c) (valid_dirs c).

Definition with_bottom (b : bool) (c : Cell) : Cell :=
  mkCell (has_left_wall c) (has_right_wall c) (has_top_wall c) b
         (_x1 c) (_x2 c) (_y1 c) (_y2 c) (visited c) (valid_dirs c).

Definition with_coords (a1 b1 a2 b2 : Z) (c : Cell) : Cell :=
  mkCell (has_left_wall c) (has_right_wall c) (has_top_wall c)
         (has_bottom_wall c) a1 a2 b1 b2 (visited c) (valid_dirs c).

Definition with_visited (b : bool) (c : Cell) : Cell :=
  mkCell (has_left_wall c) (has_right_wall c) (has_top_wall c)
         (has_bottom_wall c) (_x1 c) (_x2 c) (_y1 c) (_y2 c) b (valid_dirs c).

Definition with_dir (k : string) (b : bool) (c : Cell) : Cell :=
  mkCell (has_left_wall c) (has_right_wall c) (has_top_wall c)
         (has_bottom_wall c) (_x1 c) (_x2 c) (_y1 c) (_y2 c) (visited c)
         (<[k := b]> (valid_dirs c)).

Definition set_cells (g : list (list Cell)) (s : State) : State :=
  mkState g (win s) (random s) (wall_log s) (moves s).

Definition set_win (w : option Window) (s : State) : State :=
  mkState (cells s) w (random s) (wall_log s) (moves s).

Definition set_random (r : list nat) (s : State) : State :=
  mkState (cells s) (win s) r (wall_log s) (moves s).

(** ** The monad *)

Definition M (A : Type) : Type := State → result (A * State).

Definition ret {A} (a : A) : M A := λ s, Ok (a, s).

Definition bind {A B} (m : M A) (k : A → M B) : M B := λ s,
  match m s with
  | Ok (a, s') => k a s'
  | Raise e => Raise e
  | OutOfFuel => OutOfFuel
  end.

Declare Scope M_scope.
Delimit Scope M_scope with M.

Notation "x ← y ; z" := (bind y (λ x, z))
  (at level 20, y at level 100, z at level 200, only parsing) : M_scope.

Notation "' x ← y ; z" := (bind y (λ x, z))
  (at level 20, x pattern, y at level 100, z at level 200, only parsing)
  : M_scope.

Notation "x ;; z" := (bind x (λ _, z))
  (at level 100, z at level 200, only parsing, right associativity) : M_scope.

Definition raise {A} (e : exn) : M A := λ _, Raise e.

Definition out_of_fuel {A} : M A := λ _, OutOfFuel.

Local Open Scope M_scope.

(** [a and b] on conditions that may raise: [b] is not evaluated when
    [a] is false. *)
Definition and_then (a b : M bool) : M bool :=
  x ← a; if x then b else ret false.

Infix "&&&" := and_then (at level 40, left associativity).

Fixpoint for_each {A} (l : list A) (body : A → M unit) : M unit :=
  match l with
  | [] => ret tt
  | a :: l => body a;; for_each l body
  end.

(** [range(n)], empty when [n <= 0]. *)
Definition range (n : Z) : list Z := Z.of_nat <$> seq 0 (Z.to_nat n).

(** ** Python list indexing

    An index below zero counts from the end of the list; an index
    outside [-len, len) raises [IndexError]. *)

Definition py_pos {A} (l : list A) (i : Z) : option nat :=
  let n := Z.of_nat (length l) in
  if (0 <=? i) && (i <? n) then Some (Z.to_nat i)
  else if (- n <=? i) && (i <? 0) then Some (Z.to_nat (n + i))
  else None.

Definition grid_pos (g : list (list Cell)) (i j : Z) : option (nat * nat) :=
  (p ← py_pos g i; col ← g !! p; q ← py_pos col j; Some (p, q))%stdpp.

(** [self.__cells[i][j]] *)
Definition get_cell (i j : Z) : M Cell := λ s,
  match grid_pos (cells s) i j with
  | Some (p, q) =>
      match cells s !! p ≫= (.!! q) with
      | Some c => Ok (c, s)
      | None => Raise IndexError
      end
  | None => Raise IndexError
  end.

(** An assignment to attributes of [self.__cells[i][j]]. *)
Definition update_cell (i j : Z) (f : Cell → Cell) : M unit := λ s,
  match grid_pos (cells s) i j with
  | Some (p, q) => Ok (tt, set_cells (alter (alter f q) p (cells s)) s)
  | None => Raise IndexError
  end.

Definition attr {A} (f : Cell → A) (i j : Z) : M A :=
  c ← get_cell i j; ret (f c).

(** [not self.__cells[i][j].visited] *)
Definition unvisited (i j : Z) : M bool := attr (negb ∘ visited) i j.

(** [self.__cells[i][j].valid_dirs[k]] *)
Definition lookup_dir (i j : Z) (k : string) : M bool :=
  c ← get_cell i j;
  match valid_dirs c !! k with
  | Some b => ret b
  | None => raise KeyError
  end.

Definition has_window : M bool := λ s, Ok (bool_decide (is_Some (win s)), s).

Definition log_walls : M unit := λ s,
  Ok (tt, mkState (cells s) (win s) (random s) (cells s :: wall_log s) (moves s)).

Definition log_move (mv : Move) : M unit := λ s,
  Ok (tt, mkState (cells s) (win s) (random s) (wall_log s) (mv :: moves s)).

(** ** The [random] module

    [_randbelow(n)] takes the next outcome of the generator, reduced
    below [n]; an exhausted list stands for a generator that keeps
    answering zero.  [choice] and [shuffle] are the library's own
    algorithms over it. *)

Definition randbelow (n : nat) : M nat := λ s,
  match random s with
  | [] => Ok (0%nat, s)
  | r :: rs => Ok ((r `mod` n)%nat, set_random rs s)
  end.

Definition choice {A} (seq : list A) : M A :=
  k ← randbelow (length seq);
  match seq !! k with
  | Some a => ret a
  | None => raise IndexError
  end.

(** [x[i], x[j] = x[j], x[i]] *)
Definition swap {A} (i j : nat) (x : list A) : list A :=
  match x !! i, x !! j with
  | Some a, Some b => <[j := a]> (<[i := b]> x)
  | _, _ => x
  end.

(** [for i in reversed(range(1, n + 1)): j = randbelow(i + 1); swap] *)
Fixpoint shuffle_from {A} (n : nat) (x : list A) : M (list A) :=
  match n with
  | O => ret x
  | S n' => j ← randbelow (S n); shuffle_from n' (swap n j x)
  end.

Definition shuffle {A} (x : list A) : M (list A) :=
  shuffle_from (length x - 1) x.

(** ** Window and Cell methods *)

(** [Window.draw_line], called through [self.__win], which may be
    [None]. *)
Definition draw_line (line : Line.t) (fill_color : string) : M unit := λ s,
  match win s with
  | Some w =>
      Ok (tt, set_win (Some (mkWindow (width w) (height w) (running w)
                                      ((line, fill_color) :: canvas w))) s)
  | None => Raise AttributeError
  end.

Definition wall_color (b : bool) : string := if b then "black" else "white".

(** [Cell.draw] on the cell at [i], [j]. *)
Definition Cell_draw (i j a1 b1 a2 b2 : Z) : M unit :=
  update_cell i j (with_coords a1 b1 a2 b2);;
  w ← has_window;
  if w then
    c ← get_cell i j;
    draw_line (Line.make (Point.make a1 b1) (Point.make a1 b2))
              (wall_color (has_left_wall c));;
    draw_line (Line.make (Point.make a2 b1) (Point.make a2 b2))
              (wall_color (has_right_wall c));;
    draw_line (Line.make (Point.make a1 b1) (Point.make a2 b1))
              (wall_color (has_top_wall c));;
    draw_line (Line.make (Point.make a1 b2) (Point.make a2 b2))
              (wall_color (has_bottom_wall c))
  else ret tt.

Definition centre (c : Cell) : Point.t :=
  Point.make ((_x1 c + _x2 c) `div` 2) ((_y1 c + _y2 c) `div` 2).

Definition set_dirs (i j : Z) (k : string) (ti tj : Z) (tk : string)
    (b : bool) : M unit :=
  update_cell i j (with_dir k b);; update_cell ti tj (with_dir tk b).

(** [Cell.draw_move] of the cell at [i], [j] towards the cell at
    [ti], [tj]. *)
Definition draw_move (i j ti tj : Z) (undo : bool) : M unit :=
  self ← get_cell i j;
  to_cell ← get_cell ti tj;
  if negb undo then
    draw_line (Line.make (centre self) (centre to_cell)) "red";;
    log_move (i, j, (ti, tj), undo)
  else
    draw_line (Line.make (centre self) (centre to_cell)) "gray";;
    log_move (i, j, (ti, tj), undo);;
    (if _x1 self >? _x1 to_cell
     then set_dirs i j "left" ti tj "right" false else ret tt);;
    (if _x1 self <? _x1 to_cell
     then set_dirs i j "right" ti tj "left" false else ret tt);;
    (if _y1 self >? _y1 to_cell
     then set_dirs i j "up" ti tj "down" false else ret tt);;
    (if _y1 self <? _y1 to_cell
     then set_dirs i j "down" ti tj "up" false else ret tt).

(** ** Maze methods *)

(** [Maze._animate]: [self.__win.redraw()] and a pause. *)
Definition animate : M unit := λ s,
  match win s with
  | Some _ => Ok (tt, s)
  | None => Raise AttributeError
  end.

Definition draw_cell (m : Maze) (i j : Z) : M unit :=
  let left_x_pos := i * cell_size_x m in
  let top_y_pos := j * cell_size_y m in
  Cell_draw i j (x1 m + left_x_pos) (y1 m + top_y_pos)
            (x1 m + left_x_pos + cell_size_x m)
            (y1 m + top_y_pos + cell_size_y m);;
  w ← has_window;
  if w then animate else ret tt.

(** [l.append(x)] when [c] holds. *)
Definition append_if (c : M bool) (x : Z * Z) (l : list (Z * Z))
    : M (list (Z * Z)) :=
  b ← c; ret (if b then l ++ [x] else l).

(** *** The large-grid carver [__break_walls_l] *)

Definition indexes_to_visit (m : Maze) (i j : Z) : M (list (Z * Z)) :=
  l ← append_if (ret (i - 1 >=? 0) &&& unvisited (i - 1) j) (i - 1, j) [];
  l ← append_if (ret (i + 1 <? num_cols m) &&& unvisited (i + 1) j) (i + 1, j) l;
  l ← append_if (ret (j - 1 >=? 0) &&& unvisited i (j - 1)) (i, j - 1) l;
  append_if (ret (j + 1 <? num_rows m) &&& unvisited i (j + 1)) (i, j + 1) l.

(** The wall and marker assignments of one iteration of the [for]
    loop. *)
Definition connect_l (i j i_index j_index : Z) : M unit :=
  if i_index <? i then
    update_cell i j (with_left false);;
    update_cell i_index j_index (with_right false);;
    log_walls;;
    set_dirs i j "left" i_index j_index "right" true
  else if i_index >? i then
    update_cell i j (with_right false);;
    update_cell i_index j_index (with_left false);;
    log_walls;;
    set_dirs i j "right" i_index j_index "left" true
  else if j_index <? j then
    update_cell i j (with_top false);;
    update_cell i_index j_index (with_bottom false);;
    log_walls;;
    set_dirs i j "up" i_index j_index "down" true
  else if j_index >? j then
    update_cell i j (with_bottom false);;
    update_cell i_index j_index (with_top false);;
    log_walls;;
    set_dirs i j "down" i_index j_index "up" true
  else ret tt.

(** [for pair in indexes_to_visit: ...]; the stack is a list whose head
    is the end of the Python list. *)
Fixpoint for_pairs_l (m : Maze) (i j : Z) (pairs stack : list (Z * Z))
    : M (list (Z * Z)) :=
  match pairs with
  | [] => ret stack
  | (i_index, j_index) :: pairs =>
      connect_l i j i_index j_index;;
      update_cell i_index j_index (with_visited true);;
      draw_cell m i j;;
      draw_cell m i_index j_index;;
      for_pairs_l m i j pairs ((i_index, j_index) :: stack)
  end.

(** [while stack: ...] *)
Fixpoint break_walls_l_while (m : Maze) (fuel : nat) (stack : list (Z * Z))
    : M unit :=
  match stack with
  | [] => ret tt
  | (i, j) :: stack =>
      match fuel with
      | O => out_of_fuel
      | S fuel =>
          update_cell i j (with_visited true);;
          l ← indexes_to_visit m i j;
          l ← shuffle l;
          stack ← for_pairs_l m i j l stack;
          break_walls_l_while m fuel stack
      end
  end.

Definition break_walls_l (m : Maze) (fuel : nat) (i j : Z) : M unit :=
  break_walls_l_while m fuel [(i, j)].

(** *** The small-grid carver [__break_walls_r] *)

Definition need_to_visit (m : Maze) (i j : Z) : M (list (Z * Z)) :=
  l ← append_if (ret (i - 1 >? 0) &&& unvisited (i - 1) j) (i - 1, j) [];
  l ← append_if (ret (i + 1 <? num_cols m) &&& unvisited (i + 1) j) (i + 1, j) l;
  l ← append_if (ret (j - 1 >? 0) &&& unvisited i (j - 1)) (i, j - 1) l;
  append_if (ret (j + 1 <? num_rows m) &&& unvisited i (j + 1)) (i, j + 1) l.

Definition connect_r (i j next_index_i next_index_j : Z) : M unit :=
  if next_index_i <? i then
    update_cell i j (with_left false);;
    update_cell next_index_i j (with_right false);;
    log_walls
  else if next_index_i >? i then
    update_cell i j (with_right false);;
    update_cell next_index_i j (with_left false);;
    log_walls
  else if next_index_j <? j then
    update_cell i j (with_top false);;
    update_cell i next_index_j (with_bottom false);;
    log_walls
  else if next_index_j >? j then
    update_cell i j (with_bottom false);;
    update_cell i next_index_j (with_top false);;
    log_walls
  else ret tt.

(** The function and its [while True] loop; a unit of fuel is spent on
    each call and on each iteration.  Every call finds room on the
    stack here; [break_walls_r_lim] below is the function under the
    recursion limit of the interpreter. *)
Fixpoint break_walls_r (m : Maze) (fuel : nat) (i j : Z) {struct fuel}
    : M unit :=
  match fuel with
  | O => out_of_fuel
  | S fuel =>
      update_cell i j (with_visited true);;
      break_walls_r_while m fuel i j
  end
with break_walls_r_while (m : Maze) (fuel : nat) (i j : Z) {struct fuel}
    : M unit :=
  match fuel with
  | O => out_of_fuel
  | S fuel =>
      l ← need_to_visit m i j;
      match l with
      | [] => draw_cell m i j
      | _ :: _ =>
          '(next_index_i, next_index_j) ← choice l;
          connect_r i j next_index_i next_index_j;;
          draw_cell m i j;;
          draw_cell m next_index_i next_index_j;;
          break_walls_r m fuel next_index_i next_index_j;;
          break_walls_r_while m fuel i j
      end
  end.

(** *** The solvers *)

(** One of the four direction blocks of [_solve_r]: when [open] holds,
    draw the move, recurse, and undo the move if the branch fails. *)
Definition try_r (solve : Z → Z → M bool) (i j ti tj : Z) (open : M bool)
    : M bool :=
  b ← open;
  if b then
    draw_move i j ti tj false;;
    r ← solve ti tj;
    if r then ret true
    else draw_move i j ti tj true;; ret false
  else ret false.

(** [_solve_r], every call of which finds room on the stack here;
    [solve_r_lim] below is the function under the recursion limit. *)
Fixpoint solve_r (m : Maze) (fuel : nat) (i j : Z) : M bool :=
  match fuel with
  | O => out_of_fuel
  | S fuel =>
      animate;;
      update_cell i j (with_visited true);;
      if (i + 1 =? num_cols m) && (j + 1 =? num_rows m) then ret true
      else
        r ← (if i - 1 >? 0 then
               try_r (solve_r m fuel) i j (i - 1) j
                 (attr (negb ∘ has_left_wall) i j
                  &&& attr (negb ∘ has_right_wall) (i - 1) j
                  &&& unvisited (i - 1) j)
             else ret false);
        if r then ret true else
        r ← (if i <? num_cols m then
               try_r (solve_r m fuel) i j (i + 1) j
                 (attr (negb ∘ has_right_wall) i j
                  &&& attr (negb ∘ has_left_wall) (i + 1) j
                  &&& unvisited (i + 1) j)
             else ret false);
        if r then ret true else
        r ← (if j - 1 >? 0 then
               try_r (solve_r m fuel) i j i (j - 1)
                 (attr (negb ∘ has_top_wall) i j
                  &&& attr (negb ∘ has_bottom_wall) i (j - 1)
                  &&& unvisited i (j - 1))
             else ret false);
        if r then ret true else
        r ← (if j <? num_rows m then
               try_r (solve_r m fuel) i j i (j + 1)
                 (attr (negb ∘ has_bottom_wall) i j
                  &&& attr (negb ∘ has_top_wall) i (j + 1)
                  &&& unvisited i (j + 1))
             else ret false);
        if r then ret true else ret false
  end.

(** One of the four direction blocks of [_solve_l]; the result is the
    stack after the block. *)
Definition try_l (i j ti tj : Z) (k : string) (open : M bool)
    (stack : list (Z * Z)) : M (list (Z * Z)) :=
  b ← open;
  if b then
    update_cell ti tj (with_visited true);;
    draw_move i j ti tj false;;
    animate;;
    v ← lookup_dir i j k;
    (if negb v then draw_move i j ti tj true else ret tt);;
    ret ((ti, tj) :: stack)
  else ret stack.

Fixpoint solve_l_while (m : Maze) (fuel : nat) (stack : list (Z * Z))
    : M unit :=
  match stack with
  | [] => ret tt
  | (i, j) :: stack =>
      match fuel with
      | O => out_of_fuel
      | S fuel =>
          if (i + 1 =? num_cols m) && (j + 1 =? num_rows m) then ret tt
          else
            stack ← (if i - 1 >=? 0 then
                       try_l i j (i - 1) j "left"
                         (attr (negb ∘ has_left_wall) i j
                          &&& unvisited (i - 1) j) stack
                     else ret stack);
            stack ← (if i + 1 <? num_cols m then
                       try_l i j (i + 1) j "right"
                         (attr (negb ∘ has_right_wall) i j
                          &&& unvisited (i + 1) j) stack
                     else ret stack);
            stack ← (if j - 1 >=? 0 then
                       try_l i j i (j - 1) "up"
                         (attr (negb ∘ has_top_wall) i j
                          &&& unvisited i (j - 1)) stack
                     else ret stack);
            stack ← (if j + 1 <? num_rows m then
                       try_l i j i (j + 1) "down"
                         (attr (negb ∘ has_bottom_wall) i j
                          &&& unvisited i (j + 1)) stack
                     else ret stack);
            solve_l_while m fuel stack
      end
  end.

Definition solve_l (m : Maze) (fuel : nat) (i j : Z) : M unit :=
  solve_l_while m fuel [(i, j)].

(** [Maze.solve]; the value is what [_solve_r] returned, if it ran. *)
Definition solve (m : Maze) (fuel : nat) : M (option bool) :=
  if num_cols m * num_rows m <? 1000 then
    r ← solve_r m fuel 0 0; ret (Some r)
  else
    solve_l m fuel 0 0;; ret None.

(** The two loops of [__reset_cells_visited]. *)
Definition reset_loops (m : Maze) : M unit :=
  for_each (range (num_cols m)) (λ i,
    for_each (range (num_rows m)) (λ j,
      update_cell i j (with_visited false))).

Definition reset_cells_visited (m : Maze) (fuel : nat) : M (option bool) :=
  reset_loops m;;
  solve m fuel.

(** The statements of [__break_entrance_and_exit] before its call of
    [__reset_cells_visited]. *)
Definition open_and_carve (m : Maze) (fuel : nat) : M unit :=
  update_cell 0 0 (with_top false);;
  log_walls;;
  update_cell (num_cols m - 1) (num_rows m - 1) (with_bottom false);;
  log_walls;;
  draw_cell m 0 0;;
  draw_cell m (num_cols m - 1) (num_rows m - 1);;
  if num_cols m * num_rows m <? 1000 then break_walls_r m fuel 0 0
  else break_walls_l m fuel 0 0.

Definition break_entrance_and_exit (m : Maze) (fuel : nat)
    : M (option bool) :=
  open_and_carve m fuel;;
  reset_cells_visited m fuel.

(** [self.__cells.append([])] and [self.__cells[i].append(Cell(win))] *)
Definition append_column : M unit := λ s,
  Ok (tt, set_cells (cells s ++ [[]]) s).

Definition append_cell (i : Z) : M unit := λ s,
  match py_pos (cells s) i with
  | Some p => Ok (tt, set_cells (alter (λ col, col ++ [Cell_init]) p (cells s)) s)
  | None => Raise IndexError
  end.

(** The two loops of [__create_cells]. *)
Definition create_loops (m : Maze) : M unit :=
  for_each (range (num_cols m)) (λ i,
    append_column;;
    for_each (range (num_rows m)) (λ j,
      append_cell i;;
      draw_cell m i j)).

Definition create_cells (m : Maze) (fuel : nat) : M (option bool) :=
  create_loops m;;
  if (num_cols m >? 0) && (num_rows m >? 0) then break_entrance_and_exit m fuel
  else ret None.

(** [if seed: random.seed(seed)]: [None] and [0] are falsy.  The
    generator after seeding is [seeded seed]. *)
Definition seed_random (seeded : Z → list nat) (seed : option Z) : M unit :=
  match seed with
  | Some z => if z =? 0 then ret tt else λ s, Ok (tt, set_random (seeded z) s)
  | None => ret tt
  end.

(** The state in which [Maze.__init__] starts: no cells yet. *)
Definition initial_state (window : option Window) (random0 : list nat)
    : State :=
  mkState [] window random0 [] [].

(** [Maze.__init__]: the maze, the value of the solver when it ran,
    and the final state.  [random0] is the state of the generator of
    the [random] module when the constructor is called. *)
Definition Maze__init__ (seeded : Z → list nat) (random0 : list nat)
    (fuel : nat) (window : option Window)
    (num_rows num_cols cell_size_x cell_size_y x1 y1 : Z) (seed : option Z)
    : result (Maze * option bool * State) :=
  let m := mkMaze x1 y1 num_rows num_cols cell_size_x cell_size_y seed in
  match (r ← create_cells m fuel; seed_random seeded seed;; ret r)
          (initial_state window random0) with
  | Ok (r, s) => Ok (m, r, s)
  | Raise e => Raise e
  | OutOfFuel => OutOfFuel
  end.

(** * Specification vocabulary *)

Abbreviation Grid := (list (list Cell)).

(** Grid positions are pairs (column, row), like the tuples of the
    source. *)
Definition inb (m : Maze) (c : Z * Z) : Prop :=
  0 ≤ c.1 < num_cols m ∧ 0 ≤ c.2 < num_rows m.

(** [num_cols] columns of [num_rows] cells. *)
Definition wf (m : Maze) (g : Grid) : Prop :=
  Z.of_nat (length g) = num_cols m ∧
  ∀ col, col ∈ g → Z.of_nat (length col) = num_rows m.

Definition cell (g : Grid) (c : Z * Z) : Cell :=
  default Cell_init (g !! Z.to_nat c.1 ≫= (.!! Z.to_nat c.2)).

Definition upd (g : Grid) (c : Z * Z) (f : Cell → Cell) : Grid :=
  alter (alter f (Z.to_nat c.2)) (Z.to_nat c.1) g.

Inductive dir := Left | Right | Up | Down.

#[global] Instance dir_eq_dec : EqDecision dir.
Proof. solve_decision. Defined.

Definition step (d : dir) (c : Z * Z) : Z * Z :=
  match d with
  | Left => (c.1 - 1, c.2)
  | Right => (c.1 + 1, c.2)
  | Up => (c.1, c.2 - 1)
  | Down => (c.1, c.2 + 1)
  end.

Definition opp (d : dir) : dir :=
  match d with Left => Right | Right => Left | Up => Down | Down => Up end.

Definition wall (d : dir) (c : Cell) : bool :=
  match d with
  | Left => has_left_wall c
  | Right => has_right_wall c
  | Up => has_top_wall c
  | Down => has_bottom_wall c
  end.

Definition clear (d : dir) : Cell → Cell :=
  match d with
  | Left => with_left false
  | Right => with_right false
  | Up => with_top false
  | Down => with_bottom false
  end.

(** The key of a direction in [valid_dirs]. *)
Definition key (d : dir) : string :=
  match d with
  | Left => "left" | Right => "right" | Up => "up" | Down => "down"
  end.

(** The grid after the wall pair between [a] and its neighbour in
    direction [d] has been cleared. *)
Definition carve (g : Grid) (a : Z * Z) (d : dir) : Grid :=
  upd (upd g a (clear d)) (step d a) (clear (opp d)).

(** The same with the two direction markers that [__break_walls_l]
    sets. *)
Definition carve_l (g : Grid) (a : Z * Z) (d : dir) : Grid :=
  upd (upd (carve g a d) a (with_dir (key d) true))
      (step d a) (with_dir (key (opp d)) true).

(** An open passage: two cells of the grid, next to each other, with
    neither of the two wall flags between them set. *)
Definition passage (m : Maze) (g : Grid) (a b : Z * Z) : Prop :=
  inb m a ∧ inb m b ∧
  ∃ d, b = step d a ∧ wall d (cell g a) = false ∧
       wall (opp d) (cell g b) = false.

Definition all_cells (m : Maze) : list (Z * Z) :=
  range (num_cols m) ≫= λ i, (λ j, (i, j)) <$> range (num_rows m).

(** Each pair of adjacent cells once: a cell with its right or its
    lower neighbour. *)
Definition edges (m : Maze) : list (Z * Z * dir) :=
  all_cells m ≫= λ c,
    (if bool_decide (inb m (step Right c)) then [(c, Right)] else []) ++
    (if bool_decide (inb m (step Down c)) then [(c, Down)] else []).

Definition openb (g : Grid) (e : Z * Z * dir) : bool :=
  negb (wall e.2 (cell g e.1)) && negb (wall (opp e.2) (cell g (step e.2 e.1))).

Definition passages (m : Maze) (g : Grid) : list (Z * Z * dir) :=
  filter (λ e, openb g e = true) (edges m).

(** A cycle of a graph: at least three distinct vertices, each joined
    to the next one and the last one to the first. *)
Definition cycle {V} (E : V → V → Prop) (p : list V) : Prop :=
  (3 ≤ length p)%nat ∧ NoDup p ∧
  ∀ k a b, p !! k = Some a → p !! ((k + 1) `mod` length p)%nat = Some b → E a b.

(** The passages of the grid form a spanning tree of its cells. *)
Record spanning_tree (m : Maze) (g : Grid) : Prop := {
  st_count : Z.of_nat (length (passages m g)) = num_rows m * num_cols m - 1;
  st_connected : ∀ c, inb m c → rtc (passage m g) (0, 0) c;
  st_acyclic : ∀ p, ¬ cycle (passage m g) p
}.

(** Wall flags of adjacent cells agree. *)
Definition consistent (m : Maze) (g : Grid) : Prop :=
  ∀ i j, 0 ≤ i < num_cols m → 0 ≤ j < num_rows m →
    (i + 1 < num_cols m →
       has_right_wall (cell g (i, j)) = has_left_wall (cell g (i + 1, j))) ∧
    (j + 1 < num_rows m →
       has_bottom_wall (cell g (i, j)) = has_top_wall (cell g (i, j + 1))).

(** ** Invariants of the carvers *)

(** A cell that the carver has reached: it is marked visited, or it is
    the cell [p] that has just been connected and is about to be
    marked. *)
Definition reached (g : Grid) (p : option (Z * Z)) (c : Z * Z) : Prop :=
  visited (cell g c) = true ∨ p = Some c.

#[global] Instance reached_dec g p c : Decision (reached g p c).
Proof. unfold reached. apply _. Defined.

Definition agree (m : Maze) (g : Grid) : Prop :=
  ∀ c d, inb m c → inb m (step d c) →
    wall d (cell g c) = wall (opp d) (cell g (step d c)).

(** The passages form a tree over the reached cells. *)
Record tree_inv (m : Maze) (g : Grid) (p : option (Z * Z)) : Prop := {
  ti_wf : wf m g;
  ti_agree : agree m g;
  ti_ends : ∀ c d, inb m c → inb m (step d c) →
    wall d (cell g c) = false → reached g p c ∧ reached g p (step d c);
  ti_count :
    length (filter (reached g p) (all_cells m)) = S (length (passages m g));
  ti_conn : ∀ c, inb m c → reached g p c → rtc (passage m g) (0, 0) c;
  ti_acyc : ∀ l, ¬ cycle (passage m g) l
}.

(** What the carvers do with [valid_dirs]: the large-grid carver marks
    both sides of every passage, the small-grid one leaves the
    dictionaries empty. *)
Definition dirs_ok (large : bool) (m : Maze) (g : Grid) : Prop :=
  if large then
    ∀ c d, inb m c → inb m (step d c) → wall d (cell g c) = false →
      valid_dirs (cell g c) !! key d = Some true
  else ∀ c, inb m c → valid_dirs (cell g c) = ∅.

(** The outer walls stay closed, apart from the entrance and the
    exit. *)
Definition border_ok (m : Maze) (g : Grid) : Prop :=
  ∀ c d, inb m c → ¬ inb m (step d c) → wall d (cell g c) = false →
    (c = (0, 0) ∧ d = Up) ∨ (c = (num_cols m - 1, num_rows m - 1) ∧ d = Down).

Record gen_inv (large : bool) (m : Maze) (s : State) (p : option (Z * Z))
    : Prop := {
  gi_tree : tree_inv m (cells s) p;
  gi_log : Forall (consistent m) (wall_log s);
  gi_dirs : dirs_ok large m (cells s);
  gi_border : border_ok m (cells s);
  gi_logged : length (wall_log s) = S (S (length (passages m (cells s))));
  gi_entrance : inb m (0, 0) → has_top_wall (cell (cells s) (0, 0)) = false;
  gi_exit : inb m (num_cols m - 1, num_rows m - 1) →
    has_bottom_wall (cell (cells s) (num_cols m - 1, num_rows m - 1)) = false
}.

(** Directions in which the carvers look for unvisited neighbours from
    [c]: [__break_walls_r] tests [i - 1 > 0] and [j - 1 > 0],
    [__break_walls_l] tests [>= 0]. *)
Definition allowed (large : bool) (m : Maze) (d : dir) (c : Z * Z) : Prop :=
  match d with
  | Left => if large then 0 ≤ c.1 - 1 else 0 < c.1 - 1
  | Right => c.1 + 1 < num_cols m
  | Up => if large then 0 ≤ c.2 - 1 else 0 < c.2 - 1
  | Down => c.2 + 1 < num_rows m
  end.

#[global] Instance allowed_dec large m d c : Decision (allowed large m d c).
Proof. unfold allowed. destruct d, large; apply _. Defined.

(** The unvisited neighbours of [c], in the order in which the source
    collects them. *)
Definition candidate (large : bool) (m : Maze) (g : Grid) (c : Z * Z)
    (d : dir) : list (Z * Z) :=
  if bool_decide (allowed large m d c) && negb (visited (cell g (step d c)))
  then [step d c] else [].

Definition candidates (large : bool) (m : Maze) (g : Grid) (c : Z * Z)
    : list (Z * Z) :=
  candidate large m g c Left ++ candidate large m g c Right ++
  candidate large m g c Up ++ candidate large m g c Down.

(** No unvisited neighbour is left around [c]. *)
Definition closed (large : bool) (m : Maze) (g : Grid) (c : Z * Z) : Prop :=
  ∀ d, allowed large m d c → visited (cell g (step d c)) = true.

(** Visited flags are only ever set. *)
Definition grows (m : Maze) (g g' : Grid) : Prop :=
  ∀ c, inb m c → visited (cell g c) = true → visited (cell g' c) = true.

(** The number of cells not yet visited. *)
Definition unvisited_count (m : Maze) (g : Grid) : nat :=
  length (filter (λ c, visited (cell g c) = false) (all_cells m)).

(** The entry of [edges] for the wall pair between [a] and its
    neighbour in direction [d]. *)
Definition edge_of (a : Z * Z) (d : dir) : Z * Z * dir :=
  match d with
  | Right | Down => (a, d)
  | Left | Up => (step d a, opp d)
  end.

(** What a step of generation leaves alone: the logged moves and
    whether there is a window. *)
Definition keeps (s s' : State) : Prop :=
  moves s' = moves s ∧ (is_Some (win s') ↔ is_Some (win s)).

(** What a run of a carver from [s] to [s'] guarantees: the invariant
    with nothing pending, visited flags only set, and no unvisited
    neighbour left around the cells that the run has visited. *)
Record carved (large : bool) (m : Maze) (s s' : State) : Prop := {
  cv_inv : gen_inv large m s' None;
  cv_grows : grows m (cells s) (cells s');
  cv_keeps : keeps s s';
  cv_closed : ∀ c, inb m c → visited (cell (cells s') c) = true →
    visited (cell (cells s) c) = false → closed large m (cells s') c
}.

(** ** Construction *)

(** A cell with all its walls, not visited and without markers, as
    [Cell.__init__] leaves it; [Cell.draw] may have set its corners. *)
Definition blank (c : Cell) : Prop :=
  has_left_wall c = true ∧ has_right_wall c = true ∧
  has_top_wall c = true ∧ has_bottom_wall c = true ∧
  visited c = false ∧ valid_dirs c = ∅.

(** The grid has a cell at [c]. *)
Definition has_cell (g : Grid) (c : Z * Z) : Prop :=
  0 ≤ c.1 ∧ 0 ≤ c.2 ∧ is_Some (g !! Z.to_nat c.1 ≫= (.!! Z.to_nat c.2)).

(** Steps that touch neither the wall log nor the generator. *)
Definition untouched (s s' : State) : Prop :=
  wall_log s' = wall_log s ∧ random s' = random s ∧ keeps s s'.

(** The constructor up to the end of carving: the loops of
    [__create_cells] and [__break_entrance_and_exit] without its last
    call. *)
Definition generation (m : Maze) (fuel : nat) : M unit :=
  create_loops m;;
  open_and_carve m fuel.

(** The grid before carving: every cell blank, apart from the top wall
    of the entrance and the bottom wall of the exit. *)
Definition opened (m : Maze) (g : Grid) : Prop :=
  ∀ c, inb m c →
    visited (cell g c) = false ∧ valid_dirs (cell g c) = ∅ ∧
    ∀ d, wall d (cell g c) = false ↔
         (c = (0, 0) ∧ d = Up) ∨
         (c = (num_cols m - 1, num_rows m - 1) ∧ d = Down).

(** Which carver and solver [Maze] picks. *)
Definition is_large (m : Maze) : bool :=
  negb (num_cols m * num_rows m <? 1000).

(** ** The reported path

    The solver reports its path by drawing: [draw_move] draws the
    segment between two cells in red, and draws it over in gray when
    the move is undone.  The path is the start cell followed by the
    far ends of the segments that are left in red, in the order in
    which they were drawn. *)
Definition draw_segment (segs : list ((Z * Z) * (Z * Z))) (mv : Move)
    : list ((Z * Z) * (Z * Z)) :=
  let '(a, b, undo) := mv in
  if undo then filter (λ sg, sg ≠ (a, b)) segs else segs ++ [(a, b)].

Definition red_segments (s : State) : list ((Z * Z) * (Z * Z)) :=
  foldl draw_segment [] (reverse (moves s)).

Definition reported_path (s : State) : list (Z * Z) :=
  (0, 0) :: (snd <$> red_segments s).

(** A path from the entrance to the exit in which each cell is joined
    to the next one by a passage. *)
Definition valid_path (m : Maze) (g : Grid) (p : list (Z * Z)) : Prop :=
  head p = Some (0, 0) ∧
  last p = Some (num_cols m - 1, num_rows m - 1) ∧
  ∀ k a b, p !! k = Some a → p !! S k = Some b → passage m g a b.

(** ** Checking a run of the constructor

    [holds P r]: the run [r] of the constructor ended normally and the
    boolean test [P] holds of its maze, of the value of the solver and
    of its final state. *)
Definition holds (P : Maze → option bool → State → bool)
    (r : result (Maze * option bool * State)) : bool :=
  match r with
  | Ok (m, b, s) => P m b s
  | _ => false
  end.

(** The number of walls of a cell that are cleared. *)
Definition openings (c : Cell) : nat :=
  length (filter (λ b : bool, b = false)
    [has_left_wall c; has_right_wall c; has_top_wall c; has_bottom_wall c]).

(** A move has been undone in the state: [draw_move] was called with
    [undo] set. *)
Definition undone (s : State) : list Move :=
  filter (λ mv : Move, mv.2 = true) (moves s).

(** ** Drawing

    The window after the lines [l] have been drawn on its canvas, the
    last one drawn first. *)
Definition paint (l : list (Line.t * string)) (w : Window) : Window :=
  mkWindow (width w) (height w) (running w) (l ++ canvas w).

(** The four sides of the rectangle with corners [(a1, b1)] and
    [(a2, b2)], coloured after the wall flags of [c], in the order in
    which [Cell.draw] draws them, the last one first. *)
Definition wall_lines (c : Cell) (a1 b1 a2 b2 : Z) : list (Line.t * string) :=
  [(Line.make (Point.make a1 b2) (Point.make a2 b2), wall_color (has_bottom_wall c));
   (Line.make (Point.make a1 b1) (Point.make a2 b1), wall_color (has_top_wall c));
   (Line.make (Point.make a2 b1) (Point.make a2 b2), wall_color (has_right_wall c));
   (Line.make (Point.make a1 b1) (Point.make a1 b2), wall_color (has_left_wall c))].

(** The cell [x] has the corners that [__draw_cell] computes for the
    grid position [c]. *)
Definition placed (m : Maze) (c : Z * Z) (x : Cell) : Prop :=
  _x1 x = x1 m + c.1 * cell_size_x m ∧
  _y1 x = y1 m + c.2 * cell_size_y m ∧
  _x2 x = x1 m + c.1 * cell_size_x m + cell_size_x m ∧
  _y2 x = y1 m + c.2 * cell_size_y m + cell_size_y m.

(** [__draw_cell] as an update of the cell. *)
Definition place (m : Maze) (c : Z * Z) : Cell → Cell :=
  with_coords (x1 m + c.1 * cell_size_x m) (y1 m + c.2 * cell_size_y m)
              (x1 m + c.1 * cell_size_x m + cell_size_x m)
              (y1 m + c.2 * cell_size_y m + cell_size_y m).

(** Every cell of the grid lies where [__draw_cell] puts it. *)
Definition all_placed (m : Maze) (g : Grid) : Prop :=
  ∀ c, inb m c → placed m c (cell g c).

(** ** The shape of small mazes

    A wall of the cell at [c] towards a neighbour in the grid is
    cleared. *)
Definition has_opening (m : Maze) (g : Grid) (c : Z * Z) : Prop :=
  ∃ d, inb m (step d c) ∧ wall d (cell g c) = false.

(** [__break_walls_r] never moves left into column 0 nor up into row 0
    (its tests are [i - 1 > 0] and [j - 1 > 0]): a cell of the top row
    that is connected to anything is connected to its left neighbour,
    and a cell of the left column to the one above it. *)
Definition corridors (m : Maze) (g : Grid) : Prop :=
  ∀ c, inb m c → has_opening m g c →
    (c.2 = 0 → 1 ≤ c.1 → wall Left (cell g c) = false) ∧
    (c.1 = 0 → 1 ≤ c.2 → wall Up (cell g c) = false).

(** ** The recursive solver, block by block

    The guard of the block of [_solve_r] that looks in direction [d]
    from [c]. *)
Definition sguard (m : Maze) (d : dir) (c : Z * Z) : bool :=
  match d with
  | Left => c.1 - 1 >? 0
  | Right => c.1 <? num_cols m
  | Up => c.2 - 1 >? 0
  | Down => c.2 <? num_rows m
  end.

(** The condition of the block: neither of the two walls between [c]
    and its neighbour is set, and the neighbour is not visited. *)
Definition sopen (d : dir) (c : Z * Z) : M bool :=
  attr (negb ∘ wall d) c.1 c.2
  &&& attr (negb ∘ wall (opp d)) (step d c).1 (step d c).2
  &&& unvisited (step d c).1 (step d c).2.

Definition sblock (m : Maze) (solve : Z → Z → M bool) (d : dir) (c : Z * Z)
    : M bool :=
  if sguard m d c
  then try_r solve c.1 c.2 (step d c).1 (step d c).2 (sopen d c)
  else ret false.

(** The directions in which [_solve_r] is ready to move from [c]. *)
Definition sallowed (d : dir) (c : Z * Z) : Prop :=
  match d with
  | Left => 0 < c.1 - 1
  | Up => 0 < c.2 - 1
  | Right | Down => True
  end.

Definition exit_cell (m : Maze) : Z * Z := (num_cols m - 1, num_rows m - 1).

(** Every move that the solver is ready to make from [c] through an
    open wall leads to a visited cell. *)
Definition sclosed (g : Grid) (c : Z * Z) : Prop :=
  ∀ d, sallowed d c → wall d (cell g c) = false →
    visited (cell g (step d c)) = true.

(** The segments along the cells [a :: p]. *)
Fixpoint links (a : Z * Z) (p : list (Z * Z)) : list ((Z * Z) * (Z * Z)) :=
  match p with
  | [] => []
  | b :: p => (a, b) :: links b p
  end.

(** [a :: p] goes from [a] to the exit along passages. *)
Fixpoint route (m : Maze) (g : Grid) (a : Z * Z) (p : list (Z * Z)) : Prop :=
  match p with
  | [] => a = exit_cell m
  | b :: p => passage m g a b ∧ route m g b p
  end.

(** What a solver leaves alone between two states: the shape of the
    grid, every wall, the wall log, the generator and the corners of
    the cells; visited flags are only set, and the window stays. *)
Record solving (m : Maze) (s s' : State) : Prop := {
  sv_wf : wf m (cells s');
  sv_walls : ∀ c d, inb m c →
    wall d (cell (cells s') c) = wall d (cell (cells s) c);
  sv_grows : grows m (cells s) (cells s');
  sv_win : is_Some (win s');
  sv_log : wall_log s' = wall_log s;
  sv_random : random s' = random s;
  sv_place : all_placed m (cells s) → all_placed m (cells s')
}.

(** The blocks of [_solve_r] for the directions [ds], in order, up to
    the first one that succeeds. *)
Fixpoint sblocks (m : Maze) (solve : Z → Z → M bool) (ds : list dir)
    (c : Z * Z) : M bool :=
  match ds with
  | [] => ret false
  | d :: ds =>
      r ← sblock m solve d c;
      if r then ret true else sblocks m solve ds c
  end.

(** The state in which a call of a solver starts. *)
Definition ready (m : Maze) (s : State) : Prop :=
  wf m (cells s) ∧ agree m (cells s) ∧ border_ok m (cells s) ∧
  is_Some (win s) ∧ visited (cell (cells s) (exit_cell m)) = false.

(** A call of [_solve_r] that returns [False]: every red segment it has
    drawn is undone, the exit is still not visited, and the cells it
    has visited are closed. *)
Record failed (m : Maze) (s s' : State) : Prop := {
  fl_solving : solving m s s';
  fl_red : red_segments s' = red_segments s;
  fl_exit : visited (cell (cells s') (exit_cell m)) = false;
  fl_closed : ∀ c, inb m c → visited (cell (cells s') c) = true →
    visited (cell (cells s) c) = false → sclosed (cells s') c
}.

(** A call of [_solve_r] at [a] that returns [True]: the red segments
    it leaves go from [a] to the exit along passages, through cells
    that were not visited before, each of them once. *)
Definition found (m : Maze) (s s' : State) (a : Z * Z) : Prop :=
  solving m s s' ∧
  ∃ p, route m (cells s) a p ∧ red_segments s' = red_segments s ++ links a p ∧
       NoDup (a :: p) ∧ ∀ c, c ∈ p → visited (cell (cells s) c) = false.

(** ** The iterative solver, block by block

    The guard of the block of [_solve_l] that looks in direction [d]
    from [c]. *)
Definition lguard (m : Maze) (d : dir) (c : Z * Z) : bool :=
  match d with
  | Left => c.1 - 1 >=? 0
  | Right => c.1 + 1 <? num_cols m
  | Up => c.2 - 1 >=? 0
  | Down => c.2 + 1 <? num_rows m
  end.

(** The condition of the block: the wall of [c] is not set and the
    neighbour is not visited. *)
Definition lopen (d : dir) (c : Z * Z) : M bool :=
  attr (negb ∘ wall d) c.1 c.2 &&& unvisited (step d c).1 (step d c).2.

Definition lblock (m : Maze) (d : dir) (c : Z * Z) (stack : list (Z * Z))
    : M (list (Z * Z)) :=
  if lguard m d c
  then try_l c.1 c.2 (step d c).1 (step d c).2 (key d) (lopen d c) stack
  else ret stack.

(** The blocks for the directions [ds], in order, and then [k] on the
    stack that they leave. *)
Fixpoint lblocks {A} (m : Maze) (ds : list dir) (c : Z * Z)
    (k : list (Z * Z) → M A) (stack : list (Z * Z)) : M A :=
  match ds with
  | [] => k stack
  | d :: ds => bind (lblock m d c stack) (lblocks m ds c k)
  end.

(** The invariant of the loop of [_solve_l], started in [s0]: [dealt]
    holds of the cells that have been popped and dealt with. *)
Record linv (m : Maze) (s0 s : State) (stack : list (Z * Z))
    (dealt : Z * Z → Prop) : Prop := {
  li_solving : solving m s0 s;
  li_dirs : ∀ c, inb m c →
    valid_dirs (cell (cells s) c) = valid_dirs (cell (cells s0) c);
  li_moves : ∀ mv, mv ∈ moves s →
    mv.2 = false ∧ passage m (cells s0) mv.1.1 mv.1.2 ∧
    visited (cell (cells s) mv.1.2) = true;
  li_stack : ∀ c, c ∈ stack →
    inb m c ∧ (visited (cell (cells s) c) = true ∨ c = (0, 0));
  li_marked : ∀ c, inb m c → visited (cell (cells s) c) = true →
    c ∈ stack ∨ dealt c;
  li_root : (0, 0) ∈ stack ∨ dealt (0, 0);
  li_done : ∀ c, dealt c →
    inb m c ∧ c ≠ exit_cell m ∧
    ∀ d, inb m (step d c) → wall d (cell (cells s0) c) = false →
         visited (cell (cells s) (step d c)) = true;
  li_link : ∀ c, inb m c → visited (cell (cells s) c) = true →
    ∃ a, (a, c, false) ∈ moves s
}.

(** ** The seed

    The maze with another value of its [seed] attribute. *)
Definition with_seed (sd : option Z) (m : Maze) : Maze :=
  mkMaze (x1 m) (y1 m) (num_rows m) (num_cols m)
         (cell_size_x m) (cell_size_y m) sd.

(** Two runs of the constructor end the same way, with the same value
    of the solver and the same grid, window, wall log and moves. *)
Definition same_run (r1 r2 : result (Maze * option bool * State)) : Prop :=
  match r1, r2 with
  | Ok (_, b1, s1), Ok (_, b2, s2) =>
      b1 = b2 ∧ cells s1 = cells s2 ∧ win s1 = win s2 ∧
      wall_log s1 = wall_log s2 ∧ moves s1 = moves s2
  | Raise e1, Raise e2 => e1 = e2
  | OutOfFuel, OutOfFuel => True
  | _, _ => False
  end.

(** ** The program

    [Window.__init__]: the window is not running and nothing is drawn
    on its canvas. *)
Definition Window_init (width height : Z) : Window :=
  mkWindow width height false [].

(** [main] up to its call of [wait_for_close]: the window, and the
    maze that is built in it. *)
Definition main (seeded : Z → list nat) (random0 : list nat) (fuel : nat)
    : result (Maze * option bool * State) :=
  let win := Window_init 1920 1080 in
  Maze__init__ seeded random0 fuel (Some win) 52 94 10 10 100 50 None.

(** The grid that the loops of [__create_cells] build: each cell as
    [Cell.__init__] makes it, with the corners that [__draw_cell] has
    given it. *)
Definition fresh_grid (m : Maze) : Grid :=
  (λ i, (λ j, place m (i, j) Cell_init) <$> range (num_rows m))
  <$> range (num_cols m).

(** * The recursion limit

    Python raises [RecursionError] when calls nest deeper than the
    recursion limit of the interpreter.  [__break_walls_r] and
    [_solve_r] call themselves once for every cell along their way, so
    on a long way they reach it.  The two functions below are
    [break_walls_r] and [solve_r] with one more argument, the number
    [depth] of nested calls of the function for which the interpreter
    has room: a call that finds no room raises.  [break_walls_r],
    [solve_r] and the constructor built on them are the runs in which
    every call finds room. *)
Fixpoint break_walls_r_lim (m : Maze) (fuel depth : nat) (i j : Z)
    {struct fuel} : M unit :=
  match fuel with
  | O => out_of_fuel
  | S fuel =>
      match depth with
      | O => raise RecursionError
      | S depth =>
          update_cell i j (with_visited true);;
          break_walls_r_while_lim m fuel depth i j
      end
  end
with break_walls_r_while_lim (m : Maze) (fuel depth : nat) (i j : Z)
    {struct fuel} : M unit :=
  match fuel with
  | O => out_of_fuel
  | S fuel =>
      l ← need_to_visit m i j;
      match l with
      | [] => draw_cell m i j
      | _ :: _ =>
          '(next_index_i, next_index_j) ← choice l;
          connect_r i j next_index_i next_index_j;;
          draw_cell m i j;;
          draw_cell m next_index_i next_index_j;;
          break_walls_r_lim m fuel depth next_index_i next_index_j;;
          break_walls_r_while_lim m fuel depth i j
      end
  end.

Fixpoint solve_r_lim (m : Maze) (fuel depth : nat) (i j : Z) {struct fuel}
    : M bool :=
  match fuel with
  | O => out_of_fuel
  | S fuel =>
      match depth with
      | O => raise RecursionError
      | S depth =>
          animate;;
          update_cell i j (with_visited true);;
          if (i + 1 =? num_cols m) && (j + 1 =? num_rows m) then ret true
          else
            r ← (if i - 1 >? 0 then
                   try_r (solve_r_lim m fuel depth) i j (i - 1) j
                     (attr (negb ∘ has_left_wall) i j
                      &&& attr (negb ∘ has_right_wall) (i - 1) j
                      &&& unvisited (i - 1) j)
                 else ret false);
            if r then ret true else
            r ← (if i <? num_cols m then
                   try_r (solve_r_lim m fuel depth) i j (i + 1) j
                     (attr (negb ∘ has_right_wall) i j
                      &&& attr (negb ∘ has_left_wall) (i + 1) j
                      &&& unvisited (i + 1) j)
                 else ret false);
            if r then ret true else
            r ← (if j - 1 >? 0 then
                   try_r (solve_r_lim m fuel depth) i j i (j - 1)
                     (attr (negb ∘ has_top_wall) i j
                      &&& attr (negb ∘ has_bottom_wall) i (j - 1)
                      &&& unvisited i (j - 1))
                 else ret false);
            if r then ret true else
            r ← (if j <? num_rows m then
                   try_r (solve_r_lim m fuel depth) i j i (j + 1)
                     (attr (negb ∘ has_bottom_wall) i j
                      &&& attr (negb ∘ has_top_wall) i (j + 1)
                      &&& unvisited i (j + 1))
                 else ret false);
            if r then ret true else ret false
      end
  end.

(** [Maze.solve], [__reset_cells_visited], [__break_entrance_and_exit],
    [__create_cells] and [Maze.__init__] with the recursion limit:
    [carve_depth] is the room that [__break_walls_r] finds when
    [__break_entrance_and_exit] calls it, [solve_depth] the room that
    [_solve_r] finds when [solve] calls it.  The iterative carver and
    solver do not nest. *)
Definition solve_lim (m : Maze) (fuel solve_depth : nat) : M (option bool) :=
  if num_cols m * num_rows m <? 1000 then
    r ← solve_r_lim m fuel solve_depth 0 0; ret (Some r)
  else
    solve_l m fuel 0 0;; ret None.

Definition reset_cells_visited_lim (m : Maze) (fuel solve_depth : nat)
    : M (option bool) :=
  reset_loops m;;
  solve_lim m fuel solve_depth.

Definition open_and_carve_lim (m : Maze) (fuel carve_depth : nat) : M unit :=
  update_cell 0 0 (with_top false);;
  log_walls;;
  update_cell (num_cols m - 1) (num_rows m - 1) (with_bottom false);;
  log_walls;;
  draw_cell m 0 0;;
  draw_cell m (num_cols m - 1) (num_rows m - 1);;
  if num_cols m * num_rows m <? 1000
  then break_walls_r_lim m fuel carve_depth 0 0
  else break_walls_l m fuel 0 0.

Definition break_entrance_and_exit_lim (m : Maze)
    (fuel carve_depth solve_depth : nat) : M (option bool) :=
  open_and_carve_lim m fuel carve_depth;;
  reset_cells_visited_lim m fuel solve_depth.

Definition create_cells_lim (m : Maze) (fuel carve_depth solve_depth : nat)
    : M (option bool) :=
  create_loops m;;
  if (num_cols m >? 0) && (num_rows m >? 0)
  then break_entrance_and_exit_lim m fuel carve_depth solve_depth
  else ret None.

Definition Maze__init__lim (seeded : Z → list nat) (random0 : list nat)
    (fuel carve_depth solve_depth : nat) (window : option Window)
    (num_rows num_cols cell_size_x cell_size_y x1 y1 : Z) (seed : option Z)
    : result (Maze * option bool * State) :=
  let m := mkMaze x1 y1 num_rows num_cols cell_size_x cell_size_y seed in
  match (r ← create_cells_lim m fuel carve_depth solve_depth;
         seed_random seeded seed;; ret r)
          (initial_state window random0) with
  | Ok (r, s) => Ok (m, r, s)
  | Raise e => Raise e
  | OutOfFuel => OutOfFuel
  end.

(** * Properties *)

(** ** The monad and the grid *)

Lemma bind_ok {A B} (c : M A) (k : A → M B) s a s1 :
  c s = Ok (a, s1) → bind c k s = k a s1.
Proof. intros H. unfold bind. by rewrite H. Qed.

Lemma bind_inv {A B} (c : M A) (k : A → M B) s b s2 :
  bind c k s = Ok (b, s2) → ∃ a s1, c s = Ok (a, s1) ∧ k a s1 = Ok (b, s2).
Proof.
  unfold bind. destruct (c s) as [[a s1]| |]; [|done..].
  intros H. by exists a, s1.
Qed.

Lemma py_pos_inb {A} (l : list A) i :
  0 ≤ i < Z.of_nat (length l) → py_pos l i = Some (Z.to_nat i).
Proof.
  intros H. unfold py_pos.
  destruct (0 <=? i) eqn:E1; [|lia].
  destruct (i <? Z.of_nat (length l)) eqn:E2; [done|lia].
Qed.

Lemma wf_lookup m g c :
  wf m g → inb m c →
  ∃ col x, g !! Z.to_nat c.1 = Some col ∧ col !! Z.to_nat c.2 = Some x ∧
           Z.of_nat (length col) = num_rows m ∧ cell g c = x.
Proof.
  intros [Hl Hc] [H1 H2].
  destruct (lookup_lt_is_Some_2 g (Z.to_nat c.1)) as [col Hcol]; [lia|].
  assert (Hlen : Z.of_nat (length col) = num_rows m).
  { apply Hc. by eapply list_elem_of_lookup_2. }
  destruct (lookup_lt_is_Some_2 col (Z.to_nat c.2)) as [x Hx]; [lia|].
  exists col, x. unfold cell. rewrite Hcol. simpl. by rewrite Hx.
Qed.

Lemma grid_pos_inb m g i j :
  wf m g → inb m (i, j) → grid_pos g i j = Some (Z.to_nat i, Z.to_nat j).
Proof.
  intros Hwf Hin.
  destruct (wf_lookup m g (i, j) Hwf Hin) as (col & x & Hcol & Hx & Hlen & _).
  destruct Hwf as [Hl _]. destruct Hin as [H1 H2]. simpl in *.
  unfold grid_pos. rewrite py_pos_inb by lia. simpl. rewrite Hcol. simpl.
  rewrite py_pos_inb by lia. done.
Qed.

Lemma get_cell_ok m s i j :
  wf m (cells s) → inb m (i, j) → get_cell i j s = Ok (cell (cells s) (i, j), s).
Proof.
  intros Hwf Hin. unfold get_cell. rewrite (grid_pos_inb m) by done.
  destruct (wf_lookup m _ (i, j) Hwf Hin) as (col & x & Hcol & Hx & _ & Hc).
  simpl in *. rewrite Hcol. simpl. rewrite Hx. by rewrite Hc.
Qed.

Lemma update_cell_ok m s i j f :
  wf m (cells s) → inb m (i, j) →
  update_cell i j f s = Ok (tt, set_cells (upd (cells s) (i, j) f) s).
Proof.
  intros Hwf Hin. unfold update_cell. by rewrite (grid_pos_inb m).
Qed.

Lemma wf_upd m g c f : wf m g → wf m (upd g c f).
Proof.
  intros [Hl Hc]. split.
  - unfold upd. by rewrite length_alter.
  - intros col Hcol. unfold upd in Hcol.
    apply list_elem_of_lookup in Hcol as [k Hk].
    destruct (decide (k = Z.to_nat c.1)) as [->|Hne].
    + rewrite list_lookup_alter_eq in Hk.
      destruct (g !! Z.to_nat c.1) as [col0|] eqn:E; [|done].
      simpl in Hk. injection Hk as <-. rewrite length_alter.
      apply Hc. by eapply list_elem_of_lookup_2.
    + rewrite list_lookup_alter_ne in Hk by done.
      apply Hc. by eapply list_elem_of_lookup_2.
Qed.

Lemma cell_upd_eq m g c f : wf m g → inb m c → cell (upd g c f) c = f (cell g c).
Proof.
  intros Hwf Hin.
  destruct (wf_lookup m g c Hwf Hin) as (col & x & Hcol & Hx & _ & Hc).
  unfold cell, upd in *. rewrite list_lookup_alter_eq, Hcol. simpl.
  rewrite list_lookup_alter_eq, Hx. simpl. rewrite Hcol in Hc. simpl in Hc.
  rewrite Hx in Hc. simpl in Hc. by subst.
Qed.

Lemma cell_upd_ne m g c c' f :
  inb m c → inb m c' → c ≠ c' → cell (upd g c f) c' = cell g c'.
Proof.
  intros [H1 H2] [H1' H2'] Hne. unfold cell, upd.
  destruct (decide (Z.to_nat c.1 = Z.to_nat c'.1)) as [E|E].
  - rewrite <- E, list_lookup_alter_eq.
    destruct (g !! Z.to_nat c.1) as [col|]; [|done]. simpl.
    rewrite list_lookup_alter_ne; [done|].
    intros E2. apply Hne. destruct c, c'. simpl in *. f_equal; lia.
  - by rewrite list_lookup_alter_ne.
Qed.

Lemma cell_upd m g c c' f :
  wf m g → inb m c → inb m c' →
  cell (upd g c f) c' = if decide (c = c') then f (cell g c') else cell g c'.
Proof.
  intros Hwf Hc Hc'. case_decide as E.
  - subst. by eapply cell_upd_eq.
  - by eapply cell_upd_ne.
Qed.

(** ** Graphs *)

Section graph.
Context {V : Type} `{EqDecision V}.
Implicit Types (E : V → V → Prop) (p : list V).

Lemma cycle_neighbours E p v :
  (∀ a b, E a b → E b a) → cycle E p → v ∈ p →
  ∃ x y, x ≠ y ∧ E v x ∧ E v y.
Proof.
  intros Hsym (Hlen & Hnd & Hedge) Hv.
  apply list_elem_of_lookup in Hv as [k Hk].
  pose proof (lookup_lt_Some _ _ _ Hk) as Hlt.
  set (n := length p) in *.
  set (k1 := ((k + 1) `mod` n)%nat).
  set (k0 := if decide (k = 0%nat) then (n - 1)%nat else (k - 1)%nat).
  assert (Hk1 : (k1 < n)%nat) by (apply Nat.mod_upper_bound; lia).
  assert (Hk0 : (k0 < n)%nat) by (unfold k0; case_decide; lia).
  assert (Hk01 : ((k0 + 1) `mod` n = k)%nat).
  { unfold k0. case_decide.
    - subst k. replace (n - 1 + 1)%nat with n by lia. apply Nat.Div0.mod_same.
    - replace (k - 1 + 1)%nat with k by lia. by apply Nat.mod_small. }
  assert (Hne : k0 ≠ k1).
  { unfold k0, k1. case_decide.
    - subst k. rewrite Nat.mod_small by lia. lia.
    - destruct (decide (k + 1 = n)%nat) as [E1|E1].
      + rewrite E1, Nat.Div0.mod_same. lia.
      + rewrite Nat.mod_small by lia. lia. }
  destruct (lookup_lt_is_Some_2 p k1 Hk1) as [y Hy].
  destruct (lookup_lt_is_Some_2 p k0 Hk0) as [x Hx].
  exists x, y. split_and!.
  - intros ->. apply Hne. by eapply NoDup_lookup.
  - apply Hsym. eapply Hedge; [done|]. by rewrite Hk01.
  - by eapply Hedge.
Qed.

Lemma acyclic_extend E E' (Vs : V → Prop) u v :
  (∀ a b, E a b → E b a) →
  (∀ a b, E a b → Vs a ∧ Vs b) →
  ¬ Vs v →
  (∀ a b, E' a b ↔ E a b ∨ (a = u ∧ b = v) ∨ (a = v ∧ b = u)) →
  (∀ p, ¬ cycle E p) → ∀ p, ¬ cycle E' p.
Proof.
  intros Hsym Hvs Hv HE' Hac p Hcyc.
  destruct (decide (v ∈ p)) as [Hin|Hnin].
  - destruct (cycle_neighbours E' p v) as (x & y & Hxy & Hx & Hy); [|done..|].
    { intros a b. rewrite !HE'. intros [?|[[-> ->]|[-> ->]]]; auto. }
    apply HE' in Hx, Hy.
    assert (x = u) as ->.
    { destruct Hx as [Hx|[[-> ->]|[_ ->]]]; [|done..]. by apply Hvs in Hx as [? _]. }
    assert (y = u) as ->.
    { destruct Hy as [Hy|[[-> ->]|[_ ->]]]; [|done..]. by apply Hvs in Hy as [? _]. }
    done.
  - apply (Hac p). destruct Hcyc as (Hlen & Hnd & Hedge).
    split_and!; [done..|]. intros k a b Ha Hb.
    specialize (Hedge k a b Ha Hb). apply HE' in Hedge.
    destruct Hedge as [?|[[_ ->]|[-> _]]]; [done|..]; exfalso; apply Hnin;
      by eapply list_elem_of_lookup_2.
Qed.

End graph.

Section counting.
Context {A : Type}.

Lemma filter_length_le (P Q : A → Prop) `{DP : !∀ x, Decision (P x)}
    `{DQ : !∀ x, Decision (Q x)} (l : list A) :
  (∀ y, y ∈ l → P y → Q y) → (length (filter P l) ≤ length (filter Q l))%nat.
Proof.
  induction l as [|a l IH]; intros H; [done|].
  rewrite !filter_cons.
  assert (IH' : (length (filter P l) ≤ length (filter Q l))%nat).
  { apply IH. intros y Hy. apply H. by right. }
  destruct (decide (P a)) as [Hp|Hp].
  - rewrite (decide_True (P:=Q a)) by (apply H; [left|done]). simpl. lia.
  - destruct (decide (Q a)); simpl; lia.
Qed.

Lemma filter_length_lt (P Q : A → Prop) `{DP : !∀ x, Decision (P x)}
    `{DQ : !∀ x, Decision (Q x)} (l : list A) x :
  x ∈ l → ¬ P x → Q x → (∀ y, y ∈ l → P y → Q y) →
  (length (filter P l) < length (filter Q l))%nat.
Proof.
  induction l as [|a l IH]; intros Hx Hp Hq H; [by apply elem_of_nil in Hx|].
  rewrite !filter_cons.
  assert (Hle : (length (filter P l) ≤ length (filter Q l))%nat).
  { apply filter_length_le. intros y Hy. apply H. by right. }
  apply elem_of_cons in Hx as [->|Hx].
  - rewrite (decide_False (P:=P a)), (decide_True (P:=Q a)) by done. simpl. lia.
  - assert (IH' : (length (filter P l) < length (filter Q l))%nat).
    { apply IH; [done..|]. intros y Hy. apply H. by right. }
    destruct (decide (P a)) as [Hpa|Hpa].
    + rewrite (decide_True (P:=Q a)) by (apply H; [left|done]). simpl. lia.
    + destruct (decide (Q a)); simpl; lia.
Qed.

Lemma filter_length_same (P Q : A → Prop) `{DP : !∀ x, Decision (P x)}
    `{DQ : !∀ x, Decision (Q x)} (l : list A) :
  (∀ y, y ∈ l → P y ↔ Q y) → length (filter Q l) = length (filter P l).
Proof.
  intros H. apply Nat.le_antisymm; apply filter_length_le; intros y Hy;
    by apply H.
Qed.

Lemma filter_length_succ (P Q : A → Prop) `{DP : !∀ x, Decision (P x)}
    `{DQ : !∀ x, Decision (Q x)} (l : list A) x :
  NoDup l → x ∈ l → ¬ P x → Q x → (∀ y, y ∈ l → y ≠ x → P y ↔ Q y) →
  length (filter Q l) = S (length (filter P l)).
Proof.
  induction l as [|a l IH]; intros Hnd Hx Hp Hq H; [by apply elem_of_nil in Hx|].
  apply NoDup_cons in Hnd as [Ha Hnd].
  rewrite !filter_cons.
  apply elem_of_cons in Hx as [->|Hx].
  - rewrite (decide_False (P:=P a)), (decide_True (P:=Q a)) by done. simpl. f_equal.
    apply filter_length_same. intros y Hy. apply H; [by right|]. by intros ->.
  - assert (a ≠ x) by (by intros ->).
    assert (P a ↔ Q a) as Hpq by (apply H; [by left|done]).
    assert (IH' : length (filter Q l) = S (length (filter P l))).
    { apply IH; [done..|]. intros y Hy. apply H. by right. }
    destruct (decide (P a)) as [Hpa|Hpa].
    + rewrite (decide_True (P:=Q a)) by (by apply Hpq). simpl. by f_equal.
    + rewrite (decide_False (P:=Q a)) by (by rewrite <- Hpq). done.
Qed.

End counting.

(** ** Cells and edges of the grid *)

Lemma elem_of_range n x : x ∈ range n ↔ 0 ≤ x < n.
Proof.
  unfold range. rewrite list_elem_of_fmap. split.
  - intros (k & -> & Hk). apply elem_of_seq in Hk. lia.
  - intros H. exists (Z.to_nat x). split; [lia|]. apply elem_of_seq. lia.
Qed.

Lemma NoDup_range n : NoDup (range n).
Proof.
  unfold range. apply NoDup_fmap_2; [|apply NoDup_seq].
  intros a b. lia.
Qed.

Lemma elem_of_all_cells m c : c ∈ all_cells m ↔ inb m c.
Proof.
  unfold all_cells, inb. rewrite list_elem_of_bind. split.
  - intros (i & Hc & Hi). apply list_elem_of_fmap in Hc as (j & -> & Hj).
    apply elem_of_range in Hi, Hj. done.
  - intros [H1 H2]. exists c.1. rewrite elem_of_range. split; [|done].
    apply list_elem_of_fmap. exists c.2. rewrite elem_of_range.
    split; [by destruct c|done].
Qed.

Lemma NoDup_all_cells m : NoDup (all_cells m).
Proof.
  unfold all_cells. apply NoDup_bind; [| |apply NoDup_range].
  - intros i1 i2 c _ _ H1 H2.
    apply list_elem_of_fmap in H1 as (j1 & -> & _).
    apply list_elem_of_fmap in H2 as (j2 & E & _). by injection E.
  - intros i _. apply NoDup_fmap_2; [|apply NoDup_range].
    intros a b E. by injection E.
Qed.

Lemma length_range n : Z.of_nat (length (range n)) = Z.max 0 n.
Proof. unfold range. rewrite length_fmap, length_seq. lia. Qed.

Lemma length_all_cells m :
  0 ≤ num_cols m → 0 ≤ num_rows m →
  Z.of_nat (length (all_cells m)) = num_rows m * num_cols m.
Proof.
  intros HC HR. unfold all_cells.
  assert (H : ∀ l : list Z,
    Z.of_nat (length (l ≫= λ i, (λ j, (i, j)) <$> range (num_rows m)))
    = num_rows m * Z.of_nat (length l)).
  { induction l as [|a l IH]; csimpl; [lia|].
    rewrite length_app, length_fmap, Nat2Z.inj_add, IH, length_range. lia. }
  rewrite H, length_range. lia.
Qed.

Lemma elem_of_cell_edges m c e :
  e ∈ (if bool_decide (inb m (step Right c)) then [(c, Right)] else []) ++
      (if bool_decide (inb m (step Down c)) then [(c, Down)] else [])
  ↔ e.1 = c ∧ inb m (step e.2 c) ∧ (e.2 = Right ∨ e.2 = Down).
Proof.
  rewrite elem_of_app.
  destruct (bool_decide (inb m (step Right c))) eqn:E1;
    destruct (bool_decide (inb m (step Down c))) eqn:E2;
    try apply bool_decide_eq_true in E1; try apply bool_decide_eq_true in E2;
    try apply bool_decide_eq_false in E1; try apply bool_decide_eq_false in E2;
    rewrite ?list_elem_of_singleton, ?elem_of_nil; destruct e as [c' d];
    simpl; split.
  all: try (intros [E|E]; [try done; injection E as -> ->; auto
                          |try done; injection E as -> ->; auto]).
  all: intros (-> & H & [-> | ->]); auto; try done.
Qed.

Lemma elem_of_edges m c d :
  (c, d) ∈ edges m ↔ inb m c ∧ inb m (step d c) ∧ (d = Right ∨ d = Down).
Proof.
  unfold edges. rewrite list_elem_of_bind. split.
  - intros (a & H & Ha). apply elem_of_all_cells in Ha.
    apply elem_of_cell_edges in H as (E & H1 & H2). simpl in *. by subst.
  - intros (Hc & Hs & Hd). exists c. rewrite elem_of_all_cells.
    split; [|done]. by apply elem_of_cell_edges.
Qed.

Lemma NoDup_edges m : NoDup (edges m).
Proof.
  unfold edges. apply NoDup_bind; [| |apply NoDup_all_cells].
  - intros c1 c2 e _ _ H1 H2.
    apply elem_of_cell_edges in H1 as (E1 & _), H2 as (E2 & _). congruence.
  - intros c _. apply NoDup_app. split_and!.
    + case_bool_decide; [apply NoDup_singleton|apply NoDup_nil_2].
    + intros e H1 H2.
      destruct (bool_decide (inb m (step Right c))); [|by apply elem_of_nil in H1].
      apply list_elem_of_singleton in H1. subst e.
      destruct (bool_decide (inb m (step Down c))); [|by apply elem_of_nil in H2].
      by apply list_elem_of_singleton in H2.
    + case_bool_decide; [apply NoDup_singleton|apply NoDup_nil_2].
Qed.

(** ** Directions *)

Lemma opp_opp d : opp (opp d) = d.
Proof. by destruct d. Qed.

Lemma step_opp d c : step (opp d) (step d c) = c.
Proof. destruct c, d; simpl; f_equal; lia. Qed.

Lemma step_ne d c : step d c ≠ c.
Proof. destruct c, d; simpl; intros E; injection E; lia. Qed.

Lemma step_inj d d' c : step d c = step d' c → d = d'.
Proof. destruct c, d, d'; simpl; intros E; try done; injection E; lia. Qed.

Lemma wall_clear d d' c :
  wall d' (clear d c) = if decide (d' = d) then false else wall d' c.
Proof. by destruct d, d'. Qed.

Lemma visited_clear d c : visited (clear d c) = visited c.
Proof. by destruct d. Qed.

Lemma valid_dirs_clear d c : valid_dirs (clear d c) = valid_dirs c.
Proof. by destruct d. Qed.

Lemma passage_sym m g a b : passage m g a b → passage m g b a.
Proof.
  intros (Ha & Hb & d & -> & H1 & H2). split_and!; [done..|].
  exists (opp d). by rewrite step_opp, opp_opp.
Qed.

(** ** Walls and passages *)

Lemma agree_consistent m g : agree m g ↔ consistent m g.
Proof.
  split.
  - intros H i j Hi Hj. split; intros Hn.
    + apply (H (i, j) Right); split; simpl; lia.
    + apply (H (i, j) Down); split; simpl; lia.
  - intros H [i j] d [Hi Hj] [Hi' Hj']. simpl in *.
    destruct d; simpl in *.
    + destruct (H (i - 1) j) as [H1 _]; [lia..|].
      replace (i - 1 + 1) with i in H1 by lia. symmetry. apply H1. lia.
    + destruct (H i j) as [H1 _]; [lia..|]. apply H1. lia.
    + destruct (H i (j - 1)) as [_ H1]; [lia..|].
      replace (j - 1 + 1) with j in H1 by lia. symmetry. apply H1. lia.
    + destruct (H i j) as [_ H1]; [lia..|]. apply H1. lia.
Qed.

Lemma passage_agree m g a b :
  agree m g →
  passage m g a b ↔
  inb m a ∧ inb m b ∧ ∃ d, b = step d a ∧ wall d (cell g a) = false.
Proof.
  intros Hag. split.
  - intros (Ha & Hb & d & -> & H1 & H2). eauto 10.
  - intros (Ha & Hb & d & -> & H1). split_and!; [done..|].
    exists d. split_and!; [done..|]. by rewrite <- Hag.
Qed.

Lemma openb_agree m g c d :
  agree m g → inb m c → inb m (step d c) →
  openb g (c, d) = negb (wall d (cell g c)).
Proof.
  intros Hag Hc Hs. unfold openb. simpl. rewrite <- Hag by done.
  by destruct (wall d (cell g c)).
Qed.

(** Grids with the same wall flags have the same passages. *)
Lemma passage_same_walls m g g' a b :
  (∀ c d, inb m c → wall d (cell g' c) = wall d (cell g c)) →
  passage m g a b → passage m g' a b.
Proof.
  intros Hw (Ha & Hb & d & -> & H1 & H2). split_and!; [done..|].
  exists d. by rewrite !Hw.
Qed.

Lemma passages_same_walls m g g' :
  (∀ c d, inb m c → wall d (cell g' c) = wall d (cell g c)) →
  length (passages m g') = length (passages m g).
Proof.
  intros Hw. unfold passages. apply filter_length_same.
  intros [c d] He. apply elem_of_edges in He as (Hc & Hs & _).
  unfold openb. simpl. by rewrite !Hw.
Qed.

Lemma cycle_impl {V} (E E' : V → V → Prop) p :
  (∀ a b, E a b → E' a b) → cycle E p → cycle E' p.
Proof. intros H (H1 & H2 & H3). split_and!; eauto. Qed.

(** The tree invariant only looks at wall flags and at which cells
    have been reached. *)
Lemma tree_inv_same m g g' p p' :
  tree_inv m g p →
  wf m g' →
  (∀ c d, inb m c → wall d (cell g' c) = wall d (cell g c)) →
  (∀ c, inb m c → reached g' p' c ↔ reached g p c) →
  tree_inv m g' p'.
Proof.
  intros [Hwf Hag Hends Hcount Hconn Hac] Hwf' Hw Hr.
  assert (Hw' : ∀ c d, inb m c → wall d (cell g c) = wall d (cell g' c)).
  { intros. by rewrite Hw. }
  split.
  - done.
  - intros c d Hc Hs. rewrite !Hw by done. by apply Hag.
  - intros c d Hc Hs H. rewrite Hw in H by done.
    destruct (Hends c d Hc Hs H). by rewrite !Hr.
  - rewrite (passages_same_walls m g g') by done. rewrite <- Hcount.
    apply filter_length_same. intros c Hc. symmetry. apply Hr.
    by apply elem_of_all_cells.
  - intros c Hc H. apply Hr in H; [|done].
    eapply rtc_subrel; [|by apply Hconn]. intros x y.
    by apply passage_same_walls.
  - intros l Hl. apply (Hac l). eapply cycle_impl; [|done].
    intros a b. by apply passage_same_walls.
Qed.

Lemma tree_inv_upd m g p c f :
  tree_inv m g p → inb m c →
  (∀ x d, wall d (f x) = wall d x) → (∀ x, visited (f x) = visited x) →
  tree_inv m (upd g c f) p.
Proof.
  intros Hinv Hc Hw Hv. pose proof (ti_wf _ _ _ Hinv) as Hwf.
  eapply tree_inv_same; [done|by apply wf_upd|..].
  - intros c' d Hc'. rewrite (cell_upd m) by done. case_decide; by rewrite ?Hw.
  - intros c' Hc'. unfold reached. rewrite (cell_upd m) by done.
    case_decide; by rewrite ?Hv.
Qed.

Lemma tree_inv_mark m g b :
  tree_inv m g (Some b) → inb m b →
  tree_inv m (upd g b (with_visited true)) None.
Proof.
  intros Hinv Hb. pose proof (ti_wf _ _ _ Hinv) as Hwf.
  eapply tree_inv_same; [done|by apply wf_upd|..].
  - intros c' d Hc'. rewrite (cell_upd m) by done. case_decide; [|done].
    by destruct d.
  - intros c' Hc'. unfold reached. rewrite (cell_upd m) by done.
    case_decide as E; simpl.
    + subst. split; auto.
    + split; intros [?|?]; try (by left); congruence.
Qed.

Lemma tree_inv_remark m g b :
  tree_inv m g None → inb m b → visited (cell g b) = true →
  tree_inv m (upd g b (with_visited true)) None.
Proof.
  intros Hinv Hb Hv. pose proof (ti_wf _ _ _ Hinv) as Hwf.
  eapply tree_inv_same; [done|by apply wf_upd|..].
  - intros c' d Hc'. rewrite (cell_upd m) by done. case_decide; [|done].
    by destruct d.
  - intros c' Hc'. unfold reached. rewrite (cell_upd m) by done.
    case_decide as E; simpl; [|done]. subst. by rewrite Hv.
Qed.

(** ** Carving a passage *)

Section carve.
Context (m : Maze) (g : Grid) (a : Z * Z) (d : dir).
Hypothesis Hwf : wf m g.
Hypothesis Ha : inb m a.
Hypothesis Hb : inb m (step d a).

Lemma wf_carve : wf m (carve g a d).
Proof. unfold carve. by do 2 apply wf_upd. Qed.

Lemma cell_carve c :
  inb m c →
  cell (carve g a d) c =
    if decide (c = a) then clear d (cell g c)
    else if decide (c = step d a) then clear (opp d) (cell g c)
    else cell g c.
Proof.
  intros Hc. unfold carve.
  rewrite (cell_upd m) by (done || by apply wf_upd).
  rewrite (cell_upd m) by done.
  pose proof (step_ne d a) as Hne.
  repeat case_decide; congruence.
Qed.

Lemma wall_carve c d' :
  inb m c →
  wall d' (cell (carve g a d) c) =
    if decide ((c = a ∧ d' = d) ∨ (c = step d a ∧ d' = opp d)) then false
    else wall d' (cell g c).
Proof.
  intros Hc. rewrite cell_carve by done.
  pose proof (step_ne d a) as Hne.
  destruct (decide (c = a)) as [->|Hca]; [|destruct (decide (c = step d a)) as [->|Hcb]];
    rewrite ?wall_clear.
  - destruct (decide (d' = d)) as [->|Hd].
    + by rewrite decide_True by auto.
    + rewrite decide_False; [done|]. intros [[_ ?]|[? _]]; congruence.
  - destruct (decide (d' = opp d)) as [->|Hd].
    + by rewrite decide_True by auto.
    + rewrite decide_False; [done|]. intros [[? _]|[_ ?]]; congruence.
  - rewrite decide_False; [done|]. intros [[? _]|[? _]]; congruence.
Qed.

Lemma visited_carve c : inb m c → visited (cell (carve g a d) c) = visited (cell g c).
Proof.
  intros Hc. rewrite cell_carve by done.
  repeat case_decide; by rewrite ?visited_clear.
Qed.

Lemma valid_dirs_carve c :
  inb m c → valid_dirs (cell (carve g a d) c) = valid_dirs (cell g c).
Proof.
  intros Hc. rewrite cell_carve by done.
  repeat case_decide; by rewrite ?valid_dirs_clear.
Qed.

Lemma carve_cond c d' :
  (c = a ∧ d' = d) ∨ (c = step d a ∧ d' = opp d) ↔
  (step d' c = a ∧ opp d' = d) ∨ (step d' c = step d a ∧ opp d' = opp d).
Proof.
  split.
  - intros [[-> ->]|[-> ->]]; [by right|left]. by rewrite step_opp, opp_opp.
  - intros [[<- <-]|[E1 E2]].
    + right. by rewrite step_opp, opp_opp.
    + assert (d' = d) as -> by (by rewrite <- (opp_opp d'), E2, opp_opp).
      left. split; [|done].
      by rewrite <- (step_opp d c), E1, step_opp.
Qed.

Lemma agree_carve : agree m g → agree m (carve g a d).
Proof.
  intros Hag c d' Hc Hs. rewrite !wall_carve by done.
  destruct (decide ((c = a ∧ d' = d) ∨ (c = step d a ∧ d' = opp d))) as [H|H].
  - rewrite decide_True; [done|]. by apply carve_cond in H.
  - rewrite decide_False; [by apply Hag|]. by rewrite <- carve_cond.
Qed.

Lemma border_carve : border_ok m g → border_ok m (carve g a d).
Proof.
  intros Hbo c d' Hc Hs. rewrite wall_carve by done.
  case_decide as H; [|by apply Hbo].
  destruct H as [[-> ->]|[-> ->]]; [done|]. by rewrite step_opp in Hs.
Qed.

Hypothesis Hinv : tree_inv m g None.
Hypothesis Hva : visited (cell g a) = true.
Hypothesis Hvb : visited (cell g (step d a)) = false.

Lemma closed_wall_carve : wall d (cell g a) = true.
Proof.
  destruct (wall d (cell g a)) eqn:E; [done|].
  destruct (ti_ends _ _ _ Hinv a d Ha Hb E) as [_ [H|H]]; congruence.
Qed.

Lemma passage_carve x y :
  passage m (carve g a d) x y ↔
  passage m g x y ∨ (x = a ∧ y = step d a) ∨ (x = step d a ∧ y = a).
Proof.
  pose proof (ti_agree _ _ _ Hinv) as Hag.
  rewrite !passage_agree by (done || by apply agree_carve). split.
  - intros (Hx & Hy & d' & -> & Hw). rewrite wall_carve in Hw by done.
    case_decide as H.
    + destruct H as [[-> ->]|[-> ->]]; [by right; left|right; right].
      by rewrite step_opp.
    + left. eauto 10.
  - intros [(Hx & Hy & d' & -> & Hw)|[[-> ->]|[-> ->]]].
    + split_and!; [done..|]. exists d'. split; [done|].
      rewrite wall_carve by done. by case_decide.
    + split_and!; [done..|]. exists d. split; [done|].
      rewrite wall_carve by done. by rewrite decide_True by auto.
    + split_and!; [done..|]. exists (opp d). rewrite step_opp. split; [done|].
      rewrite wall_carve by done. by rewrite decide_True by auto.
Qed.

Lemma edge_of_elem : edge_of a d ∈ edges m.
Proof.
  assert (Hback : inb m (step (opp d) (step d a))) by (by rewrite step_opp).
  destruct d; apply elem_of_edges; auto.
Qed.

Lemma edge_of_cond c d' :
  d' = Right ∨ d' = Down →
  (c = a ∧ d' = d) ∨ (c = step d a ∧ d' = opp d) ↔ (c, d') = edge_of a d.
Proof.
  intros Hd. split.
  - intros [[-> ->]|[-> ->]]; destruct d; simpl in *; destruct Hd; done.
  - destruct d; simpl; intros [= -> ->]; auto.
Qed.

Lemma edge_of_spec :
  ∃ c d', edge_of a d = (c, d') ∧ inb m c ∧ inb m (step d' c) ∧
          ((c = a ∧ d' = d) ∨ (c = step d a ∧ d' = opp d)).
Proof.
  assert (Hback : inb m (step (opp d) (step d a))) by (by rewrite step_opp).
  destruct d; simpl; eauto 10.
Qed.

Lemma passages_carve :
  length (passages m (carve g a d)) = S (length (passages m g)).
Proof.
  pose proof (ti_agree _ _ _ Hinv) as Hag.
  pose proof (agree_carve Hag) as Hag'.
  pose proof closed_wall_carve as Hcl.
  destruct edge_of_spec as (c0 & d0 & He0 & Hc0 & Hs0 & Hcond).
  unfold passages.
  apply (filter_length_succ _ _ _ (edge_of a d));
    [apply NoDup_edges|apply edge_of_elem|..].
  - rewrite He0, (openb_agree m) by done.
    destruct Hcond as [[-> ->]|[-> ->]]; [by rewrite Hcl|].
    rewrite (Hag (step d a) (opp d)), step_opp, opp_opp, Hcl; [done..|].
    by rewrite step_opp.
  - rewrite He0, (openb_agree m), wall_carve by done.
    by rewrite decide_True.
  - intros [c d'] He Hne. apply elem_of_edges in He as (Hc & Hs & Hd).
    rewrite !(openb_agree m), wall_carve by done.
    rewrite decide_False; [done|]. by rewrite edge_of_cond.
Qed.

Lemma reached_carve c :
  inb m c → reached (carve g a d) (Some (step d a)) c ↔
            reached g None c ∨ c = step d a.
Proof.
  intros Hc. unfold reached. rewrite visited_carve by done. split.
  - intros [?|[= ->]]; auto.
  - intros [[?|[=]]| ->]; auto.
Qed.

Lemma tree_inv_carve : tree_inv m (carve g a d) (Some (step d a)).
Proof.
  pose proof Hinv as [_ Hag Hends Hcount Hconn Hac].
  assert (Hnb : ¬ reached g None (step d a)).
  { intros [H|H]; congruence. }
  split.
  - apply wf_carve.
  - by apply agree_carve.
  - intros c d' Hc Hs Hw. rewrite !reached_carve by done.
    rewrite wall_carve in Hw by done. case_decide as H.
    + destruct H as [[-> ->]|[-> ->]].
      * split; [left; by left|by right].
      * rewrite step_opp. split; [by right|left; by left].
    + destruct (Hends c d' Hc Hs Hw). auto.
  - rewrite passages_carve, <- Hcount.
    apply (filter_length_succ _ _ _ (step d a));
      [apply NoDup_all_cells|by apply elem_of_all_cells|done|..].
    + apply reached_carve; auto.
    + intros y Hy Hne. apply elem_of_all_cells in Hy.
      rewrite reached_carve by done. split; [auto|]. by intros [?|?].
  - intros c Hc Hr. apply reached_carve in Hr; [|done]. destruct Hr as [Hr| ->].
    + eapply rtc_subrel; [|by apply Hconn]. intros x y Hxy.
      apply passage_carve. by left.
    + eapply rtc_r.
      * eapply rtc_subrel; [|apply (Hconn a Ha); by left]. intros x y Hxy.
        apply passage_carve. by left.
      * apply passage_carve. right. by left.
  - eapply (acyclic_extend (passage m g) _ (reached g None) a (step d a));
      [apply passage_sym| |done| |done].
    + intros x y Hxy. apply passage_agree in Hxy as (Hx & Hy & d' & -> & Hw);
        [|done]. by apply Hends.
    + intros x y. apply passage_carve.
Qed.

End carve.

(** ** Steps of the program *)

Lemma keeps_refl s : keeps s s.
Proof. by split. Qed.

Lemma keeps_trans s1 s2 s3 : keeps s1 s2 → keeps s2 s3 → keeps s1 s3.
Proof. intros [H1 H2] [H3 H4]. split; [congruence|]. by rewrite H4. Qed.

Lemma keeps_set_cells g s : keeps s (set_cells g s).
Proof. by split. Qed.

Lemma draw_line_ok l col s :
  is_Some (win s) →
  ∃ w, draw_line l col s = Ok (tt, set_win (Some w) s).
Proof. intros [w Hw]. unfold draw_line. rewrite Hw. eauto. Qed.

Lemma has_window_ok s : has_window s = Ok (bool_decide (is_Some (win s)), s).
Proof. done. Qed.

Lemma Cell_draw_ok m s i j a1 b1 a2 b2 :
  wf m (cells s) → inb m (i, j) →
  ∃ s', Cell_draw i j a1 b1 a2 b2 s = Ok (tt, s') ∧
    cells s' = upd (cells s) (i, j) (with_coords a1 b1 a2 b2) ∧
    wall_log s' = wall_log s ∧ random s' = random s ∧ keeps s s'.
Proof.
  intros Hwf Hin. unfold Cell_draw.
  set (s1 := set_cells (upd (cells s) (i, j) (with_coords a1 b1 a2 b2)) s).
  assert (Hwf1 : wf m (cells s1)) by (by apply wf_upd).
  rewrite (bind_ok _ _ _ _ _ (update_cell_ok m s i j _ Hwf Hin)). fold s1.
  rewrite (bind_ok _ _ _ _ _ (has_window_ok s1)).
  case_bool_decide as Hw.
  - rewrite (bind_ok _ _ _ _ _ (get_cell_ok m s1 i j Hwf1 Hin)).
    destruct Hw as [w Hw]. change (win s = Some w) in Hw.
    unfold bind, draw_line. simpl. rewrite Hw. simpl.
    eexists. split; [done|]. simpl. split_and!; try done.
  - exists s1. split; [done|]. split_and!; try done.
Qed.

Lemma animate_ok s : is_Some (win s) → animate s = Ok (tt, s).
Proof. intros [w Hw]. unfold animate. by rewrite Hw. Qed.

Lemma draw_cell_ok m s i j :
  wf m (cells s) → inb m (i, j) →
  ∃ s' a1 b1 a2 b2, draw_cell m i j s = Ok (tt, s') ∧
    cells s' = upd (cells s) (i, j) (with_coords a1 b1 a2 b2) ∧
    wall_log s' = wall_log s ∧ random s' = random s ∧ keeps s s'.
Proof.
  intros Hwf Hin. unfold draw_cell.
  edestruct (Cell_draw_ok m s i j) as (s' & Hd & Hc & Hl & Hr & Hk); [done..|].
  rewrite (bind_ok _ _ _ _ _ Hd).
  rewrite (bind_ok _ _ _ _ _ (has_window_ok s')).
  exists s'. do 4 eexists. split; [|done].
  case_bool_decide; try done. by apply animate_ok.
Qed.

Lemma randbelow_ok n s :
  ∃ k s', randbelow n s = Ok (k, s') ∧ (0 < n → k < n)%nat ∧
    cells s' = cells s ∧ wall_log s' = wall_log s ∧ keeps s s'.
Proof.
  unfold randbelow. destruct (random s) as [|r rs].
  - exists 0%nat, s. split_and!; try done; try apply keeps_refl.
  - exists (r `mod` n)%nat, (set_random rs s). split_and!; try done.
    intros Hn. apply Nat.mod_upper_bound. lia.
Qed.

Lemma choice_ok {A} (l : list A) s :
  l ≠ [] →
  ∃ x s', choice l s = Ok (x, s') ∧ x ∈ l ∧
    cells s' = cells s ∧ wall_log s' = wall_log s ∧ keeps s s'.
Proof.
  intros Hl. unfold choice.
  destruct (randbelow_ok (length l) s) as (k & s' & Hr & Hk & Hc & Hw & Hkeep).
  rewrite (bind_ok _ _ _ _ _ Hr).
  assert (Hlt : (k < length l)%nat) by (apply Hk; destruct l; [done|simpl; lia]).
  destruct (lookup_lt_is_Some_2 l k Hlt) as [x Hx]. rewrite Hx.
  exists x, s'. split_and!; try done. by eapply list_elem_of_lookup_2.
Qed.

Lemma swap_perm {A} i j (x : list A) : swap i j x ≡ₚ x.
Proof.
  unfold swap. destruct (x !! i) as [a|] eqn:Ha; [|done].
  destruct (x !! j) as [b|] eqn:Hb; [|done].
  destruct (decide (i = j)) as [->|Hne].
  - assert (a = b) as -> by congruence.
    rewrite list_insert_insert_eq, list_insert_id; done.
  - symmetry. apply Permutation_inj.
    rewrite !length_insert. split; [done|].
    pose proof (lookup_lt_Some _ _ _ Ha) as Hi.
    pose proof (lookup_lt_Some _ _ _ Hb) as Hj.
    exists (λ k, if decide (k = i) then j else if decide (k = j) then i else k).
    split.
    + intros k1 k2. repeat case_decide; congruence.
    + intros k. repeat case_decide; subst.
      * by rewrite list_lookup_insert_eq by (by rewrite length_insert).
      * rewrite list_lookup_insert_ne, list_lookup_insert_eq by done. done.
      * by rewrite !list_lookup_insert_ne by done.
Qed.

Lemma shuffle_from_ok {A} n (l : list A) s :
  ∃ l' s', shuffle_from n l s = Ok (l', s') ∧ l' ≡ₚ l ∧
    cells s' = cells s ∧ wall_log s' = wall_log s ∧ keeps s s'.
Proof.
  revert l s. induction n as [|n IH]; intros l s; simpl.
  - exists l, s. split_and!; try done; try apply keeps_refl.
  - destruct (randbelow_ok (S (S n)) s) as (k & s1 & Hr & _ & Hc & Hw & Hk).
    rewrite (bind_ok _ _ _ _ _ Hr).
    destruct (IH (swap (S n) k l) s1) as (l' & s' & Hs & Hp & Hc' & Hw' & Hk').
    exists l', s'. split_and!; [done|..|congruence|congruence|].
    + by rewrite Hp, swap_perm.
    + by eapply keeps_trans.
Qed.

Lemma shuffle_ok {A} (l : list A) s :
  ∃ l' s', shuffle l s = Ok (l', s') ∧ l' ≡ₚ l ∧
    cells s' = cells s ∧ wall_log s' = wall_log s ∧ keeps s s'.
Proof. apply shuffle_from_ok. Qed.

(** ** Looking for unvisited neighbours *)

Lemma allowed_inb large m d c : inb m c → allowed large m d c → inb m (step d c).
Proof.
  destruct c as [i j]. intros [H1 H2]. unfold allowed, inb.
  destruct d, large; simpl in *; lia.
Qed.

Lemma guarded_unvisited m s (b : bool) i j :
  wf m (cells s) → (b = true → inb m (i, j)) →
  (ret b &&& unvisited i j) s
  = Ok (b && negb (visited (cell (cells s) (i, j))), s).
Proof.
  intros Hwf Hin. unfold and_then, unvisited, attr.
  rewrite (bind_ok _ _ s b s) by done. destruct b; [|done].
  by rewrite (bind_ok _ _ _ _ _ (get_cell_ok m s i j Hwf (Hin eq_refl))).
Qed.

Lemma append_if_ok (c : M bool) x l s b :
  c s = Ok (b, s) → append_if c x l s = Ok (if b then l ++ [x] else l, s).
Proof. intros H. unfold append_if. by rewrite (bind_ok _ _ _ _ _ H). Qed.

Lemma append_candidate large m g c d l (b : bool) :
  (b = true ↔ allowed large m d c) →
  (if b && negb (visited (cell g (step d c))) then l ++ [step d c] else l)
  = l ++ candidate large m g c d.
Proof.
  intros Hb. unfold candidate.
  destruct b.
  - rewrite bool_decide_true by (by apply Hb). simpl.
    by destruct (visited _); rewrite ?app_nil_r.
  - rewrite bool_decide_false; [by rewrite app_nil_r|].
    intros H. by apply Hb in H.
Qed.

Lemma need_to_visit_ok m s i j :
  wf m (cells s) → inb m (i, j) →
  need_to_visit m i j s = Ok (candidates false m (cells s) (i, j), s).
Proof.
  intros Hwf Hin. pose proof Hin as [Hi Hj]. simpl in *.
  unfold need_to_visit.
  rewrite (bind_ok _ _ _ _ _ (append_if_ok _ _ _ _ _
    (guarded_unvisited m s (i - 1 >? 0) (i - 1) j Hwf ltac:(split; simpl; lia)))).
  rewrite (bind_ok _ _ _ _ _ (append_if_ok _ _ _ _ _
    (guarded_unvisited m s (i + 1 <? num_cols m) (i + 1) j Hwf ltac:(split; simpl; lia)))).
  rewrite (bind_ok _ _ _ _ _ (append_if_ok _ _ _ _ _
    (guarded_unvisited m s (j - 1 >? 0) i (j - 1) Hwf ltac:(split; simpl; lia)))).
  rewrite (append_if_ok _ _ _ _ _
    (guarded_unvisited m s (j + 1 <? num_rows m) i (j + 1) Hwf ltac:(split; simpl; lia))).
  do 2 f_equal.
  rewrite (append_candidate false m (cells s) (i, j) Left) by (simpl; lia).
  rewrite (append_candidate false m (cells s) (i, j) Right) by (simpl; lia).
  rewrite (append_candidate false m (cells s) (i, j) Up) by (simpl; lia).
  rewrite (append_candidate false m (cells s) (i, j) Down) by (simpl; lia).
  unfold candidates. by rewrite <- !app_assoc.
Qed.

Lemma indexes_to_visit_ok m s i j :
  wf m (cells s) → inb m (i, j) →
  indexes_to_visit m i j s = Ok (candidates true m (cells s) (i, j), s).
Proof.
  intros Hwf Hin. pose proof Hin as [Hi Hj]. simpl in *.
  unfold indexes_to_visit.
  rewrite (bind_ok _ _ _ _ _ (append_if_ok _ _ _ _ _
    (guarded_unvisited m s (i - 1 >=? 0) (i - 1) j Hwf ltac:(split; simpl; lia)))).
  rewrite (bind_ok _ _ _ _ _ (append_if_ok _ _ _ _ _
    (guarded_unvisited m s (i + 1 <? num_cols m) (i + 1) j Hwf ltac:(split; simpl; lia)))).
  rewrite (bind_ok _ _ _ _ _ (append_if_ok _ _ _ _ _
    (guarded_unvisited m s (j - 1 >=? 0) i (j - 1) Hwf ltac:(split; simpl; lia)))).
  rewrite (append_if_ok _ _ _ _ _
    (guarded_unvisited m s (j + 1 <? num_rows m) i (j + 1) Hwf ltac:(split; simpl; lia))).
  do 2 f_equal.
  rewrite (append_candidate true m (cells s) (i, j) Left) by (simpl; lia).
  rewrite (append_candidate true m (cells s) (i, j) Right) by (simpl; lia).
  rewrite (append_candidate true m (cells s) (i, j) Up) by (simpl; lia).
  rewrite (append_candidate true m (cells s) (i, j) Down) by (simpl; lia).
  unfold candidates. by rewrite <- !app_assoc.
Qed.

Lemma elem_of_candidate large m g c d x :
  x ∈ candidate large m g c d ↔
  x = step d c ∧ allowed large m d c ∧ visited (cell g x) = false.
Proof.
  unfold candidate. case_bool_decide as Ha; simpl.
  - destruct (visited (cell g (step d c))) eqn:Hv; simpl.
    + rewrite elem_of_nil. split; [done|]. intros (-> & _ & ?). congruence.
    + rewrite list_elem_of_singleton. split; [by intros ->|by intros [? _]].
  - rewrite elem_of_nil. split; [done|]. by intros (_ & ? & _).
Qed.

Lemma elem_of_candidates large m g c x :
  x ∈ candidates large m g c ↔
  ∃ d, x = step d c ∧ allowed large m d c ∧ visited (cell g x) = false.
Proof.
  unfold candidates. rewrite !elem_of_app, !elem_of_candidate. split.
  - intros [?|[?|[?|?]]]; eauto.
  - intros ([] & ?); auto.
Qed.

Lemma NoDup_candidate large m g c d : NoDup (candidate large m g c d).
Proof.
  unfold candidate. destruct (_ && _); [apply NoDup_singleton|apply NoDup_nil_2].
Qed.

Lemma NoDup_candidates large m g c : NoDup (candidates large m g c).
Proof.
  unfold candidates.
  repeat (apply NoDup_app; split_and!; [apply NoDup_candidate| |]);
    [..|apply NoDup_candidate];
    intros x Hx; rewrite ?elem_of_app, !elem_of_candidate;
    apply elem_of_candidate in Hx as (-> & _ & _);
    intros H; repeat destruct H as [H|H]; destruct H as (H & _);
    by apply step_inj in H.
Qed.

Lemma candidates_nil large m g c :
  candidates large m g c = [] ↔ closed large m g c.
Proof.
  split.
  - intros H d Hd. destruct (visited (cell g (step d c))) eqn:Hv; [done|].
    assert (Hin : step d c ∈ candidates large m g c).
    { apply elem_of_candidates. eauto. }
    rewrite H in Hin. by apply elem_of_nil in Hin.
  - intros H. destruct (candidates large m g c) as [|x l] eqn:E; [done|].
    assert (Hin : x ∈ candidates large m g c) by (rewrite E; left).
    apply elem_of_candidates in Hin as (d & -> & Hd & Hv).
    rewrite H in Hv; done.
Qed.

(** ** Connecting two cells *)

Ltac decide_tests :=
  repeat match goal with
  | |- context [?a >? ?b] => rewrite (Z.gtb_ltb a b)
  | |- context [?a <? ?b] => destruct (Z.ltb_spec a b); try lia
  end.

Lemma update2_ok m s c1 f1 c2 f2 :
  wf m (cells s) → inb m c1 → inb m c2 →
  (update_cell c1.1 c1.2 f1;; update_cell c2.1 c2.2 f2)%M s
  = Ok (tt, set_cells (upd (upd (cells s) c1 f1) c2 f2) s).
Proof.
  intros Hwf H1 H2. destruct c1 as [i1 j1], c2 as [i2 j2]. simpl.
  rewrite (bind_ok _ _ _ _ _ (update_cell_ok m s i1 j1 f1 Hwf H1)).
  rewrite (update_cell_ok m) by (done || by apply wf_upd). done.
Qed.

Lemma connect_r_eq i j d s :
  connect_r i j (step d (i, j)).1 (step d (i, j)).2 s =
  (update_cell i j (clear d);;
   update_cell (step d (i, j)).1 (step d (i, j)).2 (clear (opp d));;
   log_walls)%M s.
Proof. unfold connect_r. destruct d; simpl; by decide_tests. Qed.

Lemma connect_l_eq i j d s :
  connect_l i j (step d (i, j)).1 (step d (i, j)).2 s =
  (update_cell i j (clear d);;
   update_cell (step d (i, j)).1 (step d (i, j)).2 (clear (opp d));;
   log_walls;;
   set_dirs i j (key d) (step d (i, j)).1 (step d (i, j)).2 (key (opp d)) true)%M s.
Proof. unfold connect_l. destruct d; simpl; by decide_tests. Qed.

Lemma connect_r_ok m s a d :
  wf m (cells s) → inb m a → inb m (step d a) →
  connect_r a.1 a.2 (step d a).1 (step d a).2 s
  = Ok (tt, mkState (carve (cells s) a d) (win s) (random s)
                    (carve (cells s) a d :: wall_log s) (moves s)).
Proof.
  intros Hwf Ha Hb. destruct a as [i j]. simpl fst. simpl snd.
  rewrite connect_r_eq. unfold carve.
  rewrite (bind_ok _ _ _ _ _ (update_cell_ok m s i j _ Hwf Ha)).
  destruct (step d (i, j)) as [i' j'] eqn:E. simpl fst. simpl snd.
  erewrite bind_ok; [|apply (update_cell_ok m); [by apply wf_upd|done]].
  reflexivity.
Qed.

Lemma connect_l_ok m s a d :
  wf m (cells s) → inb m a → inb m (step d a) →
  connect_l a.1 a.2 (step d a).1 (step d a).2 s
  = Ok (tt, mkState (carve_l (cells s) a d) (win s) (random s)
                    (carve (cells s) a d :: wall_log s) (moves s)).
Proof.
  intros Hwf Ha Hb. destruct a as [i j]. simpl fst. simpl snd.
  rewrite connect_l_eq. unfold carve_l, carve, set_dirs.
  rewrite (bind_ok _ _ _ _ _ (update_cell_ok m s i j _ Hwf Ha)).
  destruct (step d (i, j)) as [i' j'] eqn:E. simpl fst. simpl snd.
  erewrite bind_ok; [|apply (update_cell_ok m); [by apply wf_upd|done]].
  erewrite bind_ok; [|reflexivity].
  erewrite bind_ok;
    [|apply (update_cell_ok m); [by do 2 apply wf_upd|done]].
  erewrite (update_cell_ok m); [reflexivity|by do 3 apply wf_upd|done].
Qed.

(** ** The invariant along the steps of the carvers *)

Lemma gen_inv_ext large m s s' p :
  cells s' = cells s → wall_log s' = wall_log s →
  gen_inv large m s p → gen_inv large m s' p.
Proof. intros Hc Hl [H1 H2 H3 H4 H5 H6 H7]. split; by rewrite ?Hc, ?Hl. Qed.

Lemma dirs_ok_same large m g g' :
  (∀ c d, inb m c → wall d (cell g' c) = wall d (cell g c)) →
  (∀ c, inb m c → valid_dirs (cell g' c) = valid_dirs (cell g c)) →
  dirs_ok large m g → dirs_ok large m g'.
Proof.
  intros Hw Hv. destruct large; simpl.
  - intros H c d Hc Hs Hwall. rewrite Hv by done. apply H; [done..|].
    by rewrite <- Hw.
  - intros H c Hc. rewrite Hv by done. by apply H.
Qed.

Lemma border_ok_same m g g' :
  (∀ c d, inb m c → wall d (cell g' c) = wall d (cell g c)) →
  border_ok m g → border_ok m g'.
Proof. intros Hw H c d Hc Hs Hwall. apply H; [done..|]. by rewrite <- Hw. Qed.

(** Updates of a cell that keep its walls and markers. *)
Lemma gen_inv_upd large m s s' p p' c f :
  gen_inv large m s p → inb m c →
  cells s' = upd (cells s) c f → wall_log s' = wall_log s →
  (∀ x d, wall d (f x) = wall d x) →
  (∀ x, valid_dirs (f x) = valid_dirs x) →
  tree_inv m (cells s') p' →
  gen_inv large m s' p'.
Proof.
  intros [Ht Hl Hd Hb Hn Hen Hex] Hc Hcells Hlog Hw Hv Ht'.
  pose proof (ti_wf _ _ _ Ht) as Hwf.
  assert (Hw' : ∀ c' d, inb m c' →
            wall d (cell (cells s') c') = wall d (cell (cells s) c')).
  { intros c' d Hc'. rewrite Hcells, (cell_upd m) by done.
    case_decide; by rewrite ?Hw. }
  split; [done|by rewrite Hlog|..].
  - eapply dirs_ok_same; [done| |done].
    intros c' Hc'. rewrite Hcells, (cell_upd m) by done.
    case_decide; by rewrite ?Hv.
  - by eapply border_ok_same.
  - by rewrite Hlog, (passages_same_walls m (cells s)).
  - intros H0. rewrite <- (Hen H0). by apply (Hw' (0, 0) Up).
  - intros H0. rewrite <- (Hex H0). by apply (Hw' _ Down).
Qed.

Lemma gen_inv_coords large m s s' p c a1 b1 a2 b2 :
  gen_inv large m s p → inb m c →
  cells s' = upd (cells s) c (with_coords a1 b1 a2 b2) →
  wall_log s' = wall_log s →
  gen_inv large m s' p.
Proof.
  intros Hinv Hc Hcells Hlog.
  eapply gen_inv_upd; [done..| | |].
  - intros x d. by destruct d.
  - done.
  - rewrite Hcells. apply tree_inv_upd; [apply Hinv|done|..].
    + intros x d. by destruct d.
    + done.
Qed.

Lemma gen_inv_mark large m s s' b :
  gen_inv large m s (Some b) → inb m b →
  cells s' = upd (cells s) b (with_visited true) →
  wall_log s' = wall_log s →
  gen_inv large m s' None.
Proof.
  intros Hinv Hc Hcells Hlog.
  eapply gen_inv_upd; [done..| | |].
  - intros x d. by destruct d.
  - done.
  - rewrite Hcells. apply tree_inv_mark; [apply Hinv|done].
Qed.

Lemma gen_inv_remark large m s s' b :
  gen_inv large m s None → inb m b → visited (cell (cells s) b) = true →
  cells s' = upd (cells s) b (with_visited true) →
  wall_log s' = wall_log s →
  gen_inv large m s' None.
Proof.
  intros Hinv Hc Hv Hcells Hlog.
  eapply gen_inv_upd; [done..| | |].
  - intros x d. by destruct d.
  - done.
  - rewrite Hcells. apply tree_inv_remark; [apply Hinv|done..].
Qed.

Lemma gen_inv_carve m s s' a d :
  gen_inv false m s None → inb m a → inb m (step d a) →
  visited (cell (cells s) a) = true →
  visited (cell (cells s) (step d a)) = false →
  cells s' = carve (cells s) a d →
  wall_log s' = carve (cells s) a d :: wall_log s →
  gen_inv false m s' (Some (step d a)).
Proof.
  intros [Ht Hl Hd Hbo Hn Hen Hex] Ha Hb Hva Hvb Hcells Hlog.
  pose proof (ti_wf _ _ _ Ht) as Hwf.
  split; rewrite ?Hcells, ?Hlog.
  - by apply tree_inv_carve.
  - constructor; [|done]. apply agree_consistent, agree_carve; [done..|].
    apply Ht.
  - intros c Hc. rewrite (valid_dirs_carve m) by done. by apply Hd.
  - by apply border_carve.
  - simpl. by rewrite (passages_carve m), Hn.
  - intros H0. pose proof (wall_carve m _ a d Hwf Ha Hb (0, 0) Up H0) as H.
    simpl in H. rewrite H. case_decide; [done|by apply Hen].
  - intros H0. pose proof (wall_carve m _ a d Hwf Ha Hb _ Down H0) as H.
    simpl in H. rewrite H. case_decide; [done|by apply Hex].
Qed.

Lemma cell_carve_l m g a d c :
  wf m g → inb m a → inb m (step d a) → inb m c →
  cell (carve_l g a d) c =
    if decide (c = a) then with_dir (key d) true (cell (carve g a d) c)
    else if decide (c = step d a)
         then with_dir (key (opp d)) true (cell (carve g a d) c)
    else cell (carve g a d) c.
Proof.
  intros Hwf Ha Hb Hc. unfold carve_l.
  pose proof (wf_carve m g a d Hwf) as Hwf'.
  rewrite (cell_upd m) by (done || by apply wf_upd).
  rewrite (cell_upd m) by done.
  pose proof (step_ne d a) as Hne.
  repeat case_decide; congruence.
Qed.

Lemma gen_inv_carve_l m s s' a d :
  gen_inv true m s None → inb m a → inb m (step d a) →
  visited (cell (cells s) a) = true →
  visited (cell (cells s) (step d a)) = false →
  cells s' = carve_l (cells s) a d →
  wall_log s' = carve (cells s) a d :: wall_log s →
  gen_inv true m s' (Some (step d a)).
Proof.
  intros [Ht Hl Hd Hbo Hn Hen Hex] Ha Hb Hva Hvb Hcells Hlog.
  pose proof (ti_wf _ _ _ Ht) as Hwf.
  pose proof (wf_carve m _ a d Hwf) as Hwf'.
  assert (Hw : ∀ c d', inb m c →
    wall d' (cell (carve_l (cells s) a d) c)
    = wall d' (cell (carve (cells s) a d) c)).
  { intros c d' Hc. rewrite (cell_carve_l m) by done.
    repeat case_decide; by destruct d'. }
  assert (Hv : ∀ c, inb m c →
    visited (cell (carve_l (cells s) a d) c)
    = visited (cell (carve (cells s) a d) c)).
  { intros c Hc. rewrite (cell_carve_l m) by done. by repeat case_decide. }
  split; rewrite ?Hcells, ?Hlog.
  - eapply tree_inv_same; [by apply (tree_inv_carve m (cells s) a d)| |done|].
    + unfold carve_l. by do 2 apply wf_upd.
    + intros c Hc. unfold reached. by rewrite Hv.
  - constructor; [|done]. apply agree_consistent, agree_carve; [done..|].
    apply Ht.
  - intros c d' Hc Hs. rewrite Hw, (wall_carve m), (cell_carve_l m) by done.
    intros Hwall. case_decide as Hcond.
    + destruct Hcond as [[-> ->]|[-> ->]].
      * rewrite decide_True by done. simpl. by rewrite lookup_insert_eq.
      * rewrite decide_False, decide_True by (done || apply step_ne). simpl.
        by rewrite lookup_insert_eq.
    + assert (Hold : valid_dirs (cell (cells s) c) !! key d' = Some true)
        by (by apply Hd).
      repeat case_decide; simpl; rewrite ?(valid_dirs_carve m) by done;
        try done; rewrite lookup_insert; by case_decide.
  - eapply border_ok_same; [apply Hw|]. by apply border_carve.
  - simpl. rewrite (passages_same_walls m (carve (cells s) a d)) by done.
    by rewrite (passages_carve m), Hn.
  - intros H0. pose proof (Hw (0, 0) Up H0) as H. simpl in H. rewrite H.
    pose proof (wall_carve m _ a d Hwf Ha Hb (0, 0) Up H0) as H'.
    simpl in H'. rewrite H'. case_decide; [done|by apply Hen].
  - intros H0. pose proof (Hw _ Down H0) as H. simpl in H. rewrite H.
    pose proof (wall_carve m _ a d Hwf Ha Hb _ Down H0) as H'.
    simpl in H'. rewrite H'. case_decide; [done|by apply Hex].
Qed.

(** ** Counting unvisited cells *)

Lemma unvisited_count_same m g g' :
  (∀ c, inb m c → visited (cell g' c) = visited (cell g c)) →
  unvisited_count m g' = unvisited_count m g.
Proof.
  intros H. unfold unvisited_count. apply filter_length_same.
  intros c Hc. apply elem_of_all_cells in Hc. by rewrite H.
Qed.

Lemma unvisited_count_le m g g' :
  grows m g g' → (unvisited_count m g' ≤ unvisited_count m g)%nat.
Proof.
  intros H. unfold unvisited_count. apply filter_length_le.
  intros c Hc Hv. apply elem_of_all_cells in Hc.
  destruct (visited (cell g c)) eqn:E; [|done]. by rewrite H in Hv.
Qed.

Lemma unvisited_count_lt m g g' b :
  grows m g g' → inb m b →
  visited (cell g b) = false → visited (cell g' b) = true →
  (unvisited_count m g' < unvisited_count m g)%nat.
Proof.
  intros H Hb Hv Hv'. unfold unvisited_count.
  apply (filter_length_lt _ _ _ b); [by apply elem_of_all_cells|congruence|done|].
  intros c Hc Hvc. apply elem_of_all_cells in Hc.
  destruct (visited (cell g c)) eqn:E; [|done]. by rewrite H in Hvc.
Qed.

Lemma unvisited_count_total m g :
  (unvisited_count m g ≤ length (all_cells m))%nat.
Proof. apply length_filter. Qed.

Lemma grows_refl m g : grows m g g.
Proof. by intros c. Qed.

Lemma grows_trans m g1 g2 g3 : grows m g1 g2 → grows m g2 g3 → grows m g1 g3.
Proof. intros H1 H2 c Hc Hv. by apply H2, H1. Qed.

Lemma grows_same m g g' :
  (∀ c, inb m c → visited (cell g' c) = visited (cell g c)) → grows m g g'.
Proof. intros H c Hc Hv. by rewrite H. Qed.

Lemma closed_grows large m g g' c :
  inb m c → grows m g g' → closed large m g c → closed large m g' c.
Proof.
  intros Hc Hg H d Hd. apply Hg; [by eapply allowed_inb|by apply H].
Qed.

Lemma visited_upd_coords m g c c' a1 b1 a2 b2 :
  wf m g → inb m c → inb m c' →
  visited (cell (upd g c (with_coords a1 b1 a2 b2)) c') = visited (cell g c').
Proof. intros. rewrite (cell_upd m) by done. by case_decide. Qed.

Lemma visited_upd_mark m g c c' :
  wf m g → inb m c → inb m c' →
  visited (cell (upd g c (with_visited true)) c')
  = if decide (c = c') then true else visited (cell g c').
Proof. intros. rewrite (cell_upd m) by done. by case_decide. Qed.

(** ** Every cell is reached *)

Lemma closed_covers large m g :
  (∀ c, inb m c → visited (cell g c) = true → closed large m g c) →
  visited (cell g (0, 0)) = true →
  ∀ c, inb m c → visited (cell g c) = true.
Proof.
  intros Hcl H0.
  assert (Hrow : ∀ i, 0 ≤ i → i < num_cols m → 0 < num_rows m →
            visited (cell g (i, 0)) = true).
  { intros i Hi. pattern i. apply natlike_ind; [done| |done].
    intros x Hx IH Hlt Hr.
    apply (Hcl (x, 0) ltac:(split; simpl; lia) (IH ltac:(lia) Hr) Right).
    simpl. lia. }
  intros [i j] [Hi Hj]. simpl in *.
  assert (Hcol : ∀ j, 0 ≤ j → j < num_rows m → visited (cell g (i, j)) = true).
  { intros j' Hj'. pattern j'. apply natlike_ind; [|  |done].
    - intros Hlt. apply Hrow; lia.
    - intros x Hx IH Hlt.
      apply (Hcl (i, x) ltac:(split; simpl; lia) (IH ltac:(lia)) Down).
      simpl. lia. }
  apply Hcol; lia.
Qed.

(** ** The small-grid carver *)

Lemma unvisited_count_pos m g a :
  inb m a → visited (cell g a) = false → (0 < unvisited_count m g)%nat.
Proof.
  intros Ha Hv. unfold unvisited_count.
  assert (H : a ∈ filter (λ c, visited (cell g c) = false) (all_cells m)).
  { apply list_elem_of_filter. split; [done|by apply elem_of_all_cells]. }
  destruct (filter _ _); [by apply elem_of_nil in H|simpl; lia].
Qed.

Lemma break_walls_r_S m fuel i j :
  break_walls_r m (S fuel) i j =
  (update_cell i j (with_visited true);; break_walls_r_while m fuel i j)%M.
Proof. done. Qed.

Lemma break_walls_r_while_S m fuel i j :
  break_walls_r_while m (S fuel) i j =
  (l ← need_to_visit m i j;
   match l with
   | [] => draw_cell m i j
   | _ :: _ =>
       '(next_index_i, next_index_j) ← choice l;
       connect_r i j next_index_i next_index_j;;
       draw_cell m i j;;
       draw_cell m next_index_i next_index_j;;
       break_walls_r m fuel next_index_i next_index_j;;
       break_walls_r_while m fuel i j
   end)%M.
Proof. done. Qed.

Lemma break_walls_r_ok m fuel :
  (∀ s a, gen_inv false m s (Some a) → inb m a →
     visited (cell (cells s) a) = false →
     (2 * unvisited_count m (cells s) ≤ fuel)%nat →
     ∃ s', break_walls_r m fuel a.1 a.2 s = Ok (tt, s') ∧
           carved false m s s' ∧ visited (cell (cells s') a) = true) ∧
  (∀ s a, gen_inv false m s None → inb m a →
     visited (cell (cells s) a) = true →
     (2 * unvisited_count m (cells s) + 1 ≤ fuel)%nat →
     ∃ s', break_walls_r_while m fuel a.1 a.2 s = Ok (tt, s') ∧
           carved false m s s' ∧ closed false m (cells s') a).
Proof.
  induction fuel as [|f [IH1 IH2]].
  { split; intros s a Hinv Ha Hv Hf; [|lia].
    pose proof (unvisited_count_pos m _ a Ha Hv). lia. }
  split; intros s [i j] Hinv Ha Hv Hf; simpl fst; simpl snd.
  - (* the function: mark the cell, then loop *)
    pose proof (ti_wf _ _ _ (gi_tree _ _ _ _ Hinv)) as Hwf.
    rewrite break_walls_r_S.
    set (s1 := set_cells (upd (cells s) (i, j) (with_visited true)) s).
    rewrite (bind_ok _ _ _ _ _ (update_cell_ok m s i j _ Hwf Ha)). fold s1.
    assert (Hinv1 : gen_inv false m s1 None) by (by eapply gen_inv_mark).
    assert (Hv1 : ∀ c, inb m c → visited (cell (cells s1) c)
                = if decide ((i, j) = c) then true else visited (cell (cells s) c)).
    { intros c Hc. by apply (visited_upd_mark m). }
    assert (Hg1 : grows m (cells s) (cells s1)).
    { intros c Hc Hvc. rewrite Hv1 by done. by case_decide. }
    assert (Hlt : (unvisited_count m (cells s1) < unvisited_count m (cells s))%nat).
    { apply (unvisited_count_lt m _ _ (i, j)); [done..|].
      rewrite Hv1 by done. by rewrite decide_True. }
    destruct (IH2 s1 (i, j)) as (s' & Hrun & [Hi' Hg' Hk' Hc'] & Hcl); [done..| |lia|].
    { rewrite Hv1 by done. by rewrite decide_True. }
    exists s'. split; [done|]. split; [split|].
    + done.
    + by eapply grows_trans.
    + eapply keeps_trans; [|done]. apply keeps_set_cells.
    + intros c Hc Hvc' Hvc. destruct (decide (c = (i, j))) as [->|Hne]; [done|].
      apply Hc'; [done..|]. rewrite Hv1 by done. by rewrite decide_False.
    + apply Hg'; [done|]. rewrite Hv1 by done. by rewrite decide_True.
  - (* the loop *)
    pose proof (ti_wf _ _ _ (gi_tree _ _ _ _ Hinv)) as Hwf.
    rewrite break_walls_r_while_S.
    rewrite (bind_ok _ _ _ _ _ (need_to_visit_ok m s i j Hwf Ha)).
    destruct (candidates false m (cells s) (i, j)) as [|x l] eqn:Hcand.
    + (* no unvisited neighbour: draw and return *)
      destruct (draw_cell_ok m s i j Hwf Ha)
        as (s' & a1 & b1 & a2 & b2 & Hrun & Hcells & Hlog & _ & Hk).
      assert (Hsame : ∀ c, inb m c →
                visited (cell (cells s') c) = visited (cell (cells s) c)).
      { intros c Hc. rewrite Hcells. by apply (visited_upd_coords m). }
      exists s'. split; [done|]. split; [split|].
      * by eapply gen_inv_coords.
      * by apply grows_same.
      * done.
      * intros c Hc Hvc' Hvc. rewrite Hsame in Hvc' by done. congruence.
      * eapply closed_grows; [done|by apply grows_same|].
        by apply candidates_nil.
    + (* carve towards a chosen neighbour, recurse, loop *)
      destruct (choice_ok (x :: l) s) as (b & s1 & Hch & Hb & Hc1 & Hl1 & Hk1);
        [done|].
      rewrite (bind_ok _ _ _ _ _ Hch).
      rewrite <- Hcand in Hb.
      apply elem_of_candidates in Hb as (d & -> & Hd & Hvb).
      assert (Hbin : inb m (step d (i, j))) by (by eapply allowed_inb).
      assert (Hinv1 : gen_inv false m s1 None) by (by eapply gen_inv_ext).
      destruct (step d (i, j)) as [ni nj] eqn:Hstep.
      assert (Hwf1 : wf m (cells s1)) by (by rewrite Hc1).
      pose proof (connect_r_ok m s1 (i, j) d Hwf1 Ha) as Hcon.
      rewrite Hstep in Hcon. specialize (Hcon Hbin). simpl in Hcon.
      rewrite (bind_ok _ _ _ _ _ Hcon).
      match type of Hcon with _ = Ok (_, ?st) => set (s2 := st) in * end.
      assert (Hinv2 : gen_inv false m s2 (Some (ni, nj))).
      { pose proof (gen_inv_carve m s1 s2 (i, j) d) as H. rewrite Hstep in H.
        apply H; [done|done|done|by rewrite Hc1|by rewrite Hc1|done|done]. }
      assert (Hwf2 : wf m (cells s2)) by apply Hinv2.
      destruct (draw_cell_ok m s2 i j Hwf2 Ha)
        as (s3 & a1 & b1 & a2 & b2 & Hrun3 & Hcells3 & Hlog3 & _ & Hk3).
      rewrite (bind_ok _ _ _ _ _ Hrun3).
      assert (Hinv3 : gen_inv false m s3 (Some (ni, nj)))
        by (by eapply (gen_inv_coords _ _ s2 s3 _ (i, j))).
      assert (Hwf3 : wf m (cells s3)) by apply Hinv3.
      destruct (draw_cell_ok m s3 ni nj Hwf3 Hbin)
        as (s4 & a1' & b1' & a2' & b2' & Hrun4 & Hcells4 & Hlog4 & _ & Hk4).
      rewrite (bind_ok _ _ _ _ _ Hrun4).
      assert (Hinv4 : gen_inv false m s4 (Some (ni, nj)))
        by (by eapply (gen_inv_coords _ _ s3 s4 _ (ni, nj))).
      assert (Hsame : ∀ c, inb m c →
                visited (cell (cells s4) c) = visited (cell (cells s) c)).
      { intros c Hc. rewrite Hcells4, (visited_upd_coords m) by done.
        rewrite Hcells3, (visited_upd_coords m) by done.
        simpl. rewrite (visited_carve m), Hc1; try done.
        by rewrite Hstep. }
      assert (Hu4 : unvisited_count m (cells s4) = unvisited_count m (cells s))
        by (by apply unvisited_count_same).
      destruct (IH1 s4 (ni, nj)) as (s5 & Hrun5 & [Hi5 Hg5 Hk5 Hc5] & Hv5);
        [done|done|by rewrite Hsame|lia|].
      simpl in Hrun5. rewrite (bind_ok _ _ _ _ _ Hrun5).
      assert (Hu5 : (unvisited_count m (cells s5) < unvisited_count m (cells s4))%nat).
      { apply (unvisited_count_lt m _ _ (ni, nj)); [done..|by rewrite Hsame|done]. }
      destruct (IH2 s5 (i, j)) as (s' & Hrun' & [Hi' Hg' Hk' Hc'] & Hcl');
        [done|done| |lia|].
      { apply Hg5; [done|]. by rewrite Hsame. }
      exists s'. split; [done|].
      assert (Hg4 : grows m (cells s) (cells s4)) by (by apply grows_same).
      split; [split|done].
      * done.
      * eauto using grows_trans.
      * apply (keeps_trans s s1); [done|].
        apply (keeps_trans s1 s2); [by split|].
        apply (keeps_trans s2 s3); [done|].
        apply (keeps_trans s3 s4); [done|].
        by apply (keeps_trans s4 s5).
      * intros c Hc Hvc' Hvc.
        destruct (visited (cell (cells s5) c)) eqn:E5.
        -- eapply closed_grows; [done..|]. apply Hc5; [done..|].
           by rewrite Hsame.
        -- by apply Hc'.
Qed.

(** ** The large-grid carver *)

Lemma for_pairs_l_ok m a : ∀ pairs s stack,
  gen_inv true m s None → inb m a → visited (cell (cells s) a) = true →
  NoDup pairs →
  (∀ x, x ∈ pairs → ∃ d, x = step d a ∧ inb m x ∧
                         visited (cell (cells s) x) = false) →
  ∃ s', for_pairs_l m a.1 a.2 pairs stack s = Ok (rev pairs ++ stack, s') ∧
    gen_inv true m s' None ∧ keeps s s' ∧
    (∀ c, inb m c → visited (cell (cells s') c) = true ↔
                    visited (cell (cells s) c) = true ∨ c ∈ pairs) ∧
    (unvisited_count m (cells s') + length pairs
     ≤ unvisited_count m (cells s))%nat.
Proof.
  destruct a as [i j]. simpl fst. simpl snd.
  induction pairs as [|b pairs IH]; intros s stack Hinv Ha Hva Hnd Hp.
  { exists s. simpl. split_and!; try done; try apply keeps_refl; try lia.
    intros c Hc. rewrite elem_of_nil. tauto. }
  apply NoDup_cons in Hnd as [Hnb Hnd].
  destruct (Hp b) as (d & Hb & Hbin & Hvb); [by left|].
  destruct b as [ni nj]. simpl for_pairs_l.
  pose proof (ti_wf _ _ _ (gi_tree _ _ _ _ Hinv)) as Hwf.
  pose proof (connect_l_ok m s (i, j) d Hwf Ha) as Hcon.
  rewrite <- Hb in Hcon. specialize (Hcon Hbin). simpl in Hcon.
  rewrite (bind_ok _ _ _ _ _ Hcon).
  match type of Hcon with _ = Ok (_, ?st) => set (s1 := st) in * end.
  assert (Hinv1 : gen_inv true m s1 (Some (ni, nj))).
  { pose proof (gen_inv_carve_l m s s1 (i, j) d) as H. rewrite <- Hb in H.
    by apply H. }
  assert (Hwf1 : wf m (cells s1)) by apply Hinv1.
  set (s2 := set_cells (upd (cells s1) (ni, nj) (with_visited true)) s1).
  rewrite (bind_ok _ _ _ _ _ (update_cell_ok m s1 ni nj _ Hwf1 Hbin)). fold s2.
  assert (Hinv2 : gen_inv true m s2 None) by (by eapply gen_inv_mark).
  assert (Hwf2 : wf m (cells s2)) by apply Hinv2.
  destruct (draw_cell_ok m s2 i j Hwf2 Ha)
    as (s3 & a1 & b1 & a2 & b2 & Hrun3 & Hcells3 & Hlog3 & _ & Hk3).
  rewrite (bind_ok _ _ _ _ _ Hrun3).
  assert (Hinv3 : gen_inv true m s3 None)
    by (by eapply (gen_inv_coords _ _ s2 s3 _ (i, j))).
  assert (Hwf3 : wf m (cells s3)) by apply Hinv3.
  destruct (draw_cell_ok m s3 ni nj Hwf3 Hbin)
    as (s4 & a1' & b1' & a2' & b2' & Hrun4 & Hcells4 & Hlog4 & _ & Hk4).
  rewrite (bind_ok _ _ _ _ _ Hrun4).
  assert (Hinv4 : gen_inv true m s4 None)
    by (by eapply (gen_inv_coords _ _ s3 s4 _ (ni, nj))).
  assert (Hv1 : ∀ c, inb m c →
            visited (cell (cells s1) c) = visited (cell (cells s) c)).
  { intros c Hc. simpl. rewrite (cell_carve_l m) by (done || by rewrite <- Hb).
    rewrite <- (visited_carve m (cells s) (i, j) d) by (done || by rewrite <- Hb).
    by repeat case_decide. }
  assert (Hv4 : ∀ c, inb m c →
            visited (cell (cells s4) c)
            = if decide ((ni, nj) = c) then true else visited (cell (cells s) c)).
  { intros c Hc. rewrite Hcells4, (visited_upd_coords m) by done.
    rewrite Hcells3, (visited_upd_coords m) by done.
    unfold s2. simpl cells. rewrite (visited_upd_mark m) by done.
    case_decide; [done|]. by apply Hv1. }
  destruct (IH s4 ((ni, nj) :: stack)) as (s' & Hrun & Hinv' & Hk' & Hv' & Hu');
    [done|done| |done| |].
  { rewrite Hv4 by done. by case_decide. }
  { intros x Hx. destruct (Hp x) as (d' & Hx1 & Hx2 & Hx3); [by right|].
    exists d'. split_and!; [done..|]. rewrite Hv4 by done.
    rewrite decide_False; [done|]. by intros <-. }
  exists s'. split_and!.
  - rewrite Hrun. simpl. by rewrite <- app_assoc.
  - done.
  - apply (keeps_trans s s1); [by split|].
    apply (keeps_trans s1 s2); [by split|].
    apply (keeps_trans s2 s3); [done|].
    by apply (keeps_trans s3 s4).
  - intros c Hc. rewrite Hv', Hv4, elem_of_cons by done.
    case_decide as E; [subst|]; intuition congruence.
  - assert (unvisited_count m (cells s4) < unvisited_count m (cells s))%nat;
      [|simpl; lia].
    apply (unvisited_count_lt m _ _ (ni, nj)); [|done..|].
    + intros c Hc Hvc. rewrite Hv4 by done. by case_decide.
    + rewrite Hv4 by done. by rewrite decide_True.
Qed.

Lemma elem_of_rev {A} (l : list A) x : x ∈ rev l ↔ x ∈ l.
Proof. rewrite !list_elem_of_In. symmetry. apply in_rev. Qed.

Lemma break_walls_l_while_ok m : ∀ fuel stack s p,
  gen_inv true m s p →
  (∀ a, p = Some a → head stack = Some a) →
  (∀ c, c ∈ stack → inb m c ∧ reached (cells s) p c) →
  (∀ c, inb m c → visited (cell (cells s) c) = true →
        closed true m (cells s) c ∨ c ∈ stack) →
  (length stack + unvisited_count m (cells s) ≤ fuel)%nat →
  ∃ s', break_walls_l_while m fuel stack s = Ok (tt, s') ∧
    gen_inv true m s' None ∧ keeps s s' ∧ grows m (cells s) (cells s') ∧
    (∀ c, inb m c → visited (cell (cells s') c) = true →
          closed true m (cells s') c) ∧
    (∀ c, c ∈ stack → visited (cell (cells s') c) = true).
Proof.
  assert (Hnil : ∀ fuel s p,
    gen_inv true m s p → (∀ a, p = Some a → head [] = Some a) →
    (∀ c, inb m c → visited (cell (cells s) c) = true →
          closed true m (cells s) c ∨ c ∈ []) →
    ∃ s', break_walls_l_while m fuel [] s = Ok (tt, s') ∧
      gen_inv true m s' None ∧ keeps s s' ∧ grows m (cells s) (cells s') ∧
      (∀ c, inb m c → visited (cell (cells s') c) = true →
            closed true m (cells s') c) ∧
      (∀ c, c ∈ [] → visited (cell (cells s') c) = true)).
  { intros fuel s p Hinv Hp Hcl. exists s.
    destruct p as [a|]; [by specialize (Hp a eq_refl)|].
    split; [by destruct fuel|]. split; [done|]. split; [apply keeps_refl|].
    split; [apply grows_refl|]. split.
    - intros c Hc Hv. destruct (Hcl c Hc Hv) as [?|H]; [done|].
      by apply elem_of_nil in H.
    - intros c H. by apply elem_of_nil in H. }
  induction fuel as [|f IH]; intros stack s p Hinv Hp Hstk Hcl Hf;
    destruct stack as [|[i j] rest]; [by eapply Hnil| |by eapply Hnil|].
  { simpl in Hf. lia. }
  destruct (Hstk (i, j)) as [Ha Hra]; [by left|].
  pose proof (ti_wf _ _ _ (gi_tree _ _ _ _ Hinv)) as Hwf.
  simpl break_walls_l_while.
  set (s1 := set_cells (upd (cells s) (i, j) (with_visited true)) s).
  rewrite (bind_ok _ _ _ _ _ (update_cell_ok m s i j _ Hwf Ha)). fold s1.
  assert (Hinv1 : gen_inv true m s1 None).
  { destruct p as [a|].
    - specialize (Hp a eq_refl). injection Hp as <-. by eapply gen_inv_mark.
    - destruct Hra as [Hv|[=]]. by eapply gen_inv_remark. }
  assert (Hwf1 : wf m (cells s1)) by apply Hinv1.
  assert (Hv1 : ∀ c, inb m c → visited (cell (cells s1) c)
              = if decide ((i, j) = c) then true else visited (cell (cells s) c)).
  { intros c Hc. by apply (visited_upd_mark m). }
  assert (Hg1 : grows m (cells s) (cells s1)).
  { intros c Hc Hvc. rewrite Hv1 by done. by case_decide. }
  rewrite (bind_ok _ _ _ _ _ (indexes_to_visit_ok m s1 i j Hwf1 Ha)).
  destruct (shuffle_ok (candidates true m (cells s1) (i, j)) s1)
    as (l' & s2 & Hsh & Hperm & Hc2 & Hl2 & Hk2).
  rewrite (bind_ok _ _ _ _ _ Hsh).
  assert (Hinv2 : gen_inv true m s2 None) by (by eapply gen_inv_ext).
  assert (Hl' : ∀ x, x ∈ l' → ∃ d, x = step d (i, j) ∧ allowed true m d (i, j) ∧
                  visited (cell (cells s1) x) = false).
  { intros x Hx. rewrite Hperm in Hx. by apply elem_of_candidates in Hx. }
  destruct (for_pairs_l_ok m (i, j) l' s2 rest)
    as (s3 & Hrun3 & Hinv3 & Hk3 & Hv3 & Hu3); [done|done|..].
  { rewrite Hc2, Hv1 by done. by rewrite decide_True. }
  { rewrite Hperm. apply NoDup_candidates. }
  { intros x Hx. destruct (Hl' x Hx) as (d & -> & Hd & Hvx). exists d.
    split_and!; [done|by eapply allowed_inb|by rewrite Hc2]. }
  simpl in Hrun3. rewrite (bind_ok _ _ _ _ _ Hrun3).
  assert (Hg3 : grows m (cells s1) (cells s3)).
  { intros c Hc Hvc. apply Hv3; [done|]. left. by rewrite Hc2. }
  destruct (IH (rev l' ++ rest) s3 None) as (s' & Hrun & Hinv' & Hk' & Hg' & Hcl' & Hst');
    [done|done|..].
  { intros c Hc. apply elem_of_app in Hc as [Hc|Hc].
    - rewrite elem_of_rev in Hc. destruct (Hl' c Hc) as (d & -> & Hd & _).
      split; [by eapply allowed_inb|]. left. apply Hv3; [by eapply allowed_inb|].
      by right.
    - destruct (Hstk c) as [Hcin Hr]; [by right|]. split; [done|]. left.
      apply Hg3; [done|]. rewrite Hv1 by done. case_decide as E; [done|].
      destruct Hr as [?|Hr]; [done|]. specialize (Hp _ Hr). simpl in Hp.
      congruence. }
  { intros c Hc Hvc. apply Hv3 in Hvc; [|done]. destruct Hvc as [Hvc|Hvc].
    - rewrite Hc2, Hv1 in Hvc by done. case_decide as E.
      + subst c. left. intros d Hd.
        assert (Hin : inb m (step d (i, j))) by (by eapply allowed_inb).
        destruct (visited (cell (cells s1) (step d (i, j)))) eqn:Ev.
        * by apply Hg3.
        * apply Hv3; [done|]. right. rewrite Hperm.
          apply elem_of_candidates. eauto.
      + destruct (Hcl c Hc Hvc) as [Hclosed|Hin].
        * left. eapply closed_grows; [done| |done].
          by eapply grows_trans.
        * right. apply elem_of_app. right.
          apply elem_of_cons in Hin as [->|Hin]; done.
    - right. apply elem_of_app. left. by rewrite elem_of_rev. }
  { rewrite length_app, length_rev.
    pose proof (unvisited_count_le m _ _ Hg1). rewrite Hc2 in Hu3.
    simpl in Hf. lia. }
  exists s'. split_and!; try done.
  - apply (keeps_trans s s1); [by split|].
    apply (keeps_trans s1 s2); [done|]. by apply (keeps_trans s2 s3).
  - eauto using grows_trans.
  - intros c Hc. apply elem_of_cons in Hc as [->|Hc].
    + apply Hg', Hg3; [done..|]. rewrite Hv1 by done. by rewrite decide_True.
    + apply Hst'. apply elem_of_app. by right.
Qed.

(** ** Cells of a grid under construction *)

Lemma has_cell_inb m g c : wf m g → inb m c → has_cell g c.
Proof.
  intros Hwf Hc. destruct (wf_lookup m g c Hwf Hc) as (col & x & H1 & H2 & _).
  destruct Hc as [? ?]. split_and!; [lia..|]. rewrite H1. simpl. by rewrite H2.
Qed.

Lemma grid_pos_at g i j :
  has_cell g (i, j) → grid_pos g i j = Some (Z.to_nat i, Z.to_nat j).
Proof.
  intros (Hi & Hj & Hc). simpl in *.
  destruct (g !! Z.to_nat i) as [col|] eqn:Hcol; [|by destruct Hc].
  simpl in Hc. destruct Hc as [x Hx].
  pose proof (lookup_lt_Some _ _ _ Hcol). pose proof (lookup_lt_Some _ _ _ Hx).
  unfold grid_pos. rewrite py_pos_inb by lia. simpl. rewrite Hcol. simpl.
  by rewrite py_pos_inb by lia.
Qed.

Lemma get_cell_at s i j :
  has_cell (cells s) (i, j) → get_cell i j s = Ok (cell (cells s) (i, j), s).
Proof.
  intros Hc. unfold get_cell. rewrite grid_pos_at by done.
  destruct Hc as (_ & _ & [x Hx]). unfold cell. simpl in *. by rewrite Hx.
Qed.

Lemma update_cell_at s i j f :
  has_cell (cells s) (i, j) →
  update_cell i j f s = Ok (tt, set_cells (upd (cells s) (i, j) f) s).
Proof. intros Hc. unfold update_cell. by rewrite grid_pos_at. Qed.

Lemma has_cell_upd g c c' f : has_cell g c → has_cell (upd g c' f) c.
Proof.
  intros (H1 & H2 & Hc). split_and!; [done..|]. unfold upd.
  destruct (g !! Z.to_nat c.1) as [col|] eqn:Hcol; [|by destruct Hc].
  simpl in Hc. destruct Hc as [x Hx].
  destruct (decide (Z.to_nat c'.1 = Z.to_nat c.1)) as [E|E].
  - rewrite E, list_lookup_alter_eq, Hcol. simpl.
    destruct (decide (Z.to_nat c'.2 = Z.to_nat c.2)) as [E2|E2].
    + rewrite E2, list_lookup_alter_eq, Hx. by eexists.
    + rewrite list_lookup_alter_ne by done. by eexists.
  - rewrite list_lookup_alter_ne, Hcol by done. simpl. by eexists.
Qed.

Lemma Cell_draw_at s i j a1 b1 a2 b2 :
  has_cell (cells s) (i, j) →
  ∃ s', Cell_draw i j a1 b1 a2 b2 s = Ok (tt, s') ∧
    cells s' = upd (cells s) (i, j) (with_coords a1 b1 a2 b2) ∧
    untouched s s'.
Proof.
  intros Hin. unfold Cell_draw.
  set (s1 := set_cells (upd (cells s) (i, j) (with_coords a1 b1 a2 b2)) s).
  assert (Hin1 : has_cell (cells s1) (i, j)) by (by apply has_cell_upd).
  rewrite (bind_ok _ _ _ _ _ (update_cell_at s i j _ Hin)). fold s1.
  rewrite (bind_ok _ _ _ _ _ (has_window_ok s1)).
  case_bool_decide as Hw.
  - rewrite (bind_ok _ _ _ _ _ (get_cell_at s1 i j Hin1)).
    destruct Hw as [w Hw]. change (win s = Some w) in Hw.
    unfold bind, draw_line. simpl. rewrite Hw. simpl.
    eexists. split; [done|]. simpl. split; [done|].
    split_and!; try done.
  - exists s1. split; [done|]. split; [done|]. by split_and!.
Qed.

Lemma draw_cell_at m s i j :
  has_cell (cells s) (i, j) →
  ∃ s' a1 b1 a2 b2, draw_cell m i j s = Ok (tt, s') ∧
    cells s' = upd (cells s) (i, j) (with_coords a1 b1 a2 b2) ∧
    untouched s s'.
Proof.
  intros Hin. unfold draw_cell.
  edestruct (Cell_draw_at s i j) as (s' & Hd & Hc & Hu); [done|].
  rewrite (bind_ok _ _ _ _ _ Hd).
  rewrite (bind_ok _ _ _ _ _ (has_window_ok s')).
  exists s'. do 4 eexists. split; [|done].
  case_bool_decide; try done. by apply animate_ok.
Qed.

Lemma untouched_refl s : untouched s s.
Proof. by split_and!. Qed.

Lemma untouched_trans s1 s2 s3 :
  untouched s1 s2 → untouched s2 s3 → untouched s1 s3.
Proof.
  intros (H1 & H2 & H3) (H4 & H5 & H6). split_and!; [congruence..|].
  by eapply keeps_trans.
Qed.

Lemma untouched_set_cells g s : untouched s (set_cells g s).
Proof. by split_and!. Qed.

(** ** [for] loops over a range *)

Lemma for_each_seq_ind (P : Z → State → Prop) (body : Z → M unit) n :
  (∀ k s, 0 ≤ k < n → P k s → ∃ s', body k s = Ok (tt, s') ∧ P (k + 1) s') →
  ∀ len start s, (Z.of_nat (start + len) ≤ Z.max 0 n) →
    P (Z.of_nat start) s →
    ∃ s', for_each (Z.of_nat <$> seq start len) body s = Ok (tt, s') ∧
          P (Z.of_nat (start + len)) s'.
Proof.
  intros Hbody. induction len as [|len IH]; intros start s Hle HP.
  - exists s. split; [done|]. by rewrite Nat.add_0_r.
  - simpl.
    destruct (Hbody (Z.of_nat start) s) as (s1 & Hrun & HP1); [lia|done|].
    rewrite (bind_ok _ _ _ _ _ Hrun).
    destruct (IH (S start) s1) as (s' & Hrun' & HP'); [lia| |].
    { by replace (Z.of_nat (S start)) with (Z.of_nat start + 1) by lia. }
    exists s'. split; [done|].
    by replace (start + S len)%nat with (S start + len)%nat by lia.
Qed.

Lemma for_each_range_ind (P : Z → State → Prop) (body : Z → M unit) n s :
  (∀ k s, 0 ≤ k < n → P k s → ∃ s', body k s = Ok (tt, s') ∧ P (k + 1) s') →
  P 0 s →
  ∃ s', for_each (range n) body s = Ok (tt, s') ∧ P (Z.max 0 n) s'.
Proof.
  intros Hbody HP. unfold range.
  destruct (for_each_seq_ind P body n Hbody (Z.to_nat n) 0%nat s)
    as (s' & Hrun & HP'); [lia|done|].
  exists s'. split; [done|].
  by replace (Z.max 0 n) with (Z.of_nat (0 + Z.to_nat n)) by lia.
Qed.

(** ** The loops of [__create_cells] *)

Lemma blank_with_coords a1 b1 a2 b2 c : blank c → blank (with_coords a1 b1 a2 b2 c).
Proof. done. Qed.

Lemma blank_Cell_init : blank Cell_init.
Proof. by repeat split. Qed.

Lemma create_loops_ok m s :
  cells s = [] →
  ∃ s', create_loops m s = Ok (tt, s') ∧ untouched s s' ∧
    length (cells s') = Z.to_nat (num_cols m) ∧
    Forall (λ col, length col = Z.to_nat (num_rows m) ∧ Forall blank col)
           (cells s').
Proof.
  intros Hnil. unfold create_loops.
  set (G := Forall (λ col : list Cell,
                      length col = Z.to_nat (num_rows m) ∧ Forall blank col)).
  destruct (for_each_range_ind
    (λ k s', untouched s s' ∧ length (cells s') = Z.to_nat k ∧ G (cells s'))
    (λ i, append_column;;
       for_each (range (num_rows m)) (λ j, append_cell i;; draw_cell m i j))%M
    (num_cols m) s) as (s' & Hrun & Hu & Hlen & HG).
  - intros k s1 Hk (Hu1 & Hlen1 & HG1).
    set (cols := cells s1) in *.
    set (s2 := set_cells (cols ++ [[]]) s1).
    rewrite (bind_ok _ _ s1 tt s2) by done.
    destruct (for_each_range_ind
      (λ j s', untouched s s' ∧
         ∃ col, cells s' = cols ++ [col] ∧ length col = Z.to_nat j ∧
                Forall blank col)
      (λ j, append_cell k;; draw_cell m k j)%M (num_rows m) s2)
      as (s3 & Hrun3 & Hu3 & col & Hcells3 & Hlen3 & Hbl3).
    + intros j s3 Hj (Hu3 & col & Hcells3 & Hlen3 & Hbl3).
      assert (Hpos : py_pos (cells s3) k = Some (Z.to_nat k)).
      { apply py_pos_inb. rewrite Hcells3, length_app. simpl. lia. }
      set (s4 := set_cells (cols ++ [col ++ [Cell_init]]) s3).
      assert (Happ : append_cell k s3 = Ok (tt, s4)).
      { unfold append_cell. rewrite Hpos. do 2 f_equal. unfold s4. f_equal.
        rewrite Hcells3. rewrite <- Hlen1.
        replace (length cols) with (length cols + 0)%nat by lia.
        by rewrite alter_app_r. }
      rewrite (bind_ok _ _ _ _ _ Happ).
      assert (Hcol4 : cells s4 !! Z.to_nat k = Some (col ++ [Cell_init])).
      { simpl. rewrite <- Hlen1. by rewrite list_lookup_middle. }
      assert (Hx4 : (col ++ [Cell_init]) !! Z.to_nat j = Some Cell_init).
      { rewrite <- Hlen3. by rewrite list_lookup_middle. }
      destruct (draw_cell_at m s4 k j)
        as (s5 & a1 & b1 & a2 & b2 & Hrun5 & Hcells5 & Hu5).
      { split_and!; simpl; [lia..|]. simpl in Hcol4. rewrite Hcol4. simpl.
        rewrite Hx4. by eexists. }
      exists s5. split; [done|]. split.
      * eapply untouched_trans; [apply Hu3|].
        eapply untouched_trans; [|apply Hu5]. apply untouched_set_cells.
      * exists (col ++ [with_coords a1 b1 a2 b2 Cell_init]). split_and!.
        -- rewrite Hcells5. unfold upd. simpl.
           rewrite <- Hlen1 at 1.
           replace (length cols) with (length cols + 0)%nat at 1 by lia.
           rewrite alter_app_r. simpl. do 2 f_equal.
           rewrite <- Hlen3.
           replace (length col) with (length col + 0)%nat at 1 by lia.
           by rewrite alter_app_r.
        -- rewrite length_app. simpl. lia.
        -- apply Forall_app. split; [done|]. apply Forall_singleton.
           apply blank_with_coords, blank_Cell_init.
    + split; [|by exists []]. eapply untouched_trans; [apply Hu1|].
      apply untouched_set_cells.
    + exists s3. split; [done|]. split_and!; [done|..].
      * rewrite Hcells3, length_app. simpl. lia.
      * rewrite Hcells3. apply Forall_app. split; [done|].
        apply Forall_singleton. split; [lia|done].
  - split_and!; [apply untouched_refl|by rewrite Hnil|]. rewrite Hnil.
    apply Forall_nil_2.
  - exists s'. split_and!; [done..|lia|done].
Qed.

(** ** The grid before carving *)

Lemma filter_length_none {A} (P : A → Prop) `{DP : !∀ x, Decision (P x)}
    (l : list A) :
  (∀ x, x ∈ l → ¬ P x) → length (filter P l) = 0%nat.
Proof.
  intros H. induction l as [|a l IH]; [done|].
  rewrite filter_cons, decide_False by (apply H; by left).
  apply IH. intros x Hx. apply H. by right.
Qed.

Lemma agree_closed m g :
  (∀ c d, inb m c → inb m (step d c) → wall d (cell g c) = true) → agree m g.
Proof.
  intros H c d Hc Hs. rewrite !H; try done. by rewrite step_opp.
Qed.

Lemma opened_closed m g c d :
  opened m g → inb m c → inb m (step d c) → wall d (cell g c) = true.
Proof.
  intros Ho Hc Hs. destruct (Ho c Hc) as (_ & _ & Hw).
  destruct (wall d (cell g c)) eqn:E; [done|].
  apply Hw in E as [[-> ->]|[-> ->]]; destruct Hs as [? ?]; simpl in *; lia.
Qed.

Lemma gen_inv_opened large m s :
  1 ≤ num_cols m → 1 ≤ num_rows m →
  wf m (cells s) → opened m (cells s) →
  Forall (consistent m) (wall_log s) → length (wall_log s) = 2%nat →
  gen_inv large m s (Some (0, 0)).
Proof.
  intros HC HR Hwf Ho Hlog Hlen.
  assert (H0 : inb m (0, 0)) by (split; simpl; lia).
  assert (Hcl : ∀ c d, inb m c → inb m (step d c) →
                  wall d (cell (cells s) c) = true).
  { intros. by eapply opened_closed. }
  assert (Hnp : ∀ a b, ¬ passage m (cells s) a b).
  { intros a b (Ha & Hb & d & -> & Hw & _). rewrite Hcl in Hw; done. }
  assert (Hpass : length (passages m (cells s)) = 0%nat).
  { apply filter_length_none. intros [c d] He.
    apply elem_of_edges in He as (Hc & Hs & _). unfold openb. simpl.
    by rewrite Hcl. }
  split; [split|..].
  - done.
  - by apply agree_closed.
  - intros c d Hc Hs Hw. rewrite Hcl in Hw; done.
  - rewrite Hpass.
    assert (Hr : length (filter (reached (cells s) (Some (0, 0))) (all_cells m))
                 = S (length (filter (λ _, False) (all_cells m)))).
    { apply (filter_length_succ _ _ _ (0, 0)).
      - apply NoDup_all_cells.
      - by apply elem_of_all_cells.
      - tauto.
      - by right.
      - intros c Hc Hne. apply elem_of_all_cells in Hc.
        destruct (Ho c Hc) as (Hv & _). unfold reached. rewrite Hv.
        split; [done|]. intros [?|?]; congruence. }
    rewrite Hr. f_equal. apply filter_length_none. tauto.
  - intros c Hc [Hv|[= <-]]; [|done].
    destruct (Ho c Hc) as (Hv' & _). congruence.
  - intros l (Hl & _ & He).
    destruct l as [|a [|b l]]; simpl in Hl; try lia.
    apply (Hnp a b). apply (He 0%nat); [done|].
    rewrite Nat.mod_small by (simpl; lia). done.
  - done.
  - destruct large; simpl.
    + intros c d Hc Hs Hw. rewrite Hcl in Hw; done.
    + intros c Hc. by destruct (Ho c Hc) as (_ & ? & _).
  - intros c d Hc Hs Hw. destruct (Ho c Hc) as (_ & _ & H). by apply H.
  - by rewrite Hpass.
  - intros Hc. destruct (Ho _ Hc) as (_ & _ & H). apply (H Up). by left.
  - intros Hc. destruct (Ho _ Hc) as (_ & _ & H). apply (H Down). by right.
Qed.

Lemma blank_cells m g c :
  wf m g → Forall (λ col, length col = Z.to_nat (num_rows m) ∧ Forall blank col) g →
  inb m c → blank (cell g c).
Proof.
  intros Hwf HG Hc.
  destruct (wf_lookup m g c Hwf Hc) as (col & x & Hcol & Hx & _ & <-).
  rewrite Forall_lookup in HG. destruct (HG _ _ Hcol) as [_ Hb].
  rewrite Forall_lookup in Hb. by eapply Hb.
Qed.

(** The statements of [__break_entrance_and_exit] before the carver
    is called. *)
Lemma open_ends_ok m s :
  1 ≤ num_cols m → 1 ≤ num_rows m →
  wf m (cells s) → (∀ c, inb m c → blank (cell (cells s) c)) →
  wall_log s = [] →
  ∃ s', (∀ (k : M unit),
           (update_cell 0 0 (with_top false);; log_walls;;
            update_cell (num_cols m - 1) (num_rows m - 1) (with_bottom false);;
            log_walls;;
            draw_cell m 0 0;;
            draw_cell m (num_cols m - 1) (num_rows m - 1);;
            k)%M s = k s') ∧
    wf m (cells s') ∧ opened m (cells s') ∧
    Forall (consistent m) (wall_log s') ∧ length (wall_log s') = 2%nat ∧
    keeps s s'.
Proof.
  intros HC HR Hwf Hbl Hlog.
  set (ex := (num_cols m - 1, num_rows m - 1)).
  assert (H0 : inb m (0, 0)) by (split; simpl; lia).
  assert (He : inb m ex) by (split; simpl; lia).
  set (g1 := upd (cells s) (0, 0) (with_top false)).
  set (g2 := upd g1 ex (with_bottom false)).
  assert (Hwf1 : wf m g1) by (by apply wf_upd).
  assert (Hwf2 : wf m g2) by (by apply wf_upd).
  assert (Hc1 : ∀ c, inb m c → cell g1 c =
            if decide ((0, 0) = c) then with_top false (cell (cells s) c)
            else cell (cells s) c).
  { intros c Hc. unfold g1. by rewrite (cell_upd m). }
  assert (Hc2 : ∀ c, inb m c → cell g2 c =
            if decide (ex = c) then with_bottom false (cell g1 c)
            else cell g1 c).
  { intros c Hc. unfold g2. by rewrite (cell_upd m). }
  assert (Hw1 : ∀ c d, inb m c →
            wall d (cell g1 c) = false ↔ c = (0, 0) ∧ d = Up).
  { intros c d Hc. rewrite Hc1 by done.
    destruct (Hbl c Hc) as (? & ? & ? & ? & _).
    case_decide as E; [subst c|]; destruct d; simpl; split;
      try congruence; try tauto; intros [? ?]; congruence. }
  assert (Hw2 : ∀ c d, inb m c →
            wall d (cell g2 c) = false ↔
            (c = (0, 0) ∧ d = Up) ∨ (c = ex ∧ d = Down)).
  { intros c d Hc. rewrite Hc2 by done. rewrite <- Hw1 by done.
    case_decide as E; [subst c|].
    - destruct d; simpl; try tauto; intuition congruence.
    - intuition congruence. }
  assert (Hag1 : agree m g1).
  { apply agree_closed. intros c d Hc Hs.
    destruct (wall d (cell g1 c)) eqn:E; [done|].
    apply Hw1 in E as [-> ->]; [|done]. destruct Hs; simpl in *; lia. }
  assert (Hag2 : agree m g2).
  { apply agree_closed. intros c d Hc Hs.
    destruct (wall d (cell g2 c)) eqn:E; [done|].
    apply Hw2 in E; [|done].
    destruct E as [[-> ->]|[-> ->]]; destruct Hs; simpl in *; lia. }
  assert (∃ s4, (∀ k : M unit,
    (update_cell 0 0 (with_top false);; log_walls;;
     update_cell (num_cols m - 1) (num_rows m - 1) (with_bottom false);;
     log_walls;; draw_cell m 0 0;;
     draw_cell m (num_cols m - 1) (num_rows m - 1);; k)%M s = k s4) ∧
    ∃ a1 b1 a2 b2 a1' b1' a2' b2',
      cells s4 = upd (upd g2 (0, 0) (with_coords a1 b1 a2 b2)) ex
                     (with_coords a1' b1' a2' b2') ∧
      wall_log s4 = [g2; g1] ∧ keeps s s4)
    as (s4 & Hrun & a1 & b1 & a2 & b2 & a1' & b1' & a2' & b2' & Hcells4 & Hlog4 & Hk4).
  { set (s1 := set_cells g1 s).
    set (s1' := mkState g1 (win s) (random s) [g1] (moves s)).
    set (s2 := mkState g2 (win s) (random s) [g2; g1] (moves s)).
    destruct (draw_cell_ok m s2 0 0 Hwf2 H0)
      as (s3 & a1 & b1 & a2 & b2 & Hrun3 & Hcells3 & Hlog3 & _ & Hk3).
    assert (Hwf3 : wf m (cells s3)) by (rewrite Hcells3; by apply wf_upd).
    destruct (draw_cell_ok m s3 _ _ Hwf3 He)
      as (s4 & a1' & b1' & a2' & b2' & Hrun4 & Hcells4 & Hlog4 & _ & Hk4).
    exists s4. split.
    - intros k.
      rewrite (bind_ok _ _ _ _ _ (update_cell_ok m s 0 0 _ Hwf H0)).
      fold g1 s1.
      rewrite (bind_ok _ _ s1 tt s1')
        by (unfold log_walls, s1; simpl; by rewrite Hlog).
      rewrite (bind_ok _ _ _ _ _
        (update_cell_ok m s1' (num_cols m - 1) (num_rows m - 1) _ Hwf1 He)).
      rewrite (bind_ok _ _ _ tt s2) by done.
      rewrite (bind_ok _ _ _ _ _ Hrun3).
      by rewrite (bind_ok _ _ _ _ _ Hrun4).
    - exists a1, b1, a2, b2, a1', b1', a2', b2'. split_and!.
      + by rewrite Hcells4, Hcells3.
      + by rewrite Hlog4, Hlog3.
      + apply (keeps_trans s s2); [by split|]. by apply (keeps_trans s2 s3). }
  exists s4. split; [done|].
  assert (Hc4 : ∀ c, inb m c → ∃ u1 v1 u2 v2,
            cell (cells s4) c = with_coords u1 v1 u2 v2 (cell g2 c)).
  { intros c Hc. rewrite Hcells4, (cell_upd m), (cell_upd m)
      by (done || by apply wf_upd).
    destruct (cell g2 c) as [? ? ? ? p1 p2 p3 p4 ? ?] eqn:E.
    repeat case_decide; unfold with_coords; simpl; eauto. }
  split_and!.
  - rewrite Hcells4. by do 2 apply wf_upd.
  - intros c Hc. destruct (Hc4 c Hc) as (u1 & v1 & u2 & v2 & ->).
    destruct (Hbl c Hc) as (_ & _ & _ & _ & Hv & Hd).
    split_and!.
    + simpl. rewrite Hc2, Hc1 by done. by repeat case_decide.
    + simpl. rewrite Hc2, Hc1 by done. by repeat case_decide.
    + intros d. fold ex. rewrite <- Hw2 by done. by destruct d.
  - rewrite Hlog4.
    repeat constructor; by apply agree_consistent.
  - by rewrite Hlog4.
  - done.
Qed.

(** ** Generation *)

Lemma wf_created m g :
  0 ≤ num_cols m → 0 ≤ num_rows m →
  length g = Z.to_nat (num_cols m) →
  Forall (λ col, length col = Z.to_nat (num_rows m) ∧ Forall blank col) g →
  wf m g.
Proof.
  intros HC HR Hlen HG. split; [lia|].
  intros col Hcol. rewrite Forall_forall in HG.
  destruct (HG col Hcol) as [-> _]. lia.
Qed.

Lemma generation_ok m fuel s :
  1 ≤ num_cols m → 1 ≤ num_rows m → cells s = [] → wall_log s = [] →
  (2 * Z.to_nat (num_rows m * num_cols m) < fuel)%nat →
  ∃ s', generation m fuel s = Ok (tt, s') ∧
    gen_inv (is_large m) m s' None ∧
    (∀ c, inb m c → visited (cell (cells s') c) = true) ∧
    keeps s s'.
Proof.
  intros HC HR Hnil Hlog Hfuel. unfold generation.
  destruct (create_loops_ok m s Hnil) as (s1 & Hrun1 & (Hl1 & _ & Hk1) & Hlen1 & HG1).
  rewrite (bind_ok _ _ _ _ _ Hrun1).
  assert (Hwf1 : wf m (cells s1)) by (apply wf_created; (lia || done)).
  destruct (open_ends_ok m s1) as (s2 & Hrun2 & Hwf2 & Ho2 & Hlog2 & Hlen2 & Hk2);
    [done|done|done|by intros; eapply blank_cells|congruence|].
  unfold open_and_carve. rewrite Hrun2.
  assert (H0 : inb m (0, 0)) by (split; simpl; lia).
  assert (Hv2 : ∀ c, inb m c → visited (cell (cells s2) c) = false).
  { intros c Hc. by destruct (Ho2 c Hc). }
  assert (Hu2 : (unvisited_count m (cells s2)
                 ≤ Z.to_nat (num_rows m * num_cols m))%nat).
  { pose proof (unvisited_count_total m (cells s2)).
    pose proof (length_all_cells m). lia. }
  unfold is_large.
  destruct (num_cols m * num_rows m <? 1000) eqn:Hsize; simpl negb.
  - destruct (break_walls_r_ok m fuel) as [Hr _].
    destruct (Hr s2 (0, 0)) as (s' & Hrun & [Hinv Hg Hk Hcl] & Hv0);
      [by apply gen_inv_opened|done|by apply Hv2|lia|].
    exists s'. split_and!; [done|done| |].
    + apply (closed_covers false m); [|done].
      intros c Hc Hvc. apply Hcl; [done..|]. by apply Hv2.
    + apply (keeps_trans s s1); [done|]. by apply (keeps_trans s1 s2).
  - destruct (break_walls_l_while_ok m fuel [(0, 0)] s2 (Some (0, 0)))
      as (s' & Hrun & Hinv & Hk & Hg & Hcl & Hst).
    + by apply gen_inv_opened.
    + by intros a [= <-].
    + intros c Hc. apply list_elem_of_singleton in Hc as ->. split; [done|].
      by right.
    + intros c Hc Hvc. rewrite Hv2 in Hvc; done.
    + simpl. lia.
    + exists s'. split_and!; [done|done| |].
      * apply (closed_covers true m); [done|]. apply Hst. by left.
      * apply (keeps_trans s s1); [done|]. by apply (keeps_trans s1 s2).
Qed.

Lemma reached_all m g :
  (∀ c, inb m c → visited (cell g c) = true) →
  length (filter (reached g None) (all_cells m)) = length (all_cells m).
Proof.
  intros H.
  rewrite (filter_length_same (λ _, True) (reached g None)).
  - f_equal. induction (all_cells m) as [|a l IH]; [done|].
    by rewrite filter_cons_True, IH.
  - intros c Hc. apply elem_of_all_cells in Hc. split; [|done]. intros _.
    left. by apply H.
Qed.

Lemma spanning_tree_inv m g :
  0 ≤ num_cols m → 0 ≤ num_rows m →
  tree_inv m g None → (∀ c, inb m c → visited (cell g c) = true) →
  spanning_tree m g.
Proof.
  intros HC HR [Hwf Hag Hends Hcount Hconn Hac] Hv. split.
  - rewrite reached_all in Hcount by done.
    pose proof (length_all_cells m HC HR). lia.
  - intros c Hc. apply Hconn; [done|]. left. by apply Hv.
  - done.
Qed.

(** ** Resetting the visited flags *)

Lemma reset_loops_ok m s :
  wf m (cells s) →
  ∃ s', reset_loops m s = Ok (tt, s') ∧ wf m (cells s') ∧ untouched s s' ∧
    win s' = win s ∧
    ∀ c, inb m c → cell (cells s') c = with_visited false (cell (cells s) c).
Proof.
  intros Hwf. unfold reset_loops.
  set (inner := λ i, for_each (range (num_rows m))
                       (λ j, update_cell i j (with_visited false))).
  destruct (for_each_range_ind
    (λ i s', wf m (cells s') ∧ untouched s s' ∧ win s' = win s ∧
       ∀ c, inb m c → cell (cells s') c =
         if bool_decide (c.1 < i) then with_visited false (cell (cells s) c)
         else cell (cells s) c)
    inner (num_cols m) s) as (s' & Hrun & Hwf' & Hu' & Hw' & Hc').
  - intros i s1 Hi (Hwf1 & Hu1 & Hw1 & Hc1). unfold inner.
    destruct (for_each_range_ind
      (λ j s', wf m (cells s') ∧ untouched s s' ∧ win s' = win s ∧
         ∀ c, inb m c → cell (cells s') c =
           if bool_decide (c.1 < i ∨ (c.1 = i ∧ c.2 < j))
           then with_visited false (cell (cells s) c)
           else cell (cells s) c)
      (λ j, update_cell i j (with_visited false)) (num_rows m) s1)
      as (s2 & Hrun2 & Hwf2 & Hu2 & Hw2 & Hc2).
    + intros j s2 Hj (Hwf2 & Hu2 & Hw2 & Hc2).
      assert (Hin : inb m (i, j)) by (split; simpl; lia).
      exists (set_cells (upd (cells s2) (i, j) (with_visited false)) s2).
      split; [by apply (update_cell_ok m)|]. split_and!.
      * by apply wf_upd.
      * eapply untouched_trans; [done|]. apply untouched_set_cells.
      * done.
      * intros c Hc. simpl cells. rewrite (cell_upd m), Hc2 by done.
        destruct c as [ci cj]. simpl.
        case_decide as E; [injection E as <- <-|].
        -- rewrite bool_decide_false, bool_decide_true by lia. done.
        -- assert (ci ≠ i ∨ cj ≠ j) by (destruct (decide (ci = i));
             [right; congruence|by left]).
           repeat case_bool_decide; (done || lia).
    + split_and!; [done..|]. intros c Hc. rewrite Hc1 by done.
      destruct Hc as [? ?]. repeat case_bool_decide; (done || lia).
    + exists s2. split; [done|]. split_and!; [done..|].
      intros c Hc. rewrite Hc2 by done. destruct Hc as [_ Hc].
      repeat case_bool_decide; (done || lia).
  - split_and!; [done|apply untouched_refl|done|].
    intros c [Hc _]. rewrite bool_decide_false by lia. done.
  - exists s'. split; [done|]. split_and!; [done..|].
    intros c Hc. rewrite Hc' by done. destruct Hc as [Hc _].
    rewrite bool_decide_true by lia. done.
Qed.

(** ** The phases of the constructor *)

Lemma bind_assoc {A B C} (c : M A) (f : A → M B) (g : B → M C) s :
  bind (bind c f) g s = bind c (λ a, bind (f a) g) s.
Proof. unfold bind. by destruct (c s) as [[a s1]| |]. Qed.

Lemma create_cells_phases m fuel s :
  0 < num_cols m → 0 < num_rows m →
  create_cells m fuel s
  = (generation m fuel;; reset_loops m;; solve m fuel)%M s.
Proof.
  intros HC HR. unfold create_cells, generation, break_entrance_and_exit,
    reset_cells_visited.
  replace (num_cols m >? 0) with true by lia.
  replace (num_rows m >? 0) with true by lia. simpl andb. cbv iota.
  by rewrite !bind_assoc.
Qed.

(** * The claims about generation *)

(** C1: whatever the dimensions [R, C ≥ 1], the state of the random
    generator and the window, generation ends without error, and the
    passages it has carved form a spanning tree of the grid: there are
    exactly [R * C - 1] of them, every cell can be reached from (0,0),
    and there is no cycle.  The recursive carver runs below 1000 cells
    and the iterative one from 1000 cells on; the statement covers
    both. *)
Theorem generated_maze_spanning_tree window random0 fuel m :
  1 ≤ num_rows m → 1 ≤ num_cols m →
  (2 * Z.to_nat (num_rows m * num_cols m) < fuel)%nat →
  ∃ s, generation m fuel (initial_state window random0) = Ok (tt, s) ∧
       spanning_tree m (cells s).
Proof.
  intros HR HC Hfuel.
  destruct (generation_ok m fuel (initial_state window random0))
    as (s & Hrun & Hinv & Hv & _); [done..|].
  exists s. split; [done|].
  apply spanning_tree_inv; [lia|lia|apply Hinv|done].
Qed.

Lemma generated_maze_spanning_tree_witness :
  let m := mkMaze 0 0 2 2 10 10 None in
  1 ≤ num_rows m ∧ 1 ≤ num_cols m ∧
  (2 * Z.to_nat (num_rows m * num_cols m) < 9)%nat ∧
  ∃ s, generation m 9 (initial_state None [1; 0]%nat) = Ok (tt, s) ∧
       spanning_tree m (cells s).
Proof.
  simpl. split; [lia|]. split; [lia|]. split; [lia|].
  apply generated_maze_spanning_tree; simpl; lia.
Defined.

(** C6: the grid is logged after each assignment to wall flags during
    generation: the opening of the entrance, the opening of the exit,
    and each carve (one logged grid per passage).  In every logged grid,
    and in the final one, a cell has a right wall exactly when its right
    neighbour has a left wall, and a bottom wall exactly when its lower
    neighbour has a top wall. *)
Theorem walls_consistent_after_every_mutation window random0 fuel m :
  1 ≤ num_rows m → 1 ≤ num_cols m →
  (2 * Z.to_nat (num_rows m * num_cols m) < fuel)%nat →
  ∃ s, generation m fuel (initial_state window random0) = Ok (tt, s) ∧
       Forall (consistent m) (wall_log s) ∧
       length (wall_log s) = S (S (length (passages m (cells s)))) ∧
       consistent m (cells s).
Proof.
  intros HR HC Hfuel.
  destruct (generation_ok m fuel (initial_state window random0))
    as (s & Hrun & Hinv & Hv & _); [done..|].
  exists s. split_and!; [done|apply Hinv|apply Hinv|].
  apply agree_consistent, Hinv.
Qed.

Lemma walls_consistent_after_every_mutation_witness :
  let m := mkMaze 0 0 3 2 10 10 None in
  1 ≤ num_rows m ∧ 1 ≤ num_cols m ∧
  (2 * Z.to_nat (num_rows m * num_cols m) < 13)%nat ∧
  ∃ s, generation m 13 (initial_state None [2; 1]%nat) = Ok (tt, s) ∧
       Forall (consistent m) (wall_log s) ∧
       length (wall_log s) = S (S (length (passages m (cells s)))) ∧
       consistent m (cells s).
Proof.
  simpl. split; [lia|]. split; [lia|]. split; [lia|].
  apply walls_consistent_after_every_mutation; simpl; lia.
Defined.

(** C8: the constructor is generation, then one pass of the two loops
    of [__reset_cells_visited], then the solver.  Generation leaves
    every cell visited; the pass changes nothing but the visited flag,
    which it clears in each of the [num_cols * num_rows] cells; the
    solver starts from that state. *)
Theorem visited_reset_once_between_phases window random0 fuel m :
  1 ≤ num_rows m → 1 ≤ num_cols m →
  (2 * Z.to_nat (num_rows m * num_cols m) < fuel)%nat →
  ∃ s s', generation m fuel (initial_state window random0) = Ok (tt, s) ∧
    (∀ c, inb m c → visited (cell (cells s) c) = true) ∧
    reset_loops m s = Ok (tt, s') ∧
    (∀ c, inb m c → cell (cells s') c = with_visited false (cell (cells s) c)) ∧
    (∀ c, inb m c → visited (cell (cells s') c) = false) ∧
    create_cells m fuel (initial_state window random0) = solve m fuel s'.
Proof.
  intros HR HC Hfuel.
  destruct (generation_ok m fuel (initial_state window random0))
    as (s & Hrun & Hinv & Hv & _); [done..|].
  destruct (reset_loops_ok m s) as (s' & Hrun' & _ & _ & _ & Hc); [apply Hinv|].
  exists s, s'. split_and!; [done..| |].
  - intros c Hc'. by rewrite Hc.
  - rewrite create_cells_phases by lia.
    rewrite (bind_ok _ _ _ _ _ Hrun). by rewrite (bind_ok _ _ _ _ _ Hrun').
Qed.

Lemma visited_reset_once_between_phases_witness :
  let m := mkMaze 0 0 2 2 10 10 None in
  1 ≤ num_rows m ∧ 1 ≤ num_cols m ∧
  (2 * Z.to_nat (num_rows m * num_cols m) < 9)%nat ∧
  ∃ s s', generation m 9 (initial_state None []) = Ok (tt, s) ∧
    (∀ c, inb m c → visited (cell (cells s) c) = true) ∧
    reset_loops m s = Ok (tt, s') ∧
    (∀ c, inb m c → cell (cells s') c = with_visited false (cell (cells s) c)) ∧
    (∀ c, inb m c → visited (cell (cells s') c) = false) ∧
    create_cells m 9 (initial_state None []) = solve m 9 s'.
Proof.
  simpl. split; [lia|]. split; [lia|]. split; [lia|].
  apply visited_reset_once_between_phases; simpl; lia.
Defined.

(** C10: on a grid of fewer than 1000 cells the carver writes no
    direction marker: in the state in which the solver starts, the
    [valid_dirs] of every cell is still the empty dictionary.  From
    1000 cells on the other carver runs, and then each side of each
    passage has its marker set to true. *)
Theorem valid_dirs_empty_below_1000_cells window random0 fuel m :
  1 ≤ num_rows m → 1 ≤ num_cols m →
  (2 * Z.to_nat (num_rows m * num_cols m) < fuel)%nat →
  ∃ s s', generation m fuel (initial_state window random0) = Ok (tt, s) ∧
    reset_loops m s = Ok (tt, s') ∧
    create_cells m fuel (initial_state window random0) = solve m fuel s' ∧
    (num_rows m * num_cols m < 1000 →
       ∀ c, inb m c → valid_dirs (cell (cells s) c) = ∅ ∧
                      valid_dirs (cell (cells s') c) = ∅) ∧
    (1000 ≤ num_rows m * num_cols m →
       ∀ c d, inb m c → inb m (step d c) →
         wall d (cell (cells s') c) = false →
         valid_dirs (cell (cells s') c) !! key d = Some true).
Proof.
  intros HR HC Hfuel.
  destruct (generation_ok m fuel (initial_state window random0))
    as (s & Hrun & Hinv & Hv & _); [done..|].
  destruct (reset_loops_ok m s) as (s' & Hrun' & _ & _ & _ & Hc); [apply Hinv|].
  pose proof (gi_dirs _ _ _ _ Hinv) as Hd. unfold is_large in Hd.
  exists s, s'. split_and!; [done..| | |].
  - rewrite create_cells_phases by lia.
    rewrite (bind_ok _ _ _ _ _ Hrun). by rewrite (bind_ok _ _ _ _ _ Hrun').
  - intros Hsmall c Hc'.
    replace (num_cols m * num_rows m <? 1000) with true in Hd by lia.
    rewrite Hc by done. simpl. split; by apply Hd.
  - intros Hlarge c d Hc' Hs.
    replace (num_cols m * num_rows m <? 1000) with false in Hd by lia.
    rewrite Hc by done. intros Hw. simpl. apply Hd; [done..|]. by destruct d.
Qed.

Lemma valid_dirs_empty_below_1000_cells_witness :
  let m := mkMaze 0 0 2 3 10 10 None in
  1 ≤ num_rows m ∧ 1 ≤ num_cols m ∧
  (2 * Z.to_nat (num_rows m * num_cols m) < 13)%nat ∧
  ∃ s s', generation m 13 (initial_state None [0; 1]%nat) = Ok (tt, s) ∧
    reset_loops m s = Ok (tt, s') ∧
    create_cells m 13 (initial_state None [0; 1]%nat) = solve m 13 s' ∧
    (num_rows m * num_cols m < 1000 →
       ∀ c, inb m c → valid_dirs (cell (cells s) c) = ∅ ∧
                      valid_dirs (cell (cells s') c) = ∅) ∧
    (1000 ≤ num_rows m * num_cols m →
       ∀ c d, inb m c → inb m (step d c) →
         wall d (cell (cells s') c) = false →
         valid_dirs (cell (cells s') c) !! key d = Some true).
Proof.
  simpl. split; [lia|]. split; [lia|]. split; [lia|].
  apply valid_dirs_empty_below_1000_cells; simpl; lia.
Defined.

(** * Degenerate dimensions *)

Lemma set_cells_id s : set_cells (cells s) s = s.
Proof. by destruct s. Qed.

Lemma create_columns_only m n : ∀ start s,
  num_rows m ≤ 0 →
  for_each (Z.of_nat <$> seq start n)
    (λ i, append_column;;
       for_each (range (num_rows m)) (λ j, append_cell i;; draw_cell m i j))%M s
  = Ok (tt, set_cells (cells s ++ replicate n []) s).
Proof.
  induction n as [|n IH]; intros start s HR; simpl.
  - by rewrite app_nil_r, set_cells_id.
  - unfold range at 1. replace (Z.to_nat (num_rows m)) with 0%nat by lia.
    simpl. unfold bind at 1. unfold bind at 1. simpl.
    rewrite IH by done. simpl. by rewrite <- app_assoc.
Qed.

Lemma create_loops_degenerate m s :
  num_rows m ≤ 0 ∨ num_cols m ≤ 0 →
  create_loops m s
  = Ok (tt, set_cells (cells s ++ replicate (Z.to_nat (num_cols m)) []) s).
Proof.
  intros [HR|HC]; unfold create_loops.
  - unfold range at 1. by apply create_columns_only.
  - unfold range at 1. replace (Z.to_nat (num_cols m)) with 0%nat by lia.
    simpl. by rewrite app_nil_r, set_cells_id.
Qed.

(** C7: when [num_rows <= 0] or [num_cols <= 0] the constructor ends
    without error; no wall flag has been assigned (neither by a carver
    nor for the entrance and the exit), nothing has been drawn, the
    solver has not run, and the grid has no cell: it is [num_cols]
    empty columns, or no column at all. *)
Theorem nonpositive_dimensions_give_empty_maze seeded random0 fuel window
    num_rows num_cols cell_size_x cell_size_y x1 y1 seed :
  num_rows ≤ 0 ∨ num_cols ≤ 0 →
  ∃ s,
    Maze__init__ seeded random0 fuel window num_rows num_cols
      cell_size_x cell_size_y x1 y1 seed
    = Ok (mkMaze x1 y1 num_rows num_cols cell_size_x cell_size_y seed, None, s) ∧
    cells s = replicate (Z.to_nat num_cols) [] ∧
    wall_log s = [] ∧ moves s = [] ∧ win s = window.
Proof.
  intros Hdim. unfold Maze__init__.
  set (m := mkMaze x1 y1 num_rows num_cols cell_size_x cell_size_y seed).
  unfold create_cells.
  rewrite bind_assoc.
  rewrite (bind_ok _ _ _ _ _
    (create_loops_degenerate m (initial_state window random0) Hdim)).
  replace (_ && _) with false by (simpl; destruct Hdim; lia).
  unfold bind, ret, seed_random. simpl.
  destruct seed as [z|]; [destruct (z =? 0)|]; simpl;
    (eexists; split_and!; reflexivity).
Qed.

Lemma nonpositive_dimensions_give_empty_maze_witness :
  (0 ≤ 0 ∨ 3 ≤ 0) ∧
  ∃ s,
    Maze__init__ (λ _, []) [5; 7]%nat 0 None 0 3 10 10 0 0 (Some 42)
    = Ok (mkMaze 0 0 0 3 10 10 (Some 42), None, s) ∧
    cells s = replicate (Z.to_nat 3) [] ∧
    wall_log s = [] ∧ moves s = [] ∧ win s = None.
Proof.
  split; [left; lia|].
  apply nonpositive_dimensions_give_empty_maze. left. lia.
Defined.

(** * The one-cell maze *)

Lemma wf_one_cell m g :
  wf m g → num_cols m = 1 → num_rows m = 1 → g = [[cell g (0, 0)]].
Proof.
  intros [Hl Hc] HC HR.
  destruct g as [|col [|? ?]]; simpl in Hl; try lia.
  specialize (Hc col ltac:(by left)).
  destruct col as [|c [|? ?]]; simpl in Hc; try lia. done.
Qed.

Lemma solve_r_at_exit m fuel s i j :
  wf m (cells s) → inb m (i, j) → is_Some (win s) →
  i + 1 = num_cols m → j + 1 = num_rows m →
  solve_r m (S fuel) i j s
  = Ok (true, set_cells (upd (cells s) (i, j) (with_visited true)) s).
Proof.
  intros Hwf Hin Hw Hi Hj. simpl.
  rewrite (bind_ok _ _ _ _ _ (animate_ok s Hw)).
  rewrite (bind_ok _ _ _ _ _ (update_cell_ok m s i j _ Hwf Hin)).
  by rewrite Hi, Hj, !Z.eqb_refl.
Qed.

Lemma seed_random_ok seeded seed s :
  ∃ s', seed_random seeded seed s = Ok (tt, s') ∧
    cells s' = cells s ∧ win s' = win s ∧ wall_log s' = wall_log s ∧
    moves s' = moves s.
Proof.
  unfold seed_random. destruct seed as [z|]; [destruct (z =? 0)|];
    by eexists.
Qed.

(** X16: on a 1×1 grid with a window, construction ends without error;
    the only cell has lost its top wall and its bottom wall and kept
    the two others (two wall assignments have been made, no carve),
    [_solve_r] has returned [True], and no move has been drawn: the
    reported path is [(0, 0)] alone. *)
Theorem one_cell_maze seeded random0 fuel w cell_size_x cell_size_y x1 y1 seed :
  (2 < fuel)%nat →
  ∃ s,
    Maze__init__ seeded random0 fuel (Some w) 1 1
      cell_size_x cell_size_y x1 y1 seed
    = Ok (mkMaze x1 y1 1 1 cell_size_x cell_size_y seed, Some true, s) ∧
    (∃ c, cells s = [[c]] ∧
          has_top_wall c = false ∧ has_bottom_wall c = false ∧
          has_left_wall c = true ∧ has_right_wall c = true) ∧
    length (wall_log s) = 2%nat ∧
    moves s = [] ∧ reported_path s = [(0, 0)].
Proof.
  intros Hfuel. unfold Maze__init__.
  set (m := mkMaze x1 y1 1 1 cell_size_x cell_size_y seed).
  set (s0 := initial_state (Some w) random0).
  assert (H0 : inb m (0, 0)) by (split; simpl; lia).
  destruct (generation_ok m fuel s0) as (s1 & Hrun1 & Hinv & Hv & Hk1);
    [simpl; lia..|done|done|simpl; lia|].
  pose proof (ti_wf _ _ _ (gi_tree _ _ _ _ Hinv)) as Hwf1.
  destruct (reset_loops_ok m s1 Hwf1)
    as (s2 & Hrun2 & Hwf2 & (Hl2 & _ & Hm2 & _) & Hw2 & Hc2).
  assert (Hwin : is_Some (win s2)).
  { rewrite Hw2. apply Hk1. by eexists. }
  destruct fuel as [|fuel]; [lia|].
  set (s3 := set_cells (upd (cells s2) (0, 0) (with_visited true)) s2).
  assert (Hcreate : create_cells m (S fuel) s0 = Ok (Some true, s3)).
  { rewrite create_cells_phases by (simpl; lia).
    rewrite (bind_ok _ _ _ _ _ Hrun1), (bind_ok _ _ _ _ _ Hrun2).
    unfold solve. change (num_cols m * num_rows m <? 1000) with true. cbv iota.
    by rewrite (bind_ok _ _ _ _ _ (solve_r_at_exit m fuel s2 0 0 Hwf2 H0 Hwin
                                     eq_refl eq_refl)). }
  rewrite (bind_ok _ _ _ _ _ Hcreate).
  assert (Hcell : cell (cells s3) (0, 0)
                  = with_visited true (with_visited false (cell (cells s1) (0, 0)))).
  { unfold s3. simpl cells. by rewrite (cell_upd_eq m), Hc2. }
  assert (Hm3 : moves s3 = []).
  { simpl. rewrite Hm2. by destruct Hk1 as [-> _]. }
  assert (Hlog3 : length (wall_log s3) = 2%nat).
  { simpl. rewrite Hl2, (gi_logged _ _ _ _ Hinv).
    pose proof (st_count _ _ (spanning_tree_inv m _ ltac:(simpl; lia)
      ltac:(simpl; lia) (gi_tree _ _ _ _ Hinv) Hv)) as Hn.
    change (num_rows m * num_cols m - 1) with 0 in Hn. lia. }
  destruct (seed_random_ok seeded seed s3) as (s & Hseed & Hcs & _ & Hls & Hms).
  rewrite (bind_ok _ _ _ _ _ Hseed). unfold ret.
  exists s. split; [done|]. split_and!.
  - exists (cell (cells s3) (0, 0)). split.
    + rewrite Hcs. apply (wf_one_cell m); [by apply wf_upd|done..].
    + rewrite Hcell. simpl.
      pose proof (gi_entrance _ _ _ _ Hinv H0) as Ht.
      pose proof (gi_exit _ _ _ _ Hinv H0) as Hb.
      pose proof (gi_border _ _ _ _ Hinv (0, 0)) as Hbo.
      split_and!; [done|done|..].
      * destruct (has_left_wall _) eqn:E; [done|].
        destruct (Hbo Left H0) as [[_ ?]|[_ ?]]; [|done..].
        intros [Hx Hy]; simpl in Hx, Hy; lia.
      * destruct (has_right_wall _) eqn:E; [done|].
        destruct (Hbo Right H0) as [[_ ?]|[_ ?]]; [|done..].
        intros [Hx Hy]; simpl in Hx, Hy; lia.
  - by rewrite Hls.
  - by rewrite Hms.
  - unfold reported_path, red_segments. by rewrite Hms, Hm3.
Qed.

Lemma one_cell_maze_witness :
  (2 < 3)%nat ∧
  ∃ s,
    Maze__init__ (λ _, []) [] 3 (Some (mkWindow 800 600 false [])) 1 1
      10 10 0 0 None
    = Ok (mkMaze 0 0 1 1 10 10 None, Some true, s) ∧
    (∃ c, cells s = [[c]] ∧
          has_top_wall c = false ∧ has_bottom_wall c = false ∧
          has_left_wall c = true ∧ has_right_wall c = true) ∧
    length (wall_log s) = 2%nat ∧
    moves s = [] ∧ reported_path s = [(0, 0)].
Proof. split; [lia|]. apply one_cell_maze. lia. Defined.

(** C9: a 1×1 grid built without a window.  Generation does what the
    claim says: it ends without error and leaves the only cell without
    its top wall and without its bottom wall, the two others standing.
    Then [_solve_r] runs, and its first statement, the call of
    [_animate], raises [AttributeError]: the constructor ends with
    that exception, and the solver returns no path. *)
Theorem one_cell_maze_without_window seeded random0 fuel
    cell_size_x cell_size_y x1 y1 seed :
  (2 < fuel)%nat →
  (∃ s c,
     generation (mkMaze x1 y1 1 1 cell_size_x cell_size_y seed) fuel
       (initial_state None random0) = Ok (tt, s) ∧
     cells s = [[c]] ∧
     has_top_wall c = false ∧ has_bottom_wall c = false ∧
     has_left_wall c = true ∧ has_right_wall c = true) ∧
  Maze__init__ seeded random0 fuel None 1 1 cell_size_x cell_size_y x1 y1 seed
  = Raise AttributeError.
Proof.
  intros Hfuel. unfold Maze__init__.
  set (m := mkMaze x1 y1 1 1 cell_size_x cell_size_y seed).
  set (s0 := initial_state None random0).
  assert (H0 : inb m (0, 0)) by (split; simpl; lia).
  destruct (generation_ok m fuel s0) as (s1 & Hrun1 & Hinv & Hv & Hk1);
    [simpl; lia..|done|done|simpl; lia|].
  pose proof (ti_wf _ _ _ (gi_tree _ _ _ _ Hinv)) as Hwf1.
  split.
  - (* generation *)
    exists s1, (cell (cells s1) (0, 0)). split; [exact Hrun1|]. split.
    { by apply (wf_one_cell m). }
    pose proof (gi_entrance _ _ _ _ Hinv H0) as Ht.
    pose proof (gi_exit _ _ _ _ Hinv H0) as Hb.
    pose proof (gi_border _ _ _ _ Hinv (0, 0)) as Hbo.
    split_and!; [done|done|..].
    + destruct (has_left_wall _) eqn:E; [done|].
      destruct (Hbo Left H0) as [[_ ?]|[_ ?]]; [|done..].
      intros [Hx Hy]; simpl in Hx, Hy; lia.
    + destruct (has_right_wall _) eqn:E; [done|].
      destruct (Hbo Right H0) as [[_ ?]|[_ ?]]; [|done..].
      intros [Hx Hy]; simpl in Hx, Hy; lia.
  - (* the solver *)
    destruct (reset_loops_ok m s1 Hwf1) as (s2 & Hrun2 & _ & _ & Hw2 & _).
    assert (Hwin : win s2 = None).
    { rewrite Hw2. destruct Hk1 as [_ [Hk1 _]]. destruct (win s1) as [w|]; [|done].
      destruct Hk1 as [? Hk1]; [by exists w|]. simpl in Hk1. congruence. }
    assert (Hcreate : create_cells m fuel s0 = Raise AttributeError).
    { rewrite create_cells_phases by (simpl; lia).
      rewrite (bind_ok _ _ _ _ _ Hrun1), (bind_ok _ _ _ _ _ Hrun2).
      unfold solve. change (num_cols m * num_rows m <? 1000) with true. cbv iota.
      destruct fuel as [|fuel]; [lia|]. simpl.
      unfold bind at 1. unfold bind at 1. unfold animate. by rewrite Hwin. }
    unfold bind at 1. by rewrite Hcreate.
Qed.

Lemma one_cell_maze_without_window_witness :
  (2 < 3)%nat ∧
  (∃ s c,
     generation (mkMaze 0 0 1 1 10 10 None) 3 (initial_state None [])
     = Ok (tt, s) ∧
     cells s = [[c]] ∧
     has_top_wall c = false ∧ has_bottom_wall c = false ∧
     has_left_wall c = true ∧ has_right_wall c = true) ∧
  Maze__init__ (λ _, []) [] 3 None 1 1 10 10 0 0 None = Raise AttributeError.
Proof. split; [lia|]. apply one_cell_maze_without_window. lia. Defined.

(** * The solvers *)

Lemma holds_Ok P r :
  holds P r = true → ∃ m b s, r = Ok (m, b, s) ∧ P m b s = true.
Proof.
  destruct r as [[[m b] s]| |]; simpl; [|done..]. intros H. by exists m, b, s.
Qed.

Lemma not_adjacent_not_passage m g a b :
  (∀ d, b ≠ step d a) → ¬ passage m g a b.
Proof. intros H (_ & _ & d & Hd & _). by apply (H d). Qed.

(** C2: a run of the constructor on a grid of 32 by 32 cells, which
    the iterative solver handles.  The run ends without error, but
    the solver has returned no value, and the cells it reports are no
    path: the report starts (0,0), (1,0), (0,1), and (0,1) is not next
    to (1,0), so no passage joins them. *)
Theorem iterative_solver_reports_no_path :
  ∃ m s,
    Maze__init__ (λ _, []) [] 2100 (Some (mkWindow 1920 1080 false []))
      32 32 10 10 0 0 None = Ok (m, None, s) ∧
    take 3 (reported_path s) = [(0, 0); (1, 0); (0, 1)] ∧
    ¬ passage m (cells s) (1, 0) (0, 1) ∧
    ¬ valid_path m (cells s) (reported_path s).
Proof.
  destruct (holds_Ok
    (λ m b s, bool_decide (b = None) &&
              bool_decide (take 3 (reported_path s) = [(0, 0); (1, 0); (0, 1)]))
    (Maze__init__ (λ _, []) [] 2100 (Some (mkWindow 1920 1080 false []))
       32 32 10 10 0 0 None)) as (m & b & s & Hrun & H).
  { vm_compute. reflexivity. }
  apply andb_prop in H as [Hb Ht].
  apply bool_decide_eq_true in Hb. subst b.
  exists m, s. split; [exact Hrun|]. clear Hrun.
  apply bool_decide_eq_true in Ht.
  assert (Hn : ¬ passage m (cells s) (1, 0) (0, 1)).
  { apply not_adjacent_not_passage. by intros []. }
  split; [exact Ht|]. split; [exact Hn|].
  intros (_ & _ & Hp). apply Hn, (Hp 1%nat).
  - by rewrite <- (lookup_take_lt _ 3), Ht by lia.
  - by rewrite <- (lookup_take_lt _ 3), Ht by lia.
Qed.

(** C5: in a run on a grid of 25 rows and 40 columns, which the
    iterative solver handles, the cell (0,1) is a dead end: its only
    opening is its top wall, and it is neither the entrance nor the
    exit.  The solver has moved into it from (0,0); that move is
    still drawn in red at the end, the cell is in the reported path,
    and no move at all has been undone. *)
Theorem iterative_solver_keeps_dead_end :
  ∃ m b s,
    Maze__init__ (λ _, []) [] 2100 (Some (mkWindow 1920 1080 false []))
      25 40 10 10 0 0 None = Ok (m, b, s) ∧
    openings (cell (cells s) (0, 1)) = 1%nat ∧
    has_top_wall (cell (cells s) (0, 1)) = false ∧
    ((0, 0), (0, 1)) ∈ red_segments s ∧
    (0, 1) ∈ reported_path s ∧
    undone s = [].
Proof.
  destruct (holds_Ok
    (λ m b s,
       bool_decide (openings (cell (cells s) (0, 1)) = 1%nat) &&
       negb (has_top_wall (cell (cells s) (0, 1))) &&
       bool_decide (((0, 0), (0, 1)) ∈ red_segments s) &&
       bool_decide ((0, 1) ∈ reported_path s) &&
       bool_decide (undone s = []))
    (Maze__init__ (λ _, []) [] 2100 (Some (mkWindow 1920 1080 false []))
       25 40 10 10 0 0 None)) as (m & b & s & Hrun & H).
  { vm_compute. reflexivity. }
  exists m, b, s. split; [exact Hrun|]. clear Hrun.
  repeat (apply andb_prop in H as [H ?]).
  apply negb_true_iff in H3.
  apply bool_decide_eq_true in H.
  apply bool_decide_eq_true in H2.
  apply bool_decide_eq_true in H1.
  apply bool_decide_eq_true in H0.
  split; [exact H|]. split; [exact H3|]. split; [exact H2|].
  split; [exact H1|exact H0].
Qed.

(** C4: two runs of the constructor with the same seed, 42, and the
    same dimensions, 2 by 2, that start from two states of the
    generator of the [random] module.  Both end without error; the
    wall layouts differ (the cell (0,1) keeps its right wall in one
    run and loses it in the other) and so do the reported paths.
    Whatever seeding does to the generator, it is done after the maze
    has been generated and solved. *)
Theorem same_seed_different_mazes seeded :
  ∃ m r s r' s',
    Maze__init__ seeded [] 20 (Some (mkWindow 1920 1080 false []))
      2 2 10 10 0 0 (Some 42) = Ok (m, r, s) ∧
    Maze__init__ seeded [1; 1; 1; 1]%nat 20 (Some (mkWindow 1920 1080 false []))
      2 2 10 10 0 0 (Some 42) = Ok (m, r', s') ∧
    has_right_wall (cell (cells s) (0, 1)) = true ∧
    has_right_wall (cell (cells s') (0, 1)) = false ∧
    reported_path s = [(0, 0); (1, 0); (1, 1)] ∧
    reported_path s' = [(0, 0); (0, 1); (1, 1)] ∧
    random s = seeded 42 ∧ random s' = seeded 42.
Proof.
  do 5 eexists. split_and!; [vm_compute; reflexivity..].
Qed.

(** C3: without a window ([win] is [None]), on every grid of fewer
    than 1000 cells with [R, C ≥ 1], the maze is generated and the
    first statement of [_solve_r], the call of [_animate], raises
    [AttributeError]; the constructor ends with that exception. *)
Theorem solver_without_window_raises seeded random0 fuel
    num_rows num_cols cell_size_x cell_size_y x1 y1 seed :
  1 ≤ num_rows → 1 ≤ num_cols → num_rows * num_cols < 1000 →
  (2 * Z.to_nat (num_rows * num_cols) < fuel)%nat →
  Maze__init__ seeded random0 fuel None num_rows num_cols
    cell_size_x cell_size_y x1 y1 seed = Raise AttributeError.
Proof.
  intros HR HC Hsmall Hfuel. unfold Maze__init__.
  set (m := mkMaze x1 y1 num_rows num_cols cell_size_x cell_size_y seed).
  set (s0 := initial_state None random0).
  destruct (generation_ok m fuel s0) as (s1 & Hrun1 & Hinv & _ & Hk1);
    [done..|].
  pose proof (ti_wf _ _ _ (gi_tree _ _ _ _ Hinv)) as Hwf1.
  destruct (reset_loops_ok m s1 Hwf1) as (s2 & Hrun2 & _ & _ & Hw2 & _).
  assert (Hwin : win s2 = None).
  { rewrite Hw2. destruct Hk1 as [_ [Hk1 _]]. destruct (win s1) as [w|]; [|done].
    destruct Hk1 as [? Hk1]; [by exists w|]. simpl in Hk1. congruence. }
  assert (Hcreate : create_cells m fuel s0 = Raise AttributeError).
  { rewrite create_cells_phases by (simpl; lia).
    rewrite (bind_ok _ _ _ _ _ Hrun1), (bind_ok _ _ _ _ _ Hrun2).
    unfold solve. replace (_ <? 1000) with true by (simpl; lia).
    destruct fuel as [|fuel]; [lia|]. simpl.
    unfold bind at 1. unfold bind at 1. unfold animate. by rewrite Hwin. }
  unfold bind at 1. by rewrite Hcreate.
Qed.

Lemma solver_without_window_raises_witness :
  1 ≤ 2 ∧ 1 ≤ 3 ∧ 2 * 3 < 1000 ∧ (2 * Z.to_nat (2 * 3) < 13)%nat ∧
  Maze__init__ (λ _, []) [] 13 None 2 3 10 10 0 0 None = Raise AttributeError.
Proof.
  split; [lia|]. split; [lia|]. split; [lia|]. split; [lia|].
  apply solver_without_window_raises; lia.
Defined.

(** * Drawing *)

Lemma draw_line_paint l col s w :
  win s = Some w → draw_line l col s = Ok (tt, set_win (Some (paint [(l, col)] w)) s).
Proof. intros Hw. unfold draw_line. by rewrite Hw. Qed.

Lemma draw_line_None l col s : win s = None → draw_line l col s = Raise AttributeError.
Proof. intros Hw. unfold draw_line. by rewrite Hw. Qed.

Lemma cell_upd_at g c f : has_cell g c → cell (upd g c f) c = f (cell g c).
Proof.
  intros (_ & _ & Hc). unfold cell, upd.
  destruct (g !! Z.to_nat c.1) as [col|] eqn:Hcol; [|by destruct Hc].
  simpl in Hc. destruct Hc as [x Hx].
  rewrite list_lookup_alter_eq, Hcol. simpl.
  by rewrite list_lookup_alter_eq, Hx.
Qed.

Lemma cell_upd_other g c c' f :
  0 ≤ c.1 → 0 ≤ c.2 → 0 ≤ c'.1 → 0 ≤ c'.2 → c ≠ c' →
  cell (upd g c f) c' = cell g c'.
Proof.
  intros H1 H2 H3 H4 Hne. unfold cell, upd.
  destruct (decide (Z.to_nat c.1 = Z.to_nat c'.1)) as [E|E].
  - rewrite E, list_lookup_alter_eq.
    destruct (g !! Z.to_nat c'.1) as [col|]; [|done]. simpl.
    rewrite list_lookup_alter_ne; [done|].
    intros E2. apply Hne. destruct c, c'; simpl in *. f_equal; lia.
  - by rewrite list_lookup_alter_ne.
Qed.

(** X9: [Cell.draw] on a cell of the grid, with a window: the corners
    are recorded in the cell, and the four sides of the rectangle are
    drawn on the canvas, left, right, top and bottom, each one in black
    when the wall flag of the cell is set and in white when it is not;
    nothing else changes. *)
Theorem Cell_draw_paints_walls s i j a1 b1 a2 b2 w :
  has_cell (cells s) (i, j) → win s = Some w →
  Cell_draw i j a1 b1 a2 b2 s
  = Ok (tt, mkState (upd (cells s) (i, j) (with_coords a1 b1 a2 b2))
              (Some (paint (wall_lines (cell (cells s) (i, j)) a1 b1 a2 b2) w))
              (random s) (wall_log s) (moves s)).
Proof.
  intros Hin Hw. unfold Cell_draw.
  set (s1 := set_cells (upd (cells s) (i, j) (with_coords a1 b1 a2 b2)) s).
  assert (Hin1 : has_cell (cells s1) (i, j)) by (by apply has_cell_upd).
  rewrite (bind_ok _ _ _ _ _ (update_cell_at s i j _ Hin)). fold s1.
  rewrite (bind_ok _ _ _ _ _ (has_window_ok s1)).
  rewrite bool_decide_true by (simpl; rewrite Hw; by eexists).
  rewrite (bind_ok _ _ _ _ _ (get_cell_at s1 i j Hin1)).
  simpl cells. rewrite cell_upd_at by done.
  erewrite bind_ok; [|by apply draw_line_paint].
  erewrite bind_ok; [|by apply draw_line_paint].
  erewrite bind_ok; [|by apply draw_line_paint].
  erewrite draw_line_paint by done.
  reflexivity.
Qed.

Lemma set_dirs_at s a k b tk v :
  has_cell (cells s) a → has_cell (cells s) b →
  set_dirs a.1 a.2 k b.1 b.2 tk v s
  = Ok (tt, set_cells (upd (upd (cells s) a (with_dir k v)) b (with_dir tk v)) s).
Proof.
  intros Ha Hb. destruct a as [i j], b as [ti tj]. unfold set_dirs. simpl.
  rewrite (bind_ok _ _ _ _ _ (update_cell_at s i j _ Ha)).
  rewrite update_cell_at by (by apply has_cell_upd). done.
Qed.

(** A move that is not undone: the segment between the centres of the
    two cells is drawn in red and logged; no cell changes. *)
Lemma draw_move_red s a b w :
  has_cell (cells s) a → has_cell (cells s) b → win s = Some w →
  draw_move a.1 a.2 b.1 b.2 false s
  = Ok (tt, mkState (cells s)
              (Some (paint [(Line.make (centre (cell (cells s) a))
                                       (centre (cell (cells s) b)), "red")] w))
              (random s) (wall_log s) ((a, b, false) :: moves s)).
Proof.
  intros Ha Hb Hw. destruct a as [i j], b as [ti tj]. unfold draw_move.
  simpl fst. simpl snd.
  rewrite (bind_ok _ _ _ _ _ (get_cell_at s i j Ha)).
  rewrite (bind_ok _ _ _ _ _ (get_cell_at s ti tj Hb)).
  change (negb false) with true. cbv iota.
  erewrite bind_ok; [|by apply draw_line_paint]. reflexivity.
Qed.

Lemma draw_move_None s a b undo :
  has_cell (cells s) a → has_cell (cells s) b → win s = None →
  draw_move a.1 a.2 b.1 b.2 undo s = Raise AttributeError.
Proof.
  intros Ha Hb Hw. destruct a as [i j], b as [ti tj]. unfold draw_move.
  simpl fst. simpl snd.
  rewrite (bind_ok _ _ _ _ _ (get_cell_at s i j Ha)).
  rewrite (bind_ok _ _ _ _ _ (get_cell_at s ti tj Hb)).
  destruct undo; simpl; unfold bind at 1; by rewrite draw_line_None.
Qed.

(** An undone move between two neighbours that lie where [__draw_cell]
    puts them, the cells having a positive size. *)
Lemma draw_move_undo m s a d w :
  0 < cell_size_x m → 0 < cell_size_y m →
  has_cell (cells s) a → has_cell (cells s) (step d a) →
  placed m a (cell (cells s) a) →
  placed m (step d a) (cell (cells s) (step d a)) →
  win s = Some w →
  draw_move a.1 a.2 (step d a).1 (step d a).2 true s
  = Ok (tt, mkState (upd (upd (cells s) a (with_dir (key d) false))
                         (step d a) (with_dir (key (opp d)) false))
              (Some (paint [(Line.make (centre (cell (cells s) a))
                                       (centre (cell (cells s) (step d a))),
                             "gray")] w))
              (random s) (wall_log s) ((a, step d a, true) :: moves s)).
Proof.
  intros Hx Hy Ha Hb (Pa1 & Pa2 & _) (Pb1 & Pb2 & _) Hw.
  destruct a as [i j]. destruct (step d (i, j)) as [ti tj] eqn:Hs.
  simpl fst in *. simpl snd in *. unfold draw_move.
  rewrite (bind_ok _ _ _ _ _ (get_cell_at s i j Ha)).
  rewrite (bind_ok _ _ _ _ _ (get_cell_at s ti tj Hb)).
  change (negb true) with false. cbv iota.
  erewrite bind_ok; [|by apply draw_line_paint].
  erewrite bind_ok; [|reflexivity].
  rewrite Pa1, Pa2, Pb1, Pb2.
  match goal with |- bind _ _ ?st = _ => set (s1 := st) end.
  assert (Hset : ∀ k tk, set_dirs i j k ti tj tk false s1
    = Ok (tt, set_cells (upd (upd (cells s) (i, j) (with_dir k false))
                             (ti, tj) (with_dir tk false)) s1)).
  { intros k tk. by apply (set_dirs_at s1 (i, j) k (ti, tj) tk false). }
  destruct d; injection Hs as <- <-; simpl key; simpl opp.
  - replace (_ >? _) with true by nia. replace (_ <? _) with false by nia.
    replace (_ >? _) with false by lia. replace (_ <? _) with false by lia.
    rewrite (bind_ok _ _ _ _ _ (Hset _ _)). reflexivity.
  - replace (_ >? _) with false by nia. replace (_ <? _) with true by nia.
    replace (_ >? _) with false by lia. replace (_ <? _) with false by lia.
    unfold bind at 1. unfold ret at 1.
    rewrite (bind_ok _ _ _ _ _ (Hset _ _)). reflexivity.
  - replace (_ >? _) with false by lia. replace (_ <? _) with false by lia.
    replace (_ >? _) with true by nia. replace (_ <? _) with false by nia.
    unfold bind at 1. unfold ret at 1. unfold bind at 1. unfold ret at 1.
    rewrite (bind_ok _ _ _ _ _ (Hset _ _)). reflexivity.
  - replace (_ >? _) with false by lia. replace (_ <? _) with false by lia.
    replace (_ >? _) with false by nia. replace (_ <? _) with true by nia.
    unfold bind at 1. unfold ret at 1. unfold bind at 1. unfold ret at 1.
    unfold bind at 1. unfold ret at 1.
    rewrite Hset. reflexivity.
Qed.

(** * Invariants of the small-grid carver *)

Lemma draw_cell_run m s i j :
  wf m (cells s) → inb m (i, j) →
  ∃ s', draw_cell m i j s = Ok (tt, s') ∧
    cells s' = upd (cells s) (i, j) (place m (i, j)) ∧
    wall_log s' = wall_log s ∧ random s' = random s ∧ keeps s s'.
Proof.
  intros Hwf Hin. unfold draw_cell.
  edestruct (Cell_draw_ok m s i j) as (s' & Hd & Hc & Hl & Hr & Hk); [done..|].
  rewrite (bind_ok _ _ _ _ _ Hd).
  rewrite (bind_ok _ _ _ _ _ (has_window_ok s')).
  exists s'. split; [|done].
  case_bool_decide; try done. by apply animate_ok.
Qed.

(** A property of the grid that each step of [__break_walls_r] keeps
    is kept by a run of it. *)
Section carver_r_invariant.
Context (m : Maze) (Q : Grid → Prop).
Hypothesis Q_mark : ∀ g c,
  wf m g → inb m c → Q g → Q (upd g c (with_visited true)).
Hypothesis Q_draw : ∀ g c,
  wf m g → inb m c → Q g → Q (upd g c (place m c)).
Hypothesis Q_carve : ∀ s a d,
  gen_inv false m s None → inb m a → visited (cell (cells s) a) = true →
  allowed false m d a → visited (cell (cells s) (step d a)) = false →
  Q (cells s) → Q (carve (cells s) a d).

Lemma break_walls_r_keeps fuel :
  (∀ s a s', gen_inv false m s (Some a) → inb m a →
     visited (cell (cells s) a) = false →
     (2 * unvisited_count m (cells s) ≤ fuel)%nat →
     break_walls_r m fuel a.1 a.2 s = Ok (tt, s') →
     Q (cells s) → Q (cells s')) ∧
  (∀ s a s', gen_inv false m s None → inb m a →
     visited (cell (cells s) a) = true →
     (2 * unvisited_count m (cells s) + 1 ≤ fuel)%nat →
     break_walls_r_while m fuel a.1 a.2 s = Ok (tt, s') →
     Q (cells s) → Q (cells s')).
Proof.
  induction fuel as [|f [IH1 IH2]].
  { split; intros s a s' Hinv Ha Hv Hf; [|lia].
    pose proof (unvisited_count_pos m _ a Ha Hv). lia. }
  split; intros s [i j] s' Hinv Ha Hv Hf; simpl fst; simpl snd.
  - pose proof (ti_wf _ _ _ (gi_tree _ _ _ _ Hinv)) as Hwf.
    rewrite break_walls_r_S.
    set (s1 := set_cells (upd (cells s) (i, j) (with_visited true)) s).
    rewrite (bind_ok _ _ _ _ _ (update_cell_ok m s i j _ Hwf Ha)). fold s1.
    intros Hrun HQ.
    assert (Hinv1 : gen_inv false m s1 None) by (by eapply gen_inv_mark).
    assert (Hv1 : ∀ c, inb m c → visited (cell (cells s1) c)
                = if decide ((i, j) = c) then true else visited (cell (cells s) c)).
    { intros c Hc. by apply (visited_upd_mark m). }
    assert (Hg1 : grows m (cells s) (cells s1)).
    { intros c Hc Hvc. rewrite Hv1 by done. by case_decide. }
    assert (Hlt : (unvisited_count m (cells s1) < unvisited_count m (cells s))%nat).
    { apply (unvisited_count_lt m _ _ (i, j)); [done..|].
      rewrite Hv1 by done. by rewrite decide_True. }
    apply (IH2 s1 (i, j) s'); [done|done| |lia|done|].
    + rewrite Hv1 by done. by rewrite decide_True.
    + by apply Q_mark.
  - pose proof (ti_wf _ _ _ (gi_tree _ _ _ _ Hinv)) as Hwf.
    rewrite break_walls_r_while_S.
    rewrite (bind_ok _ _ _ _ _ (need_to_visit_ok m s i j Hwf Ha)).
    destruct (candidates false m (cells s) (i, j)) as [|x l] eqn:Hcand.
    + destruct (draw_cell_run m s i j Hwf Ha) as (s0 & Hrun0 & Hcells & _).
      rewrite Hrun0. intros [= <-] HQ. rewrite Hcells. by apply Q_draw.
    + destruct (choice_ok (x :: l) s) as (b & s1 & Hch & Hb & Hc1 & Hl1 & Hk1);
        [done|].
      rewrite (bind_ok _ _ _ _ _ Hch).
      rewrite <- Hcand in Hb.
      apply elem_of_candidates in Hb as (d & -> & Hd & Hvb).
      assert (Hbin : inb m (step d (i, j))) by (by eapply allowed_inb).
      assert (Hinv1 : gen_inv false m s1 None) by (by eapply gen_inv_ext).
      assert (Hwf1 : wf m (cells s1)) by (by rewrite Hc1).
      pose proof (connect_r_ok m s1 (i, j) d Hwf1 Ha Hbin) as Hcon.
      intros Hrun HQ.
      assert (HQ2 : Q (carve (cells s1) (i, j) d)).
      { apply Q_carve; [done|done|by rewrite Hc1|done|by rewrite Hc1|by rewrite Hc1]. }
      destruct (step d (i, j)) as [ni nj] eqn:Hstep.
      simpl in Hcon. rewrite (bind_ok _ _ _ _ _ Hcon) in Hrun.
      match type of Hcon with _ = Ok (_, ?st) => set (s2 := st) in * end.
      assert (Hinv2 : gen_inv false m s2 (Some (ni, nj))).
      { pose proof (gen_inv_carve m s1 s2 (i, j) d) as H. rewrite Hstep in H.
        apply H; [done|done|done|by rewrite Hc1|by rewrite Hc1|done|done]. }
      assert (Hwf2 : wf m (cells s2)) by apply Hinv2.
      destruct (draw_cell_run m s2 i j Hwf2 Ha)
        as (s3 & Hrun3 & Hcells3 & Hlog3 & _ & Hk3).
      rewrite (bind_ok _ _ _ _ _ Hrun3) in Hrun.
      assert (Hinv3 : gen_inv false m s3 (Some (ni, nj)))
        by (by eapply (gen_inv_coords _ _ s2 s3 _ (i, j))).
      assert (Hwf3 : wf m (cells s3)) by apply Hinv3.
      destruct (draw_cell_run m s3 ni nj Hwf3 Hbin)
        as (s4 & Hrun4 & Hcells4 & Hlog4 & _ & Hk4).
      rewrite (bind_ok _ _ _ _ _ Hrun4) in Hrun.
      assert (Hinv4 : gen_inv false m s4 (Some (ni, nj)))
        by (by eapply (gen_inv_coords _ _ s3 s4 _ (ni, nj))).
      assert (Hsame : ∀ c, inb m c →
                visited (cell (cells s4) c) = visited (cell (cells s) c)).
      { intros c Hc. rewrite Hcells4. unfold place.
        rewrite (visited_upd_coords m) by done.
        rewrite Hcells3. unfold place. rewrite (visited_upd_coords m) by done.
        simpl. rewrite (visited_carve m), Hc1; try done.
        by rewrite Hstep. }
      assert (Hu4 : unvisited_count m (cells s4) = unvisited_count m (cells s))
        by (by apply unvisited_count_same).
      assert (HQ4 : Q (cells s4)).
      { rewrite Hcells4. apply Q_draw; [done..|].
        rewrite Hcells3. by apply Q_draw. }
      destruct (break_walls_r_ok m f) as [Hok _].
      destruct (Hok s4 (ni, nj)) as (s5 & Hrun5 & [Hi5 Hg5 Hk5 Hc5] & Hv5);
        [done|done|by rewrite Hsame|lia|].
      simpl in Hrun5. rewrite (bind_ok _ _ _ _ _ Hrun5) in Hrun.
      assert (Hu5 : (unvisited_count m (cells s5) < unvisited_count m (cells s4))%nat).
      { apply (unvisited_count_lt m _ _ (ni, nj)); [done..|by rewrite Hsame|done]. }
      assert (HQ5 : Q (cells s5)).
      { apply (IH1 s4 (ni, nj) s5); [done|done|by rewrite Hsame|lia|done|done]. }
      apply (IH2 s5 (i, j) s'); [done|done| |lia|done|done].
      apply Hg5; [done|]. by rewrite Hsame.
Qed.

End carver_r_invariant.

(** ** The top row and the left column *)

Lemma reached_opening m g c :
  tree_inv m g None → inb m c → visited (cell g c) = true → c ≠ (0, 0) →
  has_opening m g c.
Proof.
  intros Ht Hc Hv Hne.
  pose proof (ti_conn _ _ _ Ht c Hc (or_introl Hv)) as Hr.
  apply rtc_inv_r in Hr as [?|(y & _ & Hy & _ & d & -> & _ & Hw)]; [congruence|].
  exists (opp d). by rewrite step_opp.
Qed.

Lemma unvisited_no_opening m g c :
  tree_inv m g None → inb m c → visited (cell g c) = false →
  ¬ has_opening m g c.
Proof.
  intros Ht Hc Hv (d & Hs & Hw).
  destruct (ti_ends _ _ _ Ht c d Hc Hs Hw) as [[?|?] _]; congruence.
Qed.

Lemma corridors_same_walls m g g' :
  (∀ c d, inb m c → wall d (cell g' c) = wall d (cell g c)) →
  corridors m g → corridors m g'.
Proof.
  intros Hw H c Hc (d & Hs & Ho). rewrite !Hw by done.
  apply H; [done|]. exists d. by rewrite <- Hw.
Qed.

Lemma corridors_upd m g c f :
  wf m g → inb m c → (∀ x d, wall d (f x) = wall d x) →
  corridors m g → corridors m (upd g c f).
Proof.
  intros Hwf Hc Hf. apply corridors_same_walls.
  intros c' d Hc'. rewrite (cell_upd m) by done. case_decide; by rewrite ?Hf.
Qed.

Lemma corridors_carve m s a d :
  gen_inv false m s None → inb m a → visited (cell (cells s) a) = true →
  allowed false m d a → visited (cell (cells s) (step d a)) = false →
  corridors m (cells s) → corridors m (carve (cells s) a d).
Proof.
  intros Hinv Ha Hva Hd Hvb Hco.
  pose proof (gi_tree _ _ _ _ Hinv) as Ht.
  pose proof (ti_wf _ _ _ Ht) as Hwf.
  assert (Hb : inb m (step d a)) by (by eapply allowed_inb).
  pose proof (closed_wall_carve m _ a d Ha Hb Ht Hvb) as Hcl.
  assert (Hnb : ¬ has_opening m (cells s) (step d a))
    by (by apply (unvisited_no_opening m)).
  assert (Hopen : ∀ c d', inb m c → wall d' (cell (cells s) c) = false →
            wall d' (cell (carve (cells s) a d) c) = false).
  { intros c d' Hc Hw. rewrite (wall_carve m) by done. by case_decide. }
  assert (Hold : ∀ c, inb m c → has_opening m (cells s) c →
            (c.2 = 0 → 1 ≤ c.1 → wall Left (cell (carve (cells s) a d) c) = false) ∧
            (c.1 = 0 → 1 ≤ c.2 → wall Up (cell (carve (cells s) a d) c) = false)).
  { intros c Hc Ho. destruct (Hco c Hc Ho) as [H1 H2].
    split; intros; apply Hopen; auto. }
  assert (Hacorr : a ≠ (0, 0) → has_opening m (cells s) a)
    by (by apply (reached_opening m)).
  intros c Hc (d' & Hs & Ho).
  destruct (decide (c = step d a)) as [->|Hcb].
  - (* the cell that has just been connected *)
    destruct a as [i j]. destruct Ha as [Hi Hj]. simpl in Hi, Hj.
    rewrite !(wall_carve m) by (done || by split).
    destruct d; simpl in *.
    + (* left *)
      split; intros E1 E2.
      * assert (Ho' : has_opening m (cells s) (i, j))
          by (apply Hacorr; intros [=]; lia).
        destruct (Hco (i, j) ltac:(by split) Ho') as [H1 _].
        simpl in H1. rewrite H1 in Hcl by lia. done.
      * lia.
    + split; intros E1 E2; [by rewrite decide_True by auto|lia].
    + (* up *)
      split; intros E1 E2; [lia|].
      assert (Ho' : has_opening m (cells s) (i, j))
        by (apply Hacorr; intros [=]; lia).
      destruct (Hco (i, j) ltac:(by split) Ho') as [_ H2].
      simpl in H2. rewrite H2 in Hcl by lia. done.
    + split; intros E1 E2; [lia|by rewrite decide_True by auto].
  - destruct (decide (c = a)) as [->|Hca].
    + destruct (decide (a = (0, 0))) as [->|Hne].
      * split; simpl; lia.
      * by apply Hold, Hacorr.
    + apply Hold; [done|]. exists d'. split; [done|].
      rewrite (wall_carve m) in Ho by done.
      rewrite decide_False in Ho; [done|]. intros [[? _]|[? _]]; congruence.
Qed.

Lemma break_walls_r_corridors m fuel s s' :
  gen_inv false m s (Some (0, 0)) → inb m (0, 0) →
  visited (cell (cells s) (0, 0)) = false →
  (2 * unvisited_count m (cells s) ≤ fuel)%nat →
  break_walls_r m fuel 0 0 s = Ok (tt, s') →
  corridors m (cells s) → corridors m (cells s').
Proof.
  intros Hinv H0 Hv Hf Hrun.
  destruct (break_walls_r_keeps m (corridors m)) with (fuel := fuel) as [H _].
  - intros g c Hwf Hc. by apply corridors_upd.
  - intros g c Hwf Hc. apply corridors_upd; [done..|]. intros x d. by destruct d.
  - apply corridors_carve.
  - by apply (H s (0, 0) s').
Qed.

(** ** Generation, from the grid with its two openings *)

Lemma generation_start m fuel s :
  1 ≤ num_cols m → 1 ≤ num_rows m → cells s = [] → wall_log s = [] →
  ∃ s2, generation m fuel s
        = (if num_cols m * num_rows m <? 1000 then break_walls_r m fuel 0 0
           else break_walls_l m fuel 0 0) s2 ∧
    wf m (cells s2) ∧ opened m (cells s2) ∧
    Forall (consistent m) (wall_log s2) ∧ length (wall_log s2) = 2%nat ∧
    keeps s s2.
Proof.
  intros HC HR Hnil Hlog. unfold generation.
  destruct (create_loops_ok m s Hnil) as (s1 & Hrun1 & (Hl1 & _ & Hk1) & Hlen1 & HG1).
  rewrite (bind_ok _ _ _ _ _ Hrun1).
  assert (Hwf1 : wf m (cells s1)) by (apply wf_created; (lia || done)).
  destruct (open_ends_ok m s1) as (s2 & Hrun2 & Hwf2 & Ho2 & Hlog2 & Hlen2 & Hk2);
    [done|done|done|by intros; eapply blank_cells|congruence|].
  exists s2. unfold open_and_carve. rewrite Hrun2.
  split_and!; [done..|]. by apply (keeps_trans s s1).
Qed.

Lemma corridors_opened m g : opened m g → corridors m g.
Proof.
  intros Ho c Hc (d & Hs & Hw). by rewrite (opened_closed m g c d) in Hw.
Qed.

Lemma generation_small m fuel s :
  1 ≤ num_cols m → 1 ≤ num_rows m → num_cols m * num_rows m < 1000 →
  cells s = [] → wall_log s = [] →
  (2 * Z.to_nat (num_rows m * num_cols m) < fuel)%nat →
  ∃ s', generation m fuel s = Ok (tt, s') ∧
    gen_inv false m s' None ∧
    (∀ c, inb m c → visited (cell (cells s') c) = true) ∧
    keeps s s' ∧ corridors m (cells s').
Proof.
  intros HC HR Hsmall Hnil Hlog Hfuel.
  destruct (generation_ok m fuel s) as (s' & Hrun & Hinv & Hv & Hk); [done..|].
  unfold is_large in Hinv.
  replace (num_cols m * num_rows m <? 1000) with true in Hinv by lia.
  exists s'. split_and!; [done..|].
  destruct (generation_start m fuel s) as (s2 & Hrun2 & Hwf2 & Ho2 & Hl2 & Hn2 & _);
    [done..|].
  rewrite Hrun in Hrun2.
  replace (num_cols m * num_rows m <? 1000) with true in Hrun2 by lia.
  assert (H0 : inb m (0, 0)) by (split; simpl; lia).
  apply (break_walls_r_corridors m fuel s2 s'); [|done| | |done|].
  - by apply gen_inv_opened.
  - by destruct (Ho2 (0, 0) H0).
  - pose proof (unvisited_count_total m (cells s2)).
    pose proof (length_all_cells m). lia.
  - by apply corridors_opened.
Qed.

Lemma every_cell_has_opening m g c :
  spanning_tree m g → inb m c → 1 < num_rows m * num_cols m →
  has_opening m g c.
Proof.
  intros [_ Hconn _] Hc Hn.
  assert (Hp : ∃ y, passage m g y c).
  { destruct (decide (c = (0, 0))) as [->|Hne].
    - (* some other cell is connected to the entrance *)
      assert (∃ c', inb m c' ∧ c' ≠ (0, 0)) as (c' & Hc' & Hne').
      { destruct (decide (1 < num_cols m)).
        - exists (1, 0). split; [|done]. destruct Hc. split; simpl in *; lia.
        - exists (0, 1). split; [|done]. destruct Hc. split; simpl in *; nia. }
      pose proof (Hconn c' Hc') as Hr.
      apply rtc_inv in Hr as [?|(y & Hy & _)]; [congruence|].
      exists y. by apply passage_sym.
    - pose proof (Hconn c Hc) as Hr.
      apply rtc_inv_r in Hr as [?|(y & _ & Hy)]; [congruence|]. by exists y. }
  destruct Hp as (y & Hy & _ & d & -> & _ & Hw).
  exists (opp d). by rewrite step_opp.
Qed.

(** * The recursive solver *)

Lemma solve_r_S m fuel i j :
  solve_r m (S fuel) i j =
  (animate;;
   update_cell i j (with_visited true);;
   if (i + 1 =? num_cols m) && (j + 1 =? num_rows m) then ret true
   else
     r ← sblock m (solve_r m fuel) Left (i, j);
     if r then ret true else
     r ← sblock m (solve_r m fuel) Right (i, j);
     if r then ret true else
     r ← sblock m (solve_r m fuel) Up (i, j);
     if r then ret true else
     r ← sblock m (solve_r m fuel) Down (i, j);
     if r then ret true else ret false)%M.
Proof. reflexivity. Qed.

(** ** The red segments *)

Lemma red_segments_moves s s' mv :
  moves s' = mv :: moves s →
  red_segments s' = draw_segment (red_segments s) mv.
Proof.
  intros H. unfold red_segments. rewrite H, reverse_cons, foldl_app. done.
Qed.

Lemma red_segments_same s s' : moves s' = moves s → red_segments s' = red_segments s.
Proof. intros H. unfold red_segments. by rewrite H. Qed.

Lemma filter_ne_absent {A} `{EqDecision A} (x : A) (l : list A) :
  x ∉ l → filter (λ y, y ≠ x) l = l.
Proof.
  intros H. induction l as [|a l IH]; [done|].
  rewrite filter_cons, decide_True.
  - f_equal. apply IH. intros ?. apply H. by right.
  - intros ->. apply H. by left.
Qed.

Lemma undo_last_segment {A} `{EqDecision A} (x : A) (l : list A) :
  x ∉ l → filter (λ y, y ≠ x) (l ++ [x]) = l.
Proof.
  intros H. rewrite filter_app, filter_ne_absent by done.
  rewrite filter_cons, decide_False by (by intros ?). simpl.
  by rewrite app_nil_r.
Qed.

(** ** Steps of the solvers *)

Lemma solving_refl m s : wf m (cells s) → is_Some (win s) → solving m s s.
Proof. intros. split; try done. by intros c. Qed.

Lemma solving_trans m s1 s2 s3 : solving m s1 s2 → solving m s2 s3 → solving m s1 s3.
Proof.
  intros [H1 H2 H3 H4 H5 H6 H7] [K1 K2 K3 K4 K5 K6 K7]. split; try done.
  - intros c d Hc. by rewrite K2, H2.
  - by eapply grows_trans.
  - congruence.
  - congruence.
  - auto.
Qed.

Lemma all_placed_upd m g c f :
  wf m g → inb m c → (∀ x, placed m c x → placed m c (f x)) →
  all_placed m g → all_placed m (upd g c f).
Proof.
  intros Hwf Hc Hf Hg c' Hc'. rewrite (cell_upd m) by done.
  case_decide; [subst; by apply Hf, Hg|by apply Hg].
Qed.

(** An update that keeps the walls, the visited flag and the corners
    of the cell. *)
Lemma solving_upd m s s' c f :
  wf m (cells s) → is_Some (win s) → inb m c →
  cells s' = upd (cells s) c f →
  (∀ x d, wall d (f x) = wall d x) →
  (∀ x, visited x = true → visited (f x) = true) →
  (∀ x c', placed m c' x → placed m c' (f x)) →
  is_Some (win s') → wall_log s' = wall_log s → random s' = random s →
  solving m s s'.
Proof.
  intros Hwf Hw Hc Hcells Hf Hv Hp Hw' Hl Hr. split; try done.
  - rewrite Hcells. by apply wf_upd.
  - intros c' d Hc'. rewrite Hcells, (cell_upd m) by done.
    case_decide; by rewrite ?Hf.
  - intros c' Hc' Hvc. rewrite Hcells, (cell_upd m) by done.
    case_decide; [subst; by apply Hv|done].
  - rewrite Hcells. apply all_placed_upd; [done..|]. intros x. apply Hp.
Qed.

Lemma set_dirs_ok m s a k b tk v :
  wf m (cells s) → inb m a → inb m b →
  set_dirs a.1 a.2 k b.1 b.2 tk v s
  = Ok (tt, set_cells (upd (upd (cells s) a (with_dir k v)) b (with_dir tk v)) s).
Proof.
  intros Hwf Ha Hb. apply set_dirs_at; by apply (has_cell_inb m).
Qed.

Lemma cond_set_dirs_ok m s a k b tk (t : bool) :
  wf m (cells s) → inb m a → inb m b →
  ∃ s', (if t then set_dirs a.1 a.2 k b.1 b.2 tk false else ret tt) s = Ok (tt, s') ∧
    wf m (cells s') ∧
    (∀ c, inb m c → visited (cell (cells s') c) = visited (cell (cells s) c)) ∧
    (∀ c d, inb m c → wall d (cell (cells s') c) = wall d (cell (cells s) c)) ∧
    win s' = win s ∧ wall_log s' = wall_log s ∧ random s' = random s ∧
    moves s' = moves s ∧
    (all_placed m (cells s) → all_placed m (cells s')).
Proof.
  intros Hwf Ha Hb. destruct t.
  - rewrite (set_dirs_ok m) by done. eexists. split; [done|]. simpl.
    split_and!; try done.
    + by do 2 apply wf_upd.
    + intros c Hc. rewrite !(cell_upd m) by (done || by apply wf_upd).
      by repeat case_decide.
    + intros c d Hc. rewrite !(cell_upd m) by (done || by apply wf_upd).
      repeat case_decide; by destruct d.
    + intros Hpl. apply all_placed_upd; [by apply wf_upd|done..|].
      by apply all_placed_upd.
  - exists s. by split_and!.
Qed.

Lemma draw_move_ok m s a b undo :
  wf m (cells s) → inb m a → inb m b → is_Some (win s) →
  ∃ s', draw_move a.1 a.2 b.1 b.2 undo s = Ok (tt, s') ∧
    solving m s s' ∧
    (∀ c, inb m c → visited (cell (cells s') c) = visited (cell (cells s) c)) ∧
    moves s' = (a, b, undo) :: moves s.
Proof.
  intros Hwf Ha Hb [w Hw].
  pose proof (has_cell_inb m _ a Hwf Ha) as Hca.
  pose proof (has_cell_inb m _ b Hwf Hb) as Hcb.
  destruct undo.
  - destruct a as [i j], b as [ti tj]. simpl fst. simpl snd. unfold draw_move.
    rewrite (bind_ok _ _ _ _ _ (get_cell_at s i j Hca)).
    rewrite (bind_ok _ _ _ _ _ (get_cell_at s ti tj Hcb)).
    change (negb true) with false. cbv iota.
    erewrite bind_ok; [|by apply draw_line_paint].
    erewrite bind_ok; [|reflexivity].
    match goal with |- context [bind _ _ ?st] => set (s1 := st) end.
    destruct (cond_set_dirs_ok m s1 (i, j) "left" (ti, tj) "right"
      (_x1 (cell (cells s) (i, j)) >? _x1 (cell (cells s) (ti, tj))))
      as (s2 & Hr2 & Hwf2 & Hv2 & Hwl2 & Hw2 & Hl2 & Hrn2 & Hm2 & Hp2); [done..|].
    simpl in Hr2. rewrite (bind_ok _ _ _ _ _ Hr2).
    destruct (cond_set_dirs_ok m s2 (i, j) "right" (ti, tj) "left"
      (_x1 (cell (cells s) (i, j)) <? _x1 (cell (cells s) (ti, tj))))
      as (s3 & Hr3 & Hwf3 & Hv3 & Hwl3 & Hw3 & Hl3 & Hrn3 & Hm3 & Hp3); [done..|].
    simpl in Hr3. rewrite (bind_ok _ _ _ _ _ Hr3).
    destruct (cond_set_dirs_ok m s3 (i, j) "up" (ti, tj) "down"
      (_y1 (cell (cells s) (i, j)) >? _y1 (cell (cells s) (ti, tj))))
      as (s4 & Hr4 & Hwf4 & Hv4 & Hwl4 & Hw4 & Hl4 & Hrn4 & Hm4 & Hp4); [done..|].
    simpl in Hr4. rewrite (bind_ok _ _ _ _ _ Hr4).
    destruct (cond_set_dirs_ok m s4 (i, j) "down" (ti, tj) "up"
      (_y1 (cell (cells s) (i, j)) <? _y1 (cell (cells s) (ti, tj))))
      as (s5 & Hr5 & Hwf5 & Hv5 & Hwl5 & Hw5 & Hl5 & Hrn5 & Hm5 & Hp5); [done..|].
    simpl in Hr5. rewrite Hr5.
    exists s5. split; [done|]. split_and!.
    + split.
      * done.
      * intros c d Hc. by rewrite Hwl5, Hwl4, Hwl3, Hwl2.
      * intros c Hc Hvc. by rewrite Hv5, Hv4, Hv3, Hv2.
      * rewrite Hw5, Hw4, Hw3, Hw2. by eexists.
      * by rewrite Hl5, Hl4, Hl3, Hl2.
      * by rewrite Hrn5, Hrn4, Hrn3, Hrn2.
      * intros Hpl. by apply Hp5, Hp4, Hp3, Hp2.
    + intros c Hc. by rewrite Hv5, Hv4, Hv3, Hv2.
    + by rewrite Hm5, Hm4, Hm3, Hm2.
  - rewrite (draw_move_red s a b w) by done.
    eexists. split; [done|]. simpl. split_and!; try done.
    split; try done. by intros c.
Qed.

Lemma solve_r_blocks m fuel i j :
  solve_r m (S fuel) i j =
  (animate;;
   update_cell i j (with_visited true);;
   if (i + 1 =? num_cols m) && (j + 1 =? num_rows m) then ret true
   else sblocks m (solve_r m fuel) [Left; Right; Up; Down] (i, j))%M.
Proof. reflexivity. Qed.

Lemma agree_same_walls m g g' :
  (∀ c d, inb m c → wall d (cell g' c) = wall d (cell g c)) →
  agree m g → agree m g'.
Proof. intros Hw H c d Hc Hs. rewrite !Hw by done. by apply H. Qed.

Lemma route_same m g g' a p :
  (∀ c d, inb m c → wall d (cell g' c) = wall d (cell g c)) →
  route m g a p → route m g' a p.
Proof.
  intros Hw. revert a. induction p as [|b p IH]; intros a; simpl; [done|].
  intros [H1 H2]. split; [by eapply passage_same_walls|by apply IH].
Qed.

Lemma route_inb m g a p c : route m g a p → c ∈ p → inb m c.
Proof.
  revert a. induction p as [|b p IH]; intros a; simpl.
  - intros _ H. by apply elem_of_nil in H.
  - intros [(_ & Hb & _) Hp] Hc. apply elem_of_cons in Hc as [->|Hc]; [done|].
    by apply (IH b).
Qed.

Lemma ready_solving m s s' :
  ready m s → solving m s s' →
  visited (cell (cells s') (exit_cell m)) = false → ready m s'.
Proof.
  intros (Hwf & Hag & Hbo & Hw & Hex) [K1 K2 K3 K4 K5 K6 K7] Hex'.
  split_and!; [done| | |done..].
  - by eapply agree_same_walls.
  - by eapply border_ok_same.
Qed.

Lemma sclosed_solving m s s' c :
  inb m c → ready m s → solving m s s' →
  (c = exit_cell m → False) →
  sclosed (cells s) c → sclosed (cells s') c.
Proof.
  intros Hc (Hwf & Hag & Hbo & _) [K1 K2 K3 K4 K5 K6 K7] Hne H d Hd Hw.
  rewrite K2 in Hw by done.
  assert (Hs : inb m (step d c)).
  { destruct (decide (inb m (step d c))) as [|Hn]; [done|].
    destruct (Hbo c d Hc Hn Hw) as [[-> ->]|[-> ->]]; [|done].
    simpl in Hd. lia. }
  apply K3; [done|]. by apply H.
Qed.

Lemma failed_trans m s1 s2 s3 :
  ready m s2 → failed m s1 s2 → failed m s2 s3 → failed m s1 s3.
Proof.
  intros Hr [H1 H2 H3 H4] [K1 K2 K3 K4]. split.
  - by eapply solving_trans.
  - congruence.
  - done.
  - intros c Hc Hv3 Hv1.
    destruct (visited (cell (cells s2) c)) eqn:Hv2.
    + apply (sclosed_solving m s2); [done..| |by apply H4].
      intros ->. congruence.
    + by apply K4.
Qed.

Lemma found_after m s1 s2 s3 a :
  solving m s1 s2 → red_segments s2 = red_segments s1 →
  found m s2 s3 a → found m s1 s3 a.
Proof.
  intros Hs Hr [K (p & Hp & Hred & Hnd & Hun)]. split; [by eapply solving_trans|].
  exists p. split_and!; [|congruence|done|].
  - eapply route_same; [|done]. intros c d Hc. symmetry. by apply Hs.
  - intros c Hc. pose proof (route_inb m _ _ _ c Hp Hc) as Hin.
    destruct (visited (cell (cells s1) c)) eqn:E; [|done].
    rewrite <- (Hun c Hc). symmetry. by apply (sv_grows _ _ _ Hs).
Qed.

Lemma attr_ok {A} m s (f : Cell → A) i j :
  wf m (cells s) → inb m (i, j) → attr f i j s = Ok (f (cell (cells s) (i, j)), s).
Proof.
  intros Hwf Hin. unfold attr.
  by rewrite (bind_ok _ _ _ _ _ (get_cell_ok m s i j Hwf Hin)).
Qed.

Lemma and_then_ok (a b : M bool) s x :
  a s = Ok (x, s) → (a &&& b) s = if x then b s else Ok (false, s).
Proof. intros H. unfold and_then. rewrite (bind_ok _ _ _ _ _ H). by destruct x. Qed.

Lemma sopen_ok m s d a :
  ready m s → inb m a → a ≠ exit_cell m → sguard m d a = true →
  ∃ o, sopen d a s = Ok (o, s) ∧
    (o = true → inb m (step d a) ∧ wall d (cell (cells s) a) = false ∧
                visited (cell (cells s) (step d a)) = false) ∧
    (o = false → wall d (cell (cells s) a) = false →
                visited (cell (cells s) (step d a)) = true).
Proof.
  intros (Hwf & Hag & Hbo & _) Ha Hne Hg. destruct a as [i j].
  unfold sopen. simpl fst. simpl snd.
  pose proof (attr_ok m s (negb ∘ wall d) i j Hwf Ha) as H1.
  destruct (wall d (cell (cells s) (i, j))) eqn:Hw.
  - exists false. split; [|split; [done|congruence]].
    rewrite (and_then_ok _ _ s false); [done|].
    rewrite (and_then_ok _ _ s false); [done|].
    rewrite H1. simpl. by rewrite Hw.
  - assert (Hs : inb m (step d (i, j))).
    { destruct (decide (inb m (step d (i, j)))) as [|Hn]; [done|].
      destruct (Hbo (i, j) d Ha Hn Hw) as [[[= -> ->] ->]|[? ->]]; [|done].
      simpl in Hg. lia. }
    pose proof (Hag (i, j) d Ha Hs) as Hopp. rewrite Hw in Hopp.
    destruct (step d (i, j)) as [ti tj] eqn:Est. simpl fst. simpl snd.
    pose proof (attr_ok m s (negb ∘ wall (opp d)) ti tj Hwf Hs) as H2.
    pose proof (attr_ok m s (negb ∘ visited) ti tj Hwf Hs) as H3.
    exists (negb (visited (cell (cells s) (ti, tj)))). split.
    + rewrite (and_then_ok _ _ s true); [exact H3|].
      rewrite (and_then_ok _ _ s true); [|rewrite H1; simpl; by rewrite Hw].
      rewrite H2. simpl. by rewrite <- Hopp.
    + by destruct (visited (cell (cells s) (ti, tj))).
Qed.

Lemma open_inb m g a d :
  border_ok m g → inb m a → a ≠ exit_cell m → sallowed d a →
  wall d (cell g a) = false → inb m (step d a).
Proof.
  intros Hbo Ha Hne Hd Hw.
  destruct (decide (inb m (step d a))) as [|Hn]; [done|].
  destruct (Hbo a d Ha Hn Hw) as [[-> ->]|[-> ->]]; [|done].
  simpl in Hd. lia.
Qed.

(** ** A block, the four blocks, the function *)

Section solve_r_blocks.
Context (m : Maze) (f : nat).

(** The induction hypothesis on the calls that the blocks make. *)
Hypothesis IH : ∀ s b,
  ready m s → inb m b → visited (cell (cells s) b) = false →
  (∀ sg, sg ∈ red_segments s →
     inb m sg.2 ∧ (visited (cell (cells s) sg.2) = true ∨ sg.2 = b)) →
  (unvisited_count m (cells s) ≤ f)%nat →
  ∃ r s', solve_r m f b.1 b.2 s = Ok (r, s') ∧
    visited (cell (cells s') b) = true ∧
    if r then found m s s' b else failed m s s'.

Lemma sblock_ok d s a :
  ready m s → inb m a → a ≠ exit_cell m →
  visited (cell (cells s) a) = true →
  (∀ sg, sg ∈ red_segments s →
     inb m sg.2 ∧ visited (cell (cells s) sg.2) = true) →
  (unvisited_count m (cells s) ≤ f)%nat →
  ∃ r s', sblock m (solve_r m f) d a s = Ok (r, s') ∧
    if r then found m s s' a
    else failed m s s' ∧
         (sallowed d a → wall d (cell (cells s) a) = false →
          visited (cell (cells s') (step d a)) = true).
Proof.
  intros Hr Ha Hne Hva Hred Hf.
  pose proof Hr as (Hwf & Hag & Hbo & Hw & Hex).
  assert (Hfail0 : failed m s s).
  { split; [by apply solving_refl|done|done|]. intros c _ H1 H2. congruence. }
  unfold sblock. destruct (sguard m d a) eqn:Hg.
  - destruct (sopen_ok m s d a Hr Ha Hne Hg) as (o & Ho & Ho1 & Ho2).
    unfold try_r. rewrite (bind_ok _ _ _ _ _ Ho). destruct o.
    + (* the way is open: draw the move and recurse *)
      destruct (Ho1 eq_refl) as (Hb & Hwall & Hvb).
      destruct (draw_move_ok m s a (step d a) false Hwf Ha Hb Hw)
        as (s1 & Hrun1 & Hs1 & Hv1 & Hm1).
      rewrite (bind_ok _ _ _ _ _ Hrun1).
      assert (Hr1 : ready m s1).
      { apply (ready_solving m s); [done..|]. rewrite Hv1; [done|].
        destruct (decide (inb m (exit_cell m))) as [|Hn]; [done|].
        (* the exit is a cell of the grid *)
        exfalso. apply Hn. destruct Hb as [? ?], Ha as [? ?].
        destruct d; split; simpl in *; lia. }
      assert (Hred1 : red_segments s1 = red_segments s ++ [(a, step d a)])
        by (by rewrite (red_segments_moves s s1 _ Hm1)).
      destruct (IH s1 (step d a)) as (r & s2 & Hrun2 & Hvb2 & Hpost);
        [done|done|by rewrite Hv1|
        |by rewrite (unvisited_count_same m (cells s) (cells s1))|].
      { intros sg. rewrite Hred1, elem_of_app, list_elem_of_singleton.
        intros [Hsg| ->]; [|by split; [|right]].
        destruct (Hred sg Hsg) as [Hin Hv]. split; [done|]. left.
        by rewrite Hv1. }
      rewrite (bind_ok _ _ _ _ _ Hrun2). destruct r.
      * exists true, s2. split; [done|].
        destruct Hpost as [Hs2 (p & Hp & Hred2 & Hnd & Hun)]. split.
        -- by eapply solving_trans.
        -- assert (Hun' : ∀ c, c ∈ step d a :: p →
                      visited (cell (cells s) c) = false).
           { intros c Hc. apply elem_of_cons in Hc as [->|Hc]; [done|].
             rewrite <- Hv1 by (by eapply route_inb). by apply Hun. }
           exists (step d a :: p). split_and!.
           ++ split.
              ** split_and!; [done..|]. exists d. split_and!; [done..|].
                 by rewrite <- (Hag a d).
              ** eapply route_same; [|done]. intros c d' Hc. symmetry.
                 by apply Hs1.
           ++ rewrite Hred2, Hred1, <- app_assoc. done.
           ++ apply NoDup_cons. split; [|done].
              intros Hin. apply Hun' in Hin. congruence.
           ++ done.
      * destruct Hpost as [Hs2 Hred2 Hex2 Hcl2].
        destruct (draw_move_ok m s2 a (step d a) true)
          as (s3 & Hrun3 & Hs3 & Hv3 & Hm3); [apply Hs2|done|done|apply Hs2|].
        rewrite (bind_ok _ _ _ _ _ Hrun3).
        exists false, s3. split; [done|].
        assert (Hr2 : ready m s2) by (by apply (ready_solving m s1)).
        assert (Hex3 : visited (cell (cells s3) (exit_cell m)) = false).
        { destruct (decide (inb m (exit_cell m))) as [|Hn].
          - by rewrite Hv3.
          - exfalso. apply Hn. destruct Hb as [? ?], Ha as [? ?].
            destruct d; split; simpl in *; lia. }
        split; [split|].
        -- eapply solving_trans; [done|]. by eapply solving_trans.
        -- rewrite (red_segments_moves s2 s3 _ Hm3). simpl.
           rewrite Hred2, Hred1. apply undo_last_segment.
           intros Hin. apply Hred in Hin as [_ Hin]. simpl in Hin. congruence.
        -- done.
        -- intros c Hc Hvc3 Hvc.
           apply (sclosed_solving m s2); [done..| |].
           { intros ->. congruence. }
           apply Hcl2; [done|by rewrite <- Hv3|by rewrite Hv1].
        -- intros _ _. by rewrite Hv3.
    + exists false, s. split; [done|]. split; [done|]. intros _. by apply Ho2.
  - exists false, s. split; [done|]. split; [done|].
    intros Hd. destruct Ha as [? ?]. destruct d; simpl in *; lia.
Qed.

Lemma sblocks_ok ds : ∀ s a,
  ready m s → inb m a → a ≠ exit_cell m →
  visited (cell (cells s) a) = true →
  (∀ sg, sg ∈ red_segments s →
     inb m sg.2 ∧ visited (cell (cells s) sg.2) = true) →
  (unvisited_count m (cells s) ≤ f)%nat →
  ∃ r s', sblocks m (solve_r m f) ds a s = Ok (r, s') ∧
    if r then found m s s' a
    else failed m s s' ∧
         ∀ d, d ∈ ds → sallowed d a → wall d (cell (cells s) a) = false →
              visited (cell (cells s') (step d a)) = true.
Proof.
  induction ds as [|d ds IHds]; intros s a Hr Ha Hne Hva Hred Hf; simpl.
  - exists false, s. split; [done|]. split.
    + destruct Hr as (? & _ & _ & ? & ?).
      split; [by apply solving_refl|done|done|]. intros c _ K1 K2. congruence.
    + intros d Hd. by apply elem_of_nil in Hd.
  - destruct (sblock_ok d s a Hr Ha Hne Hva Hred Hf) as (r & s1 & Hrun1 & Hpost).
    rewrite (bind_ok _ _ _ _ _ Hrun1). destruct r.
    { by exists true, s1. }
    destruct Hpost as [Hfail1 Hd1].
    pose proof (fl_solving _ _ _ Hfail1) as Hs1.
    assert (Hr1 : ready m s1).
    { apply (ready_solving m s); [done..|]. apply Hfail1. }
    destruct (IHds s1 a) as (r & s2 & Hrun2 & Hpost); [done..| | | |].
    { by apply Hs1. }
    { intros sg. rewrite (fl_red _ _ _ Hfail1). intros Hsg.
      destruct (Hred sg Hsg) as [Hin Hv]. split; [done|]. by apply Hs1. }
    { pose proof (unvisited_count_le m _ _ (sv_grows _ _ _ Hs1)). lia. }
    exists r, s2. split; [done|]. destruct r.
    + eapply found_after; [done|apply Hfail1|done].
    + destruct Hpost as [Hfail2 Hd2]. split; [by eapply failed_trans|].
      intros d' Hd' Hal Hw. apply elem_of_cons in Hd' as [->|Hd'].
      * apply (sv_grows _ _ _ (fl_solving _ _ _ Hfail2)); [|by apply Hd1].
        destruct Hr as (_ & _ & Hbo & _). by eapply open_inb.
      * apply Hd2; [done..|]. by rewrite (sv_walls _ _ _ Hs1).
Qed.

End solve_r_blocks.

Lemma solve_r_ok m fuel : ∀ s a,
  ready m s → inb m a → visited (cell (cells s) a) = false →
  (∀ sg, sg ∈ red_segments s →
     inb m sg.2 ∧ (visited (cell (cells s) sg.2) = true ∨ sg.2 = a)) →
  (unvisited_count m (cells s) ≤ fuel)%nat →
  ∃ r s', solve_r m fuel a.1 a.2 s = Ok (r, s') ∧
    visited (cell (cells s') a) = true ∧
    if r then found m s s' a else failed m s s'.
Proof.
  induction fuel as [|f IH]; intros s [i j] Hr Ha Hv Hred Hf.
  { pose proof (unvisited_count_pos m _ _ Ha Hv). lia. }
  pose proof Hr as (Hwf & Hag & Hbo & Hw & Hex).
  simpl fst. simpl snd. rewrite solve_r_blocks.
  rewrite (bind_ok _ _ _ _ _ (animate_ok s Hw)).
  set (s1 := set_cells (upd (cells s) (i, j) (with_visited true)) s).
  rewrite (bind_ok _ _ _ _ _ (update_cell_ok m s i j _ Hwf Ha)). fold s1.
  assert (Hv1 : ∀ c, inb m c → visited (cell (cells s1) c)
              = if decide ((i, j) = c) then true else visited (cell (cells s) c)).
  { intros c Hc. by apply (visited_upd_mark m). }
  assert (Hs1 : solving m s s1).
  { by apply (solving_upd m s s1 (i, j) (with_visited true)). }
  assert (Hva1 : visited (cell (cells s1) (i, j)) = true).
  { rewrite Hv1 by done. by rewrite decide_True. }
  destruct ((i + 1 =? num_cols m) && (j + 1 =? num_rows m)) eqn:Hexit.
  - (* the exit *)
    exists true, s1. split; [done|]. split; [done|]. split; [done|].
    exists []. split_and!.
    + simpl. unfold exit_cell. f_equal; lia.
    + by rewrite app_nil_r.
    + apply NoDup_singleton.
    + intros c Hc. by apply elem_of_nil in Hc.
  - assert (Hne : (i, j) ≠ exit_cell m).
    { unfold exit_cell. intros [= -> ->].
      rewrite !Z.sub_add, !Z.eqb_refl in Hexit. done. }
    assert (Hr1 : ready m s1).
    { apply (ready_solving m s); [done..|].
      destruct (decide (inb m (exit_cell m))) as [Hin|Hn].
      - rewrite Hv1 by done. by rewrite decide_False.
      - exfalso. apply Hn. destruct Ha. split; simpl in *; lia. }
    destruct (sblocks_ok m f IH [Left; Right; Up; Down] s1 (i, j))
      as (r & s' & Hrun & Hpost); [done..| | |].
    { intros sg Hsg. rewrite (red_segments_same s s1) in Hsg by done.
      destruct (Hred sg Hsg) as [Hin [Hvs|Heq]]; (split; [done|]).
      - by apply Hs1.
      - by rewrite Heq. }
    { assert ((unvisited_count m (cells s1) < unvisited_count m (cells s))%nat);
        [|lia].
      apply (unvisited_count_lt m _ _ (i, j)); [apply Hs1|done..]. }
    exists r, s'. split; [done|]. destruct r.
    + split; [by apply Hpost|].
      eapply found_after; [done|by apply red_segments_same|done].
    + destruct Hpost as [Hfail Hdirs].
      pose proof (fl_solving _ _ _ Hfail) as Hs'.
      split; [by apply Hs'|]. split.
      * by eapply solving_trans.
      * rewrite (fl_red _ _ _ Hfail). by apply red_segments_same.
      * apply Hfail.
      * intros c Hc Hvc' Hvc.
        destruct (decide ((i, j) = c)) as [<-|Hca].
        -- intros d Hd Hwd. apply Hdirs; [|done|].
           ++ rewrite !elem_of_cons. destruct d; auto.
           ++ by rewrite <- (sv_walls _ _ _ Hs').
        -- apply (fl_closed _ _ _ Hfail); [done..|].
           rewrite Hv1 by done. by rewrite decide_False.
Qed.

(** * The recursive solver finds the exit *)

Lemma snd_links a p : (links a p).*2 = p.
Proof. revert a. induction p as [|b p IH]; intros a; simpl; [done|]. by rewrite IH. Qed.

Lemma route_last m g a p : route m g a p → last (a :: p) = Some (exit_cell m).
Proof.
  revert a. induction p as [|b p IH]; intros a; simpl.
  - by intros ->.
  - intros [_ H]. by apply IH in H.
Qed.

Lemma route_step m g a p k x y :
  route m g a p → (a :: p) !! k = Some x → (a :: p) !! S k = Some y →
  passage m g x y.
Proof.
  revert a k. induction p as [|b p IH]; intros a k; simpl; [done|].
  intros [H1 H2]. destruct k as [|k]; simpl.
  - by intros [= <-] [= <-].
  - intros Hx Hy. by apply (IH b k).
Qed.

Lemma route_valid_path m g p : route m g (0, 0) p → valid_path m g ((0, 0) :: p).
Proof.
  intros H. split_and!.
  - done.
  - by apply (route_last m g).
  - intros k x y. by apply route_step.
Qed.

(** A set of visited cells that holds the entrance and is closed for
    the moves of [_solve_r] is the whole grid, the top row and the left
    column being corridors. *)
Lemma sclosed_covers m g :
  agree m g → corridors m g →
  (∀ c, inb m c → has_opening m g c) →
  (∀ c, inb m c → rtc (passage m g) (0, 0) c) →
  (∀ c, inb m c → visited (cell g c) = true → sclosed g c) →
  visited (cell g (0, 0)) = true →
  ∀ c, inb m c → visited (cell g c) = true.
Proof.
  intros Hag Hco Hop Hconn Hcl H0.
  assert (Hcol : ∀ j, 0 ≤ j → j < num_rows m → 0 < num_cols m →
            visited (cell g (0, j)) = true).
  { intros j Hj. pattern j. apply natlike_ind; [done| |done].
    intros x Hx IH Hlt HC.
    assert (Hin : inb m (0, x)) by (split; simpl; lia).
    assert (Hin' : inb m (0, x + 1)) by (split; simpl; lia).
    apply (Hcl (0, x) Hin (IH ltac:(lia) HC) Down); [done|].
    rewrite (Hag (0, x) Down Hin Hin'). simpl.
    destruct (Hco (0, x + 1) Hin' (Hop _ Hin')) as [_ H]. apply H; simpl; lia. }
  assert (Hrow : ∀ i, 0 ≤ i → i < num_cols m → 0 < num_rows m →
            visited (cell g (i, 0)) = true).
  { intros i Hi. pattern i. apply natlike_ind; [done| |done].
    intros x Hx IH Hlt HR.
    assert (Hin : inb m (x, 0)) by (split; simpl; lia).
    assert (Hin' : inb m (x + 1, 0)) by (split; simpl; lia).
    apply (Hcl (x, 0) Hin (IH ltac:(lia) HR) Right); [done|].
    rewrite (Hag (x, 0) Right Hin Hin'). simpl.
    destruct (Hco (x + 1, 0) Hin' (Hop _ Hin')) as [H _]. apply H; simpl; lia. }
  intros c Hc.
  apply (rtc_ind_r (R := passage m g) (λ c, visited (cell g c) = true) (0, 0));
    [done| |by apply Hconn].
  intros y z _ (Hy & Hz & d & -> & Hw & _) IH.
  destruct y as [i j]. destruct Hy as [Hi Hj], Hz as [Hi' Hj'].
  destruct d; simpl in *.
  - destruct (decide (0 < i - 1)) as [Hd|Hd].
    + by apply (Hcl (i, j) ltac:(by split) IH Left).
    + replace (i - 1) with 0 by lia. apply Hcol; lia.
  - by apply (Hcl (i, j) ltac:(by split) IH Right).
  - destruct (decide (0 < j - 1)) as [Hd|Hd].
    + by apply (Hcl (i, j) ltac:(by split) IH Up).
    + replace (j - 1) with 0 by lia. apply Hrow; lia.
  - by apply (Hcl (i, j) ltac:(by split) IH Down).
Qed.

Lemma spanning_tree_same m g g' :
  (∀ c d, inb m c → wall d (cell g' c) = wall d (cell g c)) →
  spanning_tree m g → spanning_tree m g'.
Proof.
  intros Hw [H1 H2 H3]. split.
  - by rewrite (passages_same_walls m g g').
  - intros c Hc. eapply rtc_subrel; [|by apply H2].
    intros x y. by apply passage_same_walls.
  - intros l Hl. apply (H3 l). eapply cycle_impl; [|done].
    intros a b. apply passage_same_walls. intros c d Hc. by rewrite Hw.
Qed.

Lemma has_opening_same m g g' c :
  inb m c → (∀ c d, inb m c → wall d (cell g' c) = wall d (cell g c)) →
  has_opening m g c → has_opening m g' c.
Proof. intros Hc Hw (d & Hs & Ho). exists d. by rewrite Hw. Qed.

(** [solve] on a grid of fewer than 1000 cells that generation has
    left, with every cell unvisited and nothing drawn yet. *)
Lemma solve_small m fuel s :
  1 ≤ num_cols m → 1 ≤ num_rows m → num_cols m * num_rows m < 1000 →
  wf m (cells s) → agree m (cells s) → border_ok m (cells s) →
  corridors m (cells s) → spanning_tree m (cells s) → is_Some (win s) →
  (∀ c, inb m c → visited (cell (cells s) c) = false) → moves s = [] →
  (Z.to_nat (num_rows m * num_cols m) ≤ fuel)%nat →
  ∃ s' p, solve m fuel s = Ok (Some true, s') ∧ solving m s s' ∧
    route m (cells s) (0, 0) p ∧ red_segments s' = links (0, 0) p ∧
    NoDup ((0, 0) :: p).
Proof.
  intros HC HR Hsmall Hwf Hag Hbo Hco Hst Hw Hv Hm Hfuel.
  assert (H0 : inb m (0, 0)) by (split; simpl; lia).
  assert (He : inb m (exit_cell m)) by (split; simpl; lia).
  unfold solve. replace (num_cols m * num_rows m <? 1000) with true by lia.
  destruct (solve_r_ok m fuel s (0, 0)) as (r & s' & Hrun & Hv0 & Hpost).
  - split_and!; [done..|]. by apply Hv.
  - done.
  - by apply Hv.
  - intros sg. unfold red_segments. rewrite Hm. simpl.
    intros H. by apply elem_of_nil in H.
  - pose proof (unvisited_count_total m (cells s)).
    pose proof (length_all_cells m). lia.
  - simpl in Hrun. rewrite (bind_ok _ _ _ _ _ Hrun). destruct r.
    + destruct Hpost as [Hs (p & Hp & Hred & Hnd & _)].
      exists s', p. split_and!; [done..| |done].
      rewrite Hred. unfold red_segments. by rewrite Hm.
    + (* a failed search would have visited every cell, the exit too *)
      exfalso. destruct Hpost as [Hs _ Hex Hcl].
      assert (Hw' : ∀ c d, inb m c →
                wall d (cell (cells s') c) = wall d (cell (cells s) c))
        by apply Hs.
      assert (Hall : ∀ c, inb m c → visited (cell (cells s') c) = true).
      { apply (sclosed_covers m).
        - by eapply agree_same_walls.
        - by eapply corridors_same_walls.
        - intros c Hc. eapply has_opening_same; [done..|].
          destruct (decide (1 < num_rows m * num_cols m)).
          + by apply every_cell_has_opening.
          + (* a single cell: the entrance is the exit *)
            assert (c = exit_cell m) as ->.
            { destruct c as [i j], Hc as [? ?]. unfold exit_cell.
              simpl in *. f_equal; nia. }
            assert (exit_cell m = (0, 0)) as Heq.
            { unfold exit_cell. f_equal; nia. }
            rewrite Heq in Hex. congruence.
        - intros c Hc. eapply rtc_subrel; [|by apply Hst].
          intros x y. by apply passage_same_walls.
        - intros c Hc Hvc. apply Hcl; [done..|]. by apply Hv.
        - done. }
      rewrite Hall in Hex; done.
Qed.

Lemma construct_small seeded random0 fuel w num_rows num_cols
    cell_size_x cell_size_y x1 y1 seed :
  1 ≤ num_rows → 1 ≤ num_cols → num_rows * num_cols < 1000 →
  (2 * Z.to_nat (num_rows * num_cols) < fuel)%nat →
  let m := mkMaze x1 y1 num_rows num_cols cell_size_x cell_size_y seed in
  ∃ s p,
    Maze__init__ seeded random0 fuel (Some w) num_rows num_cols
      cell_size_x cell_size_y x1 y1 seed = Ok (m, Some true, s) ∧
    spanning_tree m (cells s) ∧ consistent m (cells s) ∧
    route m (cells s) (0, 0) p ∧ red_segments s = links (0, 0) p ∧
    NoDup ((0, 0) :: p).
Proof.
  intros HR HC Hsmall Hfuel m. unfold Maze__init__. fold m.
  set (s0 := initial_state (Some w) random0).
  destruct (generation_small m fuel s0) as (s1 & Hrun1 & Hinv & Hv1 & Hk1 & Hco1);
    [simpl; lia..|done|done|simpl; lia|].
  pose proof (gi_tree _ _ _ _ Hinv) as Ht.
  pose proof (ti_wf _ _ _ Ht) as Hwf1.
  pose proof (spanning_tree_inv m _ ltac:(simpl; lia) ltac:(simpl; lia) Ht Hv1)
    as Hst1.
  destruct (reset_loops_ok m s1 Hwf1)
    as (s2 & Hrun2 & Hwf2 & (Hl2 & _ & Hm2 & _) & Hw2 & Hc2).
  assert (Hwalls2 : ∀ c d, inb m c →
            wall d (cell (cells s2) c) = wall d (cell (cells s1) c)).
  { intros c d Hc. rewrite Hc2 by done. by destruct d. }
  destruct (solve_small m fuel s2) as (s3 & p & Hrun3 & Hs3 & Hp & Hpath & Hnd);
    [simpl; lia..|done| | | | | | | |simpl; lia|].
  - eapply agree_same_walls; [done|]. apply Ht.
  - eapply border_ok_same; [done|]. apply Hinv.
  - by eapply corridors_same_walls.
  - by eapply spanning_tree_same.
  - rewrite Hw2. apply Hk1. by eexists.
  - intros c Hc. by rewrite Hc2.
  - rewrite Hm2. by destruct Hk1 as [-> _].
  - assert (Hcreate : create_cells m fuel s0 = Ok (Some true, s3)).
    { rewrite create_cells_phases by (simpl; lia).
      by rewrite (bind_ok _ _ _ _ _ Hrun1), (bind_ok _ _ _ _ _ Hrun2). }
    rewrite (bind_ok _ _ _ _ _ Hcreate).
    destruct (seed_random_ok seeded seed s3) as (s & Hseed & Hcs & _ & Hls & Hms).
    rewrite (bind_ok _ _ _ _ _ Hseed). unfold ret.
    assert (Hwalls : ∀ c d, inb m c →
              wall d (cell (cells s) c) = wall d (cell (cells s1) c)).
    { intros c d Hc. rewrite Hcs, (sv_walls _ _ _ Hs3) by done. by apply Hwalls2. }
    exists s, p. split_and!.
    + done.
    + by eapply spanning_tree_same.
    + apply agree_consistent. eapply agree_same_walls; [done|]. apply Ht.
    + eapply route_same; [|done]. intros c d Hc.
      by rewrite Hcs, (sv_walls _ _ _ Hs3).
    + unfold red_segments. rewrite Hms. apply Hpath.
    + done.
Qed.

(** * The iterative solver *)

Lemma solve_l_while_S m fuel i j stack :
  solve_l_while m (S fuel) ((i, j) :: stack) =
  if (i + 1 =? num_cols m) && (j + 1 =? num_rows m) then ret tt
  else lblocks m [Left; Right; Up; Down] (i, j) (solve_l_while m fuel) stack.
Proof. reflexivity. Qed.

Lemma draw_move_red_ok m s a b :
  wf m (cells s) → inb m a → inb m b → is_Some (win s) →
  ∃ w', draw_move a.1 a.2 b.1 b.2 false s
        = Ok (tt, mkState (cells s) (Some w') (random s) (wall_log s)
                          ((a, b, false) :: moves s)).
Proof.
  intros Hwf Ha Hb [w Hw].
  rewrite (draw_move_red s a b w); [by eexists| | |done];
    by apply (has_cell_inb m).
Qed.

Lemma lookup_dir_ok m s i j k v :
  wf m (cells s) → inb m (i, j) →
  valid_dirs (cell (cells s) (i, j)) !! k = Some v →
  lookup_dir i j k s = Ok (v, s).
Proof.
  intros Hwf Hin Hk. unfold lookup_dir.
  rewrite (bind_ok _ _ _ _ _ (get_cell_ok m s i j Hwf Hin)). by rewrite Hk.
Qed.

Lemma lguard_inb m d c : inb m c → lguard m d c = true ↔ inb m (step d c).
Proof.
  destruct c as [i j]. intros [Hi Hj]. unfold inb.
  destruct d; simpl in *; lia.
Qed.

Lemma lopen_ok m s d c :
  wf m (cells s) → inb m c → inb m (step d c) →
  lopen d c s = Ok (negb (wall d (cell (cells s) c)) &&
                    negb (visited (cell (cells s) (step d c))), s).
Proof.
  intros Hwf Hc Hs. destruct c as [i j]. unfold lopen. simpl fst. simpl snd.
  destruct (step d (i, j)) as [ti tj] eqn:Est. simpl fst. simpl snd.
  rewrite (and_then_ok _ _ s (negb (wall d (cell (cells s) (i, j)))))
    by (by rewrite (attr_ok m)).
  destruct (wall d (cell (cells s) (i, j))); simpl; [done|].
  unfold unvisited. by rewrite (attr_ok m).
Qed.

(** ** A block of the loop *)

Section solve_l_blocks.
Context (m : Maze) (s0 : State).
Hypothesis Hag0 : agree m (cells s0).
Hypothesis Hdirs0 : dirs_ok true m (cells s0).

Lemma lblock_ok d s c stack P :
  linv m s0 s (c :: stack) P →
  ∃ stack' s', lblock m d c stack s = Ok (stack', s') ∧
    linv m s0 s' (c :: stack') P ∧
    grows m (cells s) (cells s') ∧
    (inb m (step d c) → wall d (cell (cells s0) c) = false →
     visited (cell (cells s') (step d c)) = true) ∧
    (length stack' + unvisited_count m (cells s')
     ≤ length stack + unvisited_count m (cells s))%nat.
Proof.
  intros Hinv. pose proof Hinv as [Hs Hd Hm Hst Hma Hro Hdo Hli].
  pose proof (sv_wf _ _ _ Hs) as Hwf.
  assert (Hc : inb m c) by (apply Hst; by left).
  unfold lblock. destruct (lguard m d c) eqn:Hg.
  - apply lguard_inb in Hg; [|done].
    unfold try_l. rewrite (bind_ok _ _ _ _ _ (lopen_ok m s d c Hwf Hc Hg)).
    rewrite (sv_walls _ _ _ Hs) by done.
    destruct (wall d (cell (cells s0) c)) eqn:Hw; simpl.
    { exists stack, s. split_and!; [done..|by apply grows_refl|done|lia]. }
    destruct (visited (cell (cells s) (step d c))) eqn:Hvb; simpl.
    { exists stack, s. split_and!; [done..|by apply grows_refl|done|lia]. }
    (* mark the neighbour, draw the move, push *)
    assert (Hopp : wall (opp d) (cell (cells s0) (step d c)) = false)
      by (by rewrite <- (Hag0 c d)).
    destruct (step d c) as [ti tj] eqn:Est. simpl fst. simpl snd.
    destruct c as [i j]. simpl fst. simpl snd.
    set (s1 := set_cells (upd (cells s) (ti, tj) (with_visited true)) s).
    rewrite (bind_ok _ _ _ _ _ (update_cell_ok m s ti tj _ Hwf Hg)). fold s1.
    assert (Hs1 : solving m s s1).
    { by apply (solving_upd m s s1 (ti, tj) (with_visited true)); try apply Hs. }
    assert (Hv1 : ∀ x, inb m x → visited (cell (cells s1) x)
                = if decide ((ti, tj) = x) then true else visited (cell (cells s) x)).
    { intros x Hx. by apply (visited_upd_mark m). }
    destruct (draw_move_red_ok m s1 (i, j) (ti, tj)) as (w' & Hrun2);
      [apply Hs1|done|done|apply Hs1|].
    simpl in Hrun2. rewrite (bind_ok _ _ _ _ _ Hrun2).
    match type of Hrun2 with _ = Ok (_, ?st) => set (s2 := st) in * end.
    assert (Hwf2 : wf m (cells s2)) by apply Hs1.
    rewrite (bind_ok _ _ _ _ _ (animate_ok s2 ltac:(by eexists))).
    assert (Hkey : valid_dirs (cell (cells s2) (i, j)) !! key d = Some true).
    { simpl. rewrite (cell_upd m) by done.
      assert (Hd' : valid_dirs (cell (cells s) (i, j)) !! key d = Some true).
      { rewrite Hd by done. apply Hdirs0; [done|by rewrite Est|done]. }
      by case_decide. }
    rewrite (bind_ok _ _ _ _ _ (lookup_dir_ok m s2 i j _ true Hwf2 Hc Hkey)).
    simpl negb. cbv iota. unfold bind at 1. unfold ret at 1.
    exists ((ti, tj) :: stack), s2. split; [done|].
    assert (Hg12 : grows m (cells s) (cells s2)) by apply Hs1.
    assert (Hvb2 : visited (cell (cells s2) (ti, tj)) = true).
    { simpl. rewrite Hv1 by done. by rewrite decide_True. }
    split_and!.
    + split.
      * eapply solving_trans; [done|].
        destruct Hs1 as [K1 K2 K3 K4 K5 K6 K7]. by split.
      * intros x Hx. simpl. rewrite (cell_upd m) by done. rewrite <- Hd by done.
        by case_decide; subst.
      * intros mv. simpl. rewrite elem_of_cons. intros [->|Hmv].
        -- simpl. split_and!; [done| |done].
           split_and!; [done..|]. exists d. rewrite Est.
           by split_and!.
        -- destruct (Hm mv Hmv) as (? & ? & ?). split_and!; [done..|].
           destruct (decide (inb m mv.1.2)) as [Hin|Hn].
           ++ by apply Hg12.
           ++ by destruct H0 as (_ & ? & _).
      * intros x. rewrite !elem_of_cons. intros [->|[->|Hx]].
        -- split; [done|]. destruct (Hst (i, j) ltac:(by left)) as [_ [?|?]];
             [left; by apply Hg12|by right].
        -- split; [done|]. by left.
        -- destruct (Hst x ltac:(by right)) as [? [?|?]]; split; try done;
             [left; by apply Hg12|by right].
      * intros x Hx. simpl. rewrite Hv1 by done. rewrite !elem_of_cons.
        case_decide as E; [subst; auto|].
        intros Hvx. destruct (Hma x Hx Hvx) as [H|H]; [|by right].
        apply elem_of_cons in H as [->|H]; auto.
      * rewrite !elem_of_cons. destruct Hro as [H|H]; [|by right].
        apply elem_of_cons in H as [H|H]; auto.
      * intros x Hx. destruct (Hdo x Hx) as (? & ? & Hcl). split_and!; [done..|].
        intros d' Hs' Hw'. apply Hg12; [done|]. by apply Hcl.
      * intros x Hx. simpl. rewrite Hv1 by done. case_decide as E.
        -- subst. intros _. exists (i, j). by left.
        -- intros Hvx. destruct (Hli x Hx Hvx) as (a & Ha).
           exists a. by right.
    + done.
    + done.
    + assert ((unvisited_count m (cells s2) < unvisited_count m (cells s))%nat);
        [|change (length ((ti, tj) :: stack)) with (S (length stack)); lia].
      by apply (unvisited_count_lt m _ _ (ti, tj)).
  - exists stack, s. split_and!; [done..|by apply grows_refl| |lia].
    intros Hs'. apply lguard_inb in Hs'; [|done]. congruence.
Qed.

Lemma lblocks_ok {A} ds (k : list (Z * Z) → M A) : ∀ s c stack P,
  linv m s0 s (c :: stack) P →
  ∃ stack' s', lblocks m ds c k stack s = k stack' s' ∧
    linv m s0 s' (c :: stack') P ∧
    grows m (cells s) (cells s') ∧
    (∀ d, d ∈ ds → inb m (step d c) → wall d (cell (cells s0) c) = false →
          visited (cell (cells s') (step d c)) = true) ∧
    (length stack' + unvisited_count m (cells s')
     ≤ length stack + unvisited_count m (cells s))%nat.
Proof.
  induction ds as [|d ds IH]; intros s c stack P Hinv; simpl.
  - exists stack, s. split_and!; [done..|by apply grows_refl| |lia].
    intros d Hd. by apply elem_of_nil in Hd.
  - destruct (lblock_ok d s c stack P Hinv)
      as (stack1 & s1 & Hrun1 & Hinv1 & Hg1 & Hd1 & Hn1).
    rewrite (bind_ok _ _ _ _ _ Hrun1).
    destruct (IH s1 c stack1 P Hinv1) as (stack2 & s2 & Hrun2 & Hinv2 & Hg2 & Hd2 & Hn2).
    exists stack2, s2. split_and!; [done..|by eapply grows_trans| |lia].
    intros d' Hd' Hs Hw. apply elem_of_cons in Hd' as [->|Hd'].
    + apply Hg2; [done|]. by apply Hd1.
    + by apply Hd2.
Qed.

Hypothesis Hconn0 : ∀ c, inb m c → rtc (passage m (cells s0)) (0, 0) c.
Hypothesis Hne0 : exit_cell m ≠ (0, 0).
Hypothesis Hex0 : inb m (exit_cell m).

(** The stack cannot run empty: the cells dealt with would be closed
    under passages and hold the entrance, hence the exit. *)
Lemma linv_stack s P : ¬ linv m s0 s [] P.
Proof.
  intros [Hs Hd Hm Hst Hma Hro Hdo Hli].
  assert (HP : P (exit_cell m)).
  { apply (rtc_ind_r (R := passage m (cells s0)) P (0, 0)).
    - destruct Hro as [H|H]; [by apply elem_of_nil in H|done].
    - intros y z _ (Hy & Hz & d & -> & Hw & _) Py.
      destruct (Hdo y Py) as (_ & _ & Hcl).
      destruct (Hma (step d y) Hz (Hcl d Hz Hw)) as [H|H]; [|done].
      by apply elem_of_nil in H.
    - by apply Hconn0. }
  by destruct (Hdo _ HP) as (_ & ? & _).
Qed.

Lemma solve_l_while_ok fuel : ∀ stack s P,
  linv m s0 s stack P →
  (length stack + unvisited_count m (cells s) ≤ fuel)%nat →
  ∃ s', solve_l_while m fuel stack s = Ok (tt, s') ∧
    visited (cell (cells s') (exit_cell m)) = true ∧
    ∃ stack' P', linv m s0 s' stack' P'.
Proof.
  induction fuel as [|f IH]; intros stack s P Hinv Hf;
    (destruct stack as [|[i j] stack]; [by apply linv_stack in Hinv|]);
    simpl in Hf; [lia|].
  rewrite solve_l_while_S.
  destruct ((i + 1 =? num_cols m) && (j + 1 =? num_rows m)) eqn:Hexit.
  - assert ((i, j) = exit_cell m) as Heq by (unfold exit_cell; f_equal; lia).
    exists s. split; [done|]. split; [|by exists ((i, j) :: stack), P].
    destruct (li_stack _ _ _ _ _ Hinv (i, j) ltac:(by left)) as [_ [H|H]].
    + by rewrite <- Heq.
    + congruence.
  - assert (Hne : (i, j) ≠ exit_cell m).
    { unfold exit_cell. intros [= -> ->].
      rewrite !Z.sub_add, !Z.eqb_refl in Hexit. done. }
    destruct (lblocks_ok [Left; Right; Up; Down] (solve_l_while m f)
                s (i, j) stack P Hinv)
      as (stack' & s' & Hrun & Hinv' & Hg & Hd & Hn).
    rewrite Hrun.
    apply (IH stack' s' (λ x, P x ∨ x = (i, j))); [|lia].
    destruct Hinv' as [Hs Hdi Hm Hst Hma Hro Hdo Hli]. split; try done.
    + intros c Hc. apply Hst. by right.
    + intros c Hc Hv. destruct (Hma c Hc Hv) as [H|H]; [|by right; left].
      apply elem_of_cons in H as [->|H]; [right; by right|by left].
    + destruct Hro as [H|H]; [|by right; left].
      apply elem_of_cons in H as [H|H]; [right; by right|by left].
    + intros c [Hc| ->]; [by apply Hdo|].
      split_and!; [apply Hst; by left|done|].
      intros d Hsd Hw. apply Hd; [|done..].
      rewrite !elem_of_cons. destruct d; auto.
Qed.

End solve_l_blocks.

(** ** The iterative solver reaches the exit *)

Lemma foldl_draw_red l : ∀ acc,
  (∀ mv : Move, mv ∈ l → mv.2 = false) →
  foldl draw_segment acc l = acc ++ l.*1.
Proof.
  induction l as [|[[a b] u] l IH]; intros acc H; simpl.
  - by rewrite app_nil_r.
  - assert (u = false) as -> by (apply (H (a, b, u)); by left).
    rewrite IH by (intros mv Hmv; apply H; by right).
    by rewrite <- app_assoc.
Qed.

Lemma red_segments_no_undo s :
  (∀ mv, mv ∈ moves s → mv.2 = false) →
  red_segments s = (reverse (moves s)).*1.
Proof.
  intros H. unfold red_segments. rewrite foldl_draw_red; [done|].
  intros mv Hmv. apply H. by apply elem_of_reverse.
Qed.

Lemma undone_nil s : (∀ mv, mv ∈ moves s → mv.2 = false) → undone s = [].
Proof.
  intros H. unfold undone. induction (moves s) as [|mv l IH]; [done|].
  rewrite filter_cons, decide_False.
  - apply IH. intros mv' Hmv'. apply H. by right.
  - rewrite (H mv) by (by left). done.
Qed.

(** [solve] on a grid of 1000 cells or more that generation has left,
    with every cell unvisited and nothing drawn yet. *)
Lemma solve_large m fuel s :
  1 ≤ num_cols m → 1 ≤ num_rows m → 1000 ≤ num_cols m * num_rows m →
  wf m (cells s) → agree m (cells s) → dirs_ok true m (cells s) →
  spanning_tree m (cells s) → is_Some (win s) →
  (∀ c, inb m c → visited (cell (cells s) c) = false) → moves s = [] →
  (Z.to_nat (num_rows m * num_cols m) < fuel)%nat →
  ∃ s', solve m fuel s = Ok (None, s') ∧ solving m s s' ∧
    (∀ mv, mv ∈ moves s' →
       mv.2 = false ∧ passage m (cells s) mv.1.1 mv.1.2) ∧
    ∃ a, (a, exit_cell m, false) ∈ moves s'.
Proof.
  intros HC HR Hlarge Hwf Hag Hdirs Hst Hw Hv Hm Hfuel.
  assert (H0 : inb m (0, 0)) by (split; simpl; lia).
  assert (He : inb m (exit_cell m)) by (split; simpl; lia).
  assert (Hne : exit_cell m ≠ (0, 0)).
  { unfold exit_cell. intros [= H1 H2]. nia. }
  unfold solve. replace (num_cols m * num_rows m <? 1000) with false by lia.
  unfold solve_l.
  destruct (solve_l_while_ok m s Hag Hdirs (st_connected _ _ Hst) Hne He
              fuel [(0, 0)] s (λ _, False))
    as (s' & Hrun & Hvex & stack' & P' & Hinv').
  - split; try done.
    + by apply solving_refl.
    + intros mv. rewrite Hm. intros H. by apply elem_of_nil in H.
    + intros c Hc. apply list_elem_of_singleton in Hc as ->. split; [done|by right].
    + intros c Hc Hvc. rewrite Hv in Hvc; done.
    + left. by left.
    + intros c Hc Hvc. rewrite Hv in Hvc; done.
  - pose proof (unvisited_count_total m (cells s)).
    pose proof (length_all_cells m). simpl. lia.
  - rewrite (bind_ok _ _ _ _ _ Hrun).
    exists s'. split; [done|]. split_and!.
    + apply Hinv'.
    + intros mv Hmv. destruct (li_moves _ _ _ _ _ Hinv' mv Hmv) as (? & ? & _).
      done.
    + by apply (li_link _ _ _ _ _ Hinv').
Qed.

Lemma construct_large seeded random0 fuel w num_rows num_cols
    cell_size_x cell_size_y x1 y1 seed :
  1 ≤ num_rows → 1 ≤ num_cols → 1000 ≤ num_rows * num_cols →
  (2 * Z.to_nat (num_rows * num_cols) < fuel)%nat →
  let m := mkMaze x1 y1 num_rows num_cols cell_size_x cell_size_y seed in
  ∃ s,
    Maze__init__ seeded random0 fuel (Some w) num_rows num_cols
      cell_size_x cell_size_y x1 y1 seed = Ok (m, None, s) ∧
    spanning_tree m (cells s) ∧ consistent m (cells s) ∧
    (∀ mv, mv ∈ moves s → mv.2 = false ∧ passage m (cells s) mv.1.1 mv.1.2) ∧
    ∃ a, (a, exit_cell m, false) ∈ moves s.
Proof.
  intros HR HC Hlarge Hfuel m. unfold Maze__init__. fold m.
  set (s0 := initial_state (Some w) random0).
  destruct (generation_ok m fuel s0) as (s1 & Hrun1 & Hinv & Hv1 & Hk1);
    [simpl; lia..|done|done|simpl; lia|].
  unfold is_large in Hinv.
  replace (_ <? 1000) with false in Hinv
    by (simpl; lia).
  simpl negb in Hinv.
  pose proof (gi_tree _ _ _ _ Hinv) as Ht.
  pose proof (ti_wf _ _ _ Ht) as Hwf1.
  pose proof (spanning_tree_inv m _ ltac:(simpl; lia) ltac:(simpl; lia) Ht Hv1)
    as Hst1.
  destruct (reset_loops_ok m s1 Hwf1)
    as (s2 & Hrun2 & Hwf2 & (Hl2 & _ & Hm2 & _) & Hw2 & Hc2).
  assert (Hwalls2 : ∀ c d, inb m c →
            wall d (cell (cells s2) c) = wall d (cell (cells s1) c)).
  { intros c d Hc. rewrite Hc2 by done. by destruct d. }
  destruct (solve_large m fuel s2) as (s3 & Hrun3 & Hs3 & Hmv & Hlink);
    [simpl; lia..|done| | | | | | |simpl; lia|].
  - eapply agree_same_walls; [done|]. apply Ht.
  - eapply dirs_ok_same; [done| |apply Hinv]. intros c Hc. by rewrite Hc2.
  - by eapply spanning_tree_same.
  - rewrite Hw2. apply Hk1. by eexists.
  - intros c Hc. by rewrite Hc2.
  - rewrite Hm2. by destruct Hk1 as [-> _].
  - assert (Hcreate : create_cells m fuel s0 = Ok (None, s3)).
    { rewrite create_cells_phases by (simpl; lia).
      by rewrite (bind_ok _ _ _ _ _ Hrun1), (bind_ok _ _ _ _ _ Hrun2). }
    rewrite (bind_ok _ _ _ _ _ Hcreate).
    destruct (seed_random_ok seeded seed s3) as (s & Hseed & Hcs & _ & Hls & Hms).
    rewrite (bind_ok _ _ _ _ _ Hseed). unfold ret.
    assert (Hwalls : ∀ c d, inb m c →
              wall d (cell (cells s) c) = wall d (cell (cells s1) c)).
    { intros c d Hc. rewrite Hcs, (sv_walls _ _ _ Hs3) by done. by apply Hwalls2. }
    exists s. split_and!.
    + done.
    + by eapply spanning_tree_same.
    + apply agree_consistent. eapply agree_same_walls; [done|]. apply Ht.
    + intros mv. rewrite Hms. intros Hin. destruct (Hmv mv Hin) as [? Hp].
      split; [done|]. eapply passage_same_walls; [|done].
      intros c d Hc. by rewrite Hcs, (sv_walls _ _ _ Hs3).
    + by rewrite Hms.
Qed.

(** * Without a window *)

Lemma lblock_None m s d c stack :
  wf m (cells s) → inb m c → win s = None →
  lblock m d c stack s =
  if lguard m d c && negb (wall d (cell (cells s) c))
     && negb (visited (cell (cells s) (step d c)))
  then Raise AttributeError else Ok (stack, s).
Proof.
  intros Hwf Hc Hw. unfold lblock. destruct (lguard m d c) eqn:Hg; [|done].
  apply lguard_inb in Hg; [|done]. simpl andb.
  unfold try_l. rewrite (bind_ok _ _ _ _ _ (lopen_ok m s d c Hwf Hc Hg)).
  destruct (negb (wall d (cell (cells s) c)) &&
            negb (visited (cell (cells s) (step d c)))); [|done].
  destruct c as [i j]. destruct (step d (i, j)) as [ti tj] eqn:Est.
  simpl fst. simpl snd.
  rewrite (bind_ok _ _ _ _ _ (update_cell_ok m s ti tj _ Hwf Hg)).
  unfold bind at 1.
  rewrite (draw_move_None _ (i, j) (ti, tj)); [done|..|done];
    apply (has_cell_inb m); simpl; (done || by apply wf_upd).
Qed.

Lemma lblocks_None {A} m s c (k : list (Z * Z) → M A) ds : ∀ stack,
  wf m (cells s) → inb m c → win s = None →
  (∃ d, d ∈ ds ∧ inb m (step d c) ∧ wall d (cell (cells s) c) = false ∧
        visited (cell (cells s) (step d c)) = false) →
  lblocks m ds c k stack s = Raise AttributeError.
Proof.
  induction ds as [|d ds IH]; intros stack Hwf Hc Hw (d' & Hd' & Hs & Hwall & Hv).
  { by apply elem_of_nil in Hd'. }
  simpl. unfold bind. rewrite (lblock_None m) by done.
  destruct (lguard m d c && negb (wall d (cell (cells s) c))
            && negb (visited (cell (cells s) (step d c)))) eqn:E; [done|].
  apply IH; [done..|]. exists d'. split_and!; [|done..].
  apply elem_of_cons in Hd' as [->|?]; [|done].
  apply (lguard_inb m d c Hc) in Hs. by rewrite Hs, Hwall, Hv in E.
Qed.

(** X5: without a window, on every grid of 1000 cells or more, the
    maze is generated, and the first move of [_solve_l] raises
    [AttributeError] in [draw_move], which calls [draw_line] on
    [None]; the constructor ends with that exception. *)
Theorem iterative_solver_without_window_raises seeded random0 fuel rows cols
    size_x size_y x y seed :
  1 ≤ rows → 1 ≤ cols → 1000 ≤ rows * cols →
  (2 * Z.to_nat (rows * cols) < fuel)%nat →
  Maze__init__ seeded random0 fuel None rows cols size_x size_y x y seed
  = Raise AttributeError.
Proof.
  intros HR HC Hlarge Hfuel. unfold Maze__init__.
  set (m := mkMaze x y rows cols size_x size_y seed).
  set (s0 := initial_state None random0).
  destruct (generation_ok m fuel s0) as (s1 & Hrun1 & Hinv & Hv1 & Hk1);
    [simpl; lia..|done|done|simpl; lia|].
  pose proof (gi_tree _ _ _ _ Hinv) as Ht.
  pose proof (ti_wf _ _ _ Ht) as Hwf1.
  pose proof (spanning_tree_inv m _ ltac:(simpl; lia) ltac:(simpl; lia) Ht Hv1)
    as Hst1.
  destruct (reset_loops_ok m s1 Hwf1) as (s2 & Hrun2 & Hwf2 & _ & Hw2 & Hc2).
  assert (Hwin : win s2 = None).
  { rewrite Hw2. destruct Hk1 as [_ [Hk1 _]]. destruct (win s1) as [w|]; [|done].
    destruct Hk1 as [? Hk1]; [by exists w|]. simpl in Hk1. congruence. }
  assert (H0 : inb m (0, 0)) by (split; simpl; lia).
  assert (Hcreate : create_cells m fuel s0 = Raise AttributeError).
  { rewrite create_cells_phases by (simpl; lia).
    rewrite (bind_ok _ _ _ _ _ Hrun1), (bind_ok _ _ _ _ _ Hrun2).
    unfold solve. replace (_ <? 1000) with false by (simpl; lia).
    destruct fuel as [|fuel]; [lia|].
    unfold bind at 1. unfold solve_l. rewrite solve_l_while_S.
    assert ((0 + 1 =? num_cols m) && (0 + 1 =? num_rows m) = false) as ->.
    { apply andb_false_iff. change (0 + 1) with 1.
      destruct (Z.eqb_spec 1 (num_cols m)) as [E|E]; [|by left].
      destruct (Z.eqb_spec 1 (num_rows m)) as [E'|E']; [|by right].
      simpl in E, E'. nia. }
    rewrite (lblocks_None m s2 (0, 0)); [done..|].
    destruct (every_cell_has_opening m (cells s1) (0, 0) Hst1 H0)
      as (d & Hs & Hw); [simpl; lia|].
    exists d. split_and!; [|done| |].
    - rewrite !elem_of_cons. destruct d; auto.
    - rewrite Hc2 by done. by destruct d.
    - by rewrite Hc2. }
  unfold bind at 1. by rewrite Hcreate.
Qed.

(** * The seed is not used *)

Lemma bind_ext {A B} (c c' : M A) (k k' : A → M B) s :
  (∀ s, c s = c' s) → (∀ a s, k a s = k' a s) → bind c k s = bind c' k' s.
Proof.
  intros Hc Hk. unfold bind. rewrite Hc.
  destruct (c' s) as [[a s1]| |]; [apply Hk|done..].
Qed.

Ltac ext_step :=
  match goal with
  | |- ∀ _, _ => intro
  | |- bind _ _ _ = bind _ _ _ => apply bind_ext
  | |- (if ?b then _ else _) _ = _ => destruct b
  | |- (match ?x with _ => _ end) _ = _ => destruct x
  end.

Ltac ext := repeat first [reflexivity | solve [auto] | ext_step].

Lemma break_walls_r_seed sd m fuel :
  (∀ i j s, break_walls_r (with_seed sd m) fuel i j s = break_walls_r m fuel i j s) ∧
  (∀ i j s, break_walls_r_while (with_seed sd m) fuel i j s
            = break_walls_r_while m fuel i j s).
Proof.
  induction fuel as [|f [IH1 IH2]]; [done|].
  split; intros i j s.
  - rewrite !break_walls_r_S. ext.
  - rewrite !break_walls_r_while_S. ext.
Qed.

Lemma for_pairs_l_seed sd m i j pairs : ∀ stack s,
  for_pairs_l (with_seed sd m) i j pairs stack s = for_pairs_l m i j pairs stack s.
Proof. induction pairs as [|[a b] pairs IH]; intros stack s; simpl; ext. Qed.

Lemma break_walls_l_while_seed sd m fuel : ∀ stack s,
  break_walls_l_while (with_seed sd m) fuel stack s
  = break_walls_l_while m fuel stack s.
Proof.
  induction fuel as [|f IH]; intros [|[i j] stack] s; simpl; try done.
  ext. apply for_pairs_l_seed.
Qed.

Lemma solve_r_seed sd m fuel : ∀ i j s,
  solve_r (with_seed sd m) fuel i j s = solve_r m fuel i j s.
Proof.
  induction fuel as [|f IH]; intros i j s; [done|].
  rewrite !solve_r_S. unfold sblock, try_r.
  cbn [sguard with_seed num_cols num_rows]. ext.
Qed.

Lemma solve_l_while_seed sd m fuel : ∀ stack s,
  solve_l_while (with_seed sd m) fuel stack s = solve_l_while m fuel stack s.
Proof.
  induction fuel as [|f IH]; intros [|[i j] stack] s; try done.
  rewrite !solve_l_while_S. cbn [lblocks]. unfold lblock, try_l.
  cbn [lguard with_seed num_cols num_rows]. ext.
Qed.

Lemma create_cells_seed sd m fuel s :
  create_cells (with_seed sd m) fuel s = create_cells m fuel s.
Proof.
  pose proof (break_walls_r_seed sd m fuel) as [Hr _].
  pose proof (break_walls_l_while_seed sd m fuel) as Hl.
  pose proof (solve_r_seed sd m fuel) as Hsr.
  pose proof (solve_l_while_seed sd m fuel) as Hsl.
  unfold create_cells, break_entrance_and_exit, reset_cells_visited,
    open_and_carve, solve, solve_l, break_walls_l.
  cbn [with_seed num_cols num_rows]. ext.
Qed.

Lemma Maze__init__seed seeded random0 fuel window rows cols size_x size_y x y seed :
  ∃ r,
    create_cells (mkMaze x y rows cols size_x size_y None) fuel
      (initial_state window random0) = r ∧
    Maze__init__ seeded random0 fuel window rows cols size_x size_y x y seed =
    match r with
    | Ok (b, s) =>
        Ok (mkMaze x y rows cols size_x size_y seed, b,
            match seed with
            | Some z => if z =? 0 then s else set_random (seeded z) s
            | None => s
            end)
    | Raise e => Raise e
    | OutOfFuel => OutOfFuel
    end.
Proof.
  eexists. split; [reflexivity|]. unfold Maze__init__.
  change (mkMaze x y rows cols size_x size_y seed)
    with (with_seed seed (mkMaze x y rows cols size_x size_y None)) at 1.
  unfold bind at 1. rewrite create_cells_seed.
  destruct (create_cells _ fuel _) as [[b s]| |]; [|done..].
  unfold seed_random. destruct seed as [z|]; [destruct (z =? 0)|]; done.
Qed.

(** * What the solvers report *)

(** X3: on every grid of 1000 cells or more, built with a window, the
    constructor ends without error; [_solve_l] has run (the solver
    returns no value), every move it has drawn goes through an open
    passage, no move has been undone, and a move into the exit has
    been drawn: the search stops at the exit. *)
Theorem iterative_solver_reaches_the_exit seeded random0 fuel w rows cols
    size_x size_y x y seed :
  1 ≤ rows → 1 ≤ cols → 1000 ≤ rows * cols →
  (2 * Z.to_nat (rows * cols) < fuel)%nat →
  ∃ s,
    Maze__init__ seeded random0 fuel (Some w) rows cols size_x size_y x y seed
    = Ok (mkMaze x y rows cols size_x size_y seed, None, s) ∧
    spanning_tree (mkMaze x y rows cols size_x size_y seed) (cells s) ∧
    (∀ a b, (a, b) ∈ red_segments s →
       passage (mkMaze x y rows cols size_x size_y seed) (cells s) a b) ∧
    undone s = [] ∧
    (cols - 1, rows - 1) ∈ reported_path s.
Proof.
  intros HR HC Hlarge Hfuel.
  destruct (construct_large seeded random0 fuel w rows cols size_x size_y x y
              seed HR HC Hlarge Hfuel) as (s & Hrun & Hst & _ & Hmv & a & Ha).
  exists s. split; [exact Hrun|]. clear Hrun. split; [exact Hst|].
  assert (Hno : ∀ mv, mv ∈ moves s → mv.2 = false).
  { intros mv Hin. by destruct (Hmv mv Hin). }
  assert (Hred : ∀ sg, sg ∈ red_segments s ↔ (sg, false) ∈ moves s).
  { intros sg. rewrite red_segments_no_undo by done.
    rewrite list_elem_of_fmap. split.
    - intros ([sg' u] & -> & Hin). rewrite elem_of_reverse in Hin.
      pose proof (Hno _ Hin) as E. simpl in E. by subst u.
    - intros Hin. exists (sg, false). split; [done|]. by apply elem_of_reverse. }
  split_and!.
  - intros a' b' Hin. apply Hred in Hin. by destruct (Hmv _ Hin).
  - by apply undone_nil.
  - unfold reported_path. right. apply list_elem_of_fmap.
    exists (a, exit_cell (mkMaze x y rows cols size_x size_y seed)).
    split; [done|]. by apply Hred.
Qed.

Lemma iterative_solver_reaches_the_exit_witness :
  1 ≤ 25 ∧ 1 ≤ 40 ∧ 1000 ≤ 25 * 40 ∧ (2 * Z.to_nat (25 * 40) < 2001)%nat ∧
  ∃ s,
    Maze__init__ (λ _, []) [] 2001 (Some (Window_init 800 600)) 25 40
      10 10 0 0 None
    = Ok (mkMaze 0 0 25 40 10 10 None, None, s) ∧
    spanning_tree (mkMaze 0 0 25 40 10 10 None) (cells s) ∧
    (∀ a b, (a, b) ∈ red_segments s →
       passage (mkMaze 0 0 25 40 10 10 None) (cells s) a b) ∧
    undone s = [] ∧
    (40 - 1, 25 - 1) ∈ reported_path s.
Proof.
  split; [lia|]. split; [lia|]. split; [lia|]. split; [lia|].
  apply iterative_solver_reaches_the_exit; lia.
Defined.

(** * The shape of the generated maze *)

(** X4: on a grid of fewer than 1000 cells the carver never moves left
    into column 0 nor up into row 0 (its tests are [i - 1 > 0] and
    [j - 1 > 0]); every generated maze then has two corridors: each
    cell of the top row is open towards its left neighbour, and each
    cell of the left column towards the cell above it. *)
Theorem small_mazes_have_two_corridors window random0 fuel m :
  1 ≤ num_rows m → 1 ≤ num_cols m → num_cols m * num_rows m < 1000 →
  (2 * Z.to_nat (num_rows m * num_cols m) < fuel)%nat →
  ∃ s, generation m fuel (initial_state window random0) = Ok (tt, s) ∧
    (∀ i, 1 ≤ i < num_cols m →
       has_left_wall (cell (cells s) (i, 0)) = false ∧
       has_right_wall (cell (cells s) (i - 1, 0)) = false) ∧
    (∀ j, 1 ≤ j < num_rows m →
       has_top_wall (cell (cells s) (0, j)) = false ∧
       has_bottom_wall (cell (cells s) (0, j - 1)) = false).
Proof.
  intros HR HC Hsmall Hfuel.
  destruct (generation_small m fuel (initial_state window random0))
    as (s & Hrun & Hinv & Hv & _ & Hco); [done..|].
  exists s. split; [done|].
  pose proof (gi_tree _ _ _ _ Hinv) as Ht.
  pose proof (spanning_tree_inv m _ ltac:(lia) ltac:(lia) Ht Hv) as Hst.
  pose proof (ti_agree _ _ _ Ht) as Hag.
  split.
  - intros i Hi.
    assert (Hin : inb m (i, 0)) by (split; simpl; lia).
    assert (Hin' : inb m (i - 1, 0)) by (split; simpl; lia).
    destruct (Hco (i, 0) Hin) as [H _].
    { apply every_cell_has_opening; [done..|nia]. }
    specialize (H eq_refl ltac:(simpl; lia)). split; [done|].
    pose proof (Hag (i, 0) Left Hin Hin') as E. simpl in E. by rewrite <- E.
  - intros j Hj.
    assert (Hin : inb m (0, j)) by (split; simpl; lia).
    assert (Hin' : inb m (0, j - 1)) by (split; simpl; lia).
    destruct (Hco (0, j) Hin) as [_ H].
    { apply every_cell_has_opening; [done..|nia]. }
    specialize (H eq_refl ltac:(simpl; lia)). split; [done|].
    pose proof (Hag (0, j) Up Hin Hin') as E. simpl in E. by rewrite <- E.
Qed.

Lemma small_mazes_have_two_corridors_witness :
  let m := mkMaze 0 0 3 3 10 10 None in
  1 ≤ num_rows m ∧ 1 ≤ num_cols m ∧ num_cols m * num_rows m < 1000 ∧
  (2 * Z.to_nat (num_rows m * num_cols m) < 19)%nat ∧
  ∃ s, generation m 19 (initial_state None [1; 1; 0]%nat) = Ok (tt, s) ∧
    (∀ i, 1 ≤ i < num_cols m →
       has_left_wall (cell (cells s) (i, 0)) = false ∧
       has_right_wall (cell (cells s) (i - 1, 0)) = false) ∧
    (∀ j, 1 ≤ j < num_rows m →
       has_top_wall (cell (cells s) (0, j)) = false ∧
       has_bottom_wall (cell (cells s) (0, j - 1)) = false).
Proof.
  simpl. split; [lia|]. split; [lia|]. split; [lia|]. split; [lia|].
  apply small_mazes_have_two_corridors; simpl; lia.
Defined.

(** X12: when generation ends, the top wall of the entrance and the
    bottom wall of the exit are open, and no other wall on the outside
    of the grid is. *)
Theorem only_entrance_and_exit_open window random0 fuel m :
  1 ≤ num_rows m → 1 ≤ num_cols m →
  (2 * Z.to_nat (num_rows m * num_cols m) < fuel)%nat →
  ∃ s, generation m fuel (initial_state window random0) = Ok (tt, s) ∧
    ∀ c d, inb m c → ¬ inb m (step d c) →
      (wall d (cell (cells s) c) = false ↔
       (c = (0, 0) ∧ d = Up) ∨ (c = exit_cell m ∧ d = Down)).
Proof.
  intros HR HC Hfuel.
  destruct (generation_ok m fuel (initial_state window random0))
    as (s & Hrun & Hinv & _); [done..|].
  exists s. split; [done|]. intros c d Hc Hs. split.
  - by apply (gi_border _ _ _ _ Hinv).
  - intros [[-> ->]|[-> ->]].
    + by apply (gi_entrance _ _ _ _ Hinv).
    + by apply (gi_exit _ _ _ _ Hinv).
Qed.

Lemma only_entrance_and_exit_open_witness :
  let m := mkMaze 0 0 2 3 10 10 None in
  1 ≤ num_rows m ∧ 1 ≤ num_cols m ∧
  (2 * Z.to_nat (num_rows m * num_cols m) < 13)%nat ∧
  ∃ s, generation m 13 (initial_state None [0; 1]%nat) = Ok (tt, s) ∧
    ∀ c d, inb m c → ¬ inb m (step d c) →
      (wall d (cell (cells s) c) = false ↔
       (c = (0, 0) ∧ d = Up) ∨ (c = exit_cell m ∧ d = Down)).
Proof.
  simpl. split; [lia|]. split; [lia|]. split; [lia|].
  apply only_entrance_and_exit_open; simpl; lia.
Defined.

(** ** The loops of [__create_cells], exactly *)

Lemma range_succ k : 0 ≤ k → range (k + 1) = range k ++ [k].
Proof.
  intros Hk. unfold range.
  replace (Z.to_nat (k + 1)) with (S (Z.to_nat k)) by lia.
  rewrite seq_S, fmap_app. simpl. do 3 f_equal. lia.
Qed.

Lemma length_range_nat n : length (range n) = Z.to_nat n.
Proof. unfold range. by rewrite length_fmap, length_seq. Qed.

Lemma draw_cell_place m s i j :
  has_cell (cells s) (i, j) →
  ∃ s', draw_cell m i j s = Ok (tt, s') ∧
    cells s' = upd (cells s) (i, j) (place m (i, j)) ∧ untouched s s'.
Proof.
  intros Hin. unfold draw_cell.
  edestruct (Cell_draw_at s i j) as (s' & Hd & Hc & Hu); [done|].
  rewrite (bind_ok _ _ _ _ _ Hd).
  rewrite (bind_ok _ _ _ _ _ (has_window_ok s')).
  exists s'. split; [|done].
  case_bool_decide; try done. by apply animate_ok.
Qed.

Lemma create_loops_fresh m s :
  cells s = [] →
  ∃ s', create_loops m s = Ok (tt, s') ∧ untouched s s' ∧
    cells s' = fresh_grid m.
Proof.
  intros Hnil. unfold create_loops, fresh_grid.
  set (col := λ i, (λ j, place m (i, j) Cell_init) <$> range (num_rows m)).
  destruct (for_each_range_ind
    (λ k s', untouched s s' ∧ cells s' = col <$> range k)
    (λ i, append_column;;
       for_each (range (num_rows m)) (λ j, append_cell i;; draw_cell m i j))%M
    (num_cols m) s) as (s' & Hrun & Hu & Hcells).
  - intros k s1 Hk (Hu1 & Hc1).
    set (cols := col <$> range k) in *.
    assert (Hlen : length cols = Z.to_nat k)
      by (unfold cols; by rewrite length_fmap, length_range_nat).
    set (s2 := set_cells (cols ++ [[]]) s1).
    rewrite (bind_ok _ _ s1 tt s2) by (unfold append_column, s2; by rewrite Hc1).
    destruct (for_each_range_ind
      (λ j s', untouched s s' ∧
         cells s' = cols ++ [(λ j', place m (k, j') Cell_init) <$> range j])
      (λ j, append_cell k;; draw_cell m k j)%M (num_rows m) s2)
      as (s3 & Hrun3 & Hu3 & Hcells3).
    + intros j s3 Hj (Hu3 & Hcells3).
      set (cur := (λ j', place m (k, j') Cell_init) <$> range j) in *.
      assert (Hlenc : length cur = Z.to_nat j)
        by (unfold cur; by rewrite length_fmap, length_range_nat).
      assert (Hpos : py_pos (cells s3) k = Some (Z.to_nat k)).
      { apply py_pos_inb. rewrite Hcells3, length_app. simpl. lia. }
      set (s4 := set_cells (cols ++ [cur ++ [Cell_init]]) s3).
      assert (Happ : append_cell k s3 = Ok (tt, s4)).
      { unfold append_cell. rewrite Hpos. do 2 f_equal. unfold s4. f_equal.
        rewrite Hcells3. rewrite <- Hlen.
        replace (length cols) with (length cols + 0)%nat by lia.
        by rewrite alter_app_r. }
      rewrite (bind_ok _ _ _ _ _ Happ).
      assert (Hcol4 : cells s4 !! Z.to_nat k = Some (cur ++ [Cell_init])).
      { simpl. rewrite <- Hlen. by rewrite list_lookup_middle. }
      assert (Hx4 : (cur ++ [Cell_init]) !! Z.to_nat j = Some Cell_init).
      { rewrite <- Hlenc. by rewrite list_lookup_middle. }
      destruct (draw_cell_place m s4 k j) as (s5 & Hrun5 & Hcells5 & Hu5).
      { split_and!; simpl; [lia..|]. simpl in Hcol4. rewrite Hcol4. simpl.
        rewrite Hx4. by eexists. }
      exists s5. split; [done|]. split.
      * eapply untouched_trans; [apply Hu3|].
        eapply untouched_trans; [|apply Hu5]. apply untouched_set_cells.
      * rewrite Hcells5. unfold upd. simpl.
        rewrite <- Hlen at 1.
        replace (length cols) with (length cols + 0)%nat at 1 by lia.
        rewrite alter_app_r. simpl. do 2 f_equal.
        rewrite <- Hlenc.
        replace (length cur) with (length cur + 0)%nat at 1 by lia.
        rewrite alter_app_r. simpl.
        by rewrite range_succ, fmap_app by lia.
    + split; [|done]. eapply untouched_trans; [apply Hu1|].
      apply untouched_set_cells.
    + exists s3. split; [done|]. split; [done|].
      rewrite Hcells3, range_succ, fmap_app by lia. simpl. do 2 f_equal.
      unfold col. f_equal. unfold range. f_equal. f_equal. lia.
  - split; [apply untouched_refl|by rewrite Hnil].
  - exists s'. split_and!; [done..|]. rewrite Hcells. f_equal.
    unfold range. do 2 f_equal. lia.
Qed.

Lemma cell_fresh_grid m c :
  inb m c → cell (fresh_grid m) c = place m c Cell_init.
Proof.
  destruct c as [i j]. intros [Hi Hj]. simpl in Hi, Hj.
  unfold cell, fresh_grid, range. simpl fst. simpl snd.
  rewrite !list_lookup_fmap.
  rewrite lookup_seq_lt by lia. simpl.
  rewrite !list_lookup_fmap. rewrite lookup_seq_lt by lia. simpl.
  by rewrite !Z2Nat.id by lia.
Qed.

(** X11: the two loops of [__create_cells], whatever the dimensions:
    they end without error and leave [num_cols] columns of [num_rows]
    cells each (none when a dimension is not positive); the cell at
    [(i, j)] has its four walls, is not visited, has no direction
    marker, and its corners are at [x1 + i * cell_size_x] and
    [y1 + j * cell_size_y], one cell size apart.  No wall assignment is
    logged, no move is drawn and the random generator is not used. *)
Theorem create_cells_builds_blank_grid window random0 m :
  ∃ s, create_loops m (initial_state window random0) = Ok (tt, s) ∧
    length (cells s) = Z.to_nat (num_cols m) ∧
    Forall (λ col, length col = Z.to_nat (num_rows m)) (cells s) ∧
    (∀ c, inb m c → blank (cell (cells s) c) ∧ placed m c (cell (cells s) c)) ∧
    wall_log s = [] ∧ moves s = [] ∧ random s = random0.
Proof.
  destruct (create_loops_fresh m (initial_state window random0) eq_refl)
    as (s & Hrun & (Hl & Hr & Hm & _) & Hcells).
  exists s. split; [done|]. rewrite Hcells. split_and!; try done.
  - unfold fresh_grid. by rewrite length_fmap, length_range_nat.
  - unfold fresh_grid. apply Forall_fmap, Forall_forall. intros i _. simpl.
    by rewrite length_fmap, length_range_nat.
  - intros c Hc. rewrite cell_fresh_grid by done. split; [|done].
    by repeat split.
Qed.

(** * The seed, the window and the program *)

Lemma red_segments_moves_iff s sg :
  (∀ mv, mv ∈ moves s → mv.2 = false) →
  sg ∈ red_segments s ↔ (sg, false) ∈ moves s.
Proof.
  intros Hno. rewrite red_segments_no_undo by done.
  rewrite list_elem_of_fmap. split.
  - intros ([sg' u] & -> & Hin). rewrite elem_of_reverse in Hin.
    pose proof (Hno _ Hin) as E. simpl in E. by subst u.
  - intros Hin. exists (sg, false). split; [done|]. by apply elem_of_reverse.
Qed.

(** X6: the [seed] argument has no part in generation nor in solving:
    two runs of the constructor that differ in nothing but their seed
    end the same way, with the same value of the solver and the same
    grid, window, wall log and moves. *)
Theorem seed_never_used seeded random0 fuel window rows cols size_x size_y x y
    seed seed' :
  same_run
    (Maze__init__ seeded random0 fuel window rows cols size_x size_y x y seed)
    (Maze__init__ seeded random0 fuel window rows cols size_x size_y x y seed').
Proof.
  destruct (Maze__init__seed seeded random0 fuel window rows cols size_x size_y
              x y seed) as (r & Hr & ->).
  destruct (Maze__init__seed seeded random0 fuel window rows cols size_x size_y
              x y seed') as (r' & Hr' & ->).
  assert (r' = r) as -> by congruence. clear Hr Hr'.
  destruct r as [[b s]| |]; simpl; [|done..].
  destruct seed as [z|], seed' as [z'|];
    repeat match goal with |- context [?a =? 0] => destruct (a =? 0) end;
    by split_and!.
Qed.

(** X7: [if seed:] takes the seed 0 for no seed: a run with [seed=0]
    ends as the run without a seed does, in the same state, the state
    of the random generator included. *)
Theorem seed_zero_is_no_seed seeded random0 fuel window rows cols size_x size_y
    x y :
  match
    Maze__init__ seeded random0 fuel window rows cols size_x size_y x y (Some 0),
    Maze__init__ seeded random0 fuel window rows cols size_x size_y x y None
  with
  | Ok (_, b, s), Ok (_, b', s') => b = b' ∧ s = s'
  | Raise e, Raise e' => e = e'
  | OutOfFuel, OutOfFuel => True
  | _, _ => False
  end.
Proof.
  destruct (Maze__init__seed seeded random0 fuel window rows cols size_x size_y
              x y (Some 0)) as (r & Hr & ->).
  destruct (Maze__init__seed seeded random0 fuel window rows cols size_x size_y
              x y None) as (r' & Hr' & ->).
  assert (r' = r) as -> by congruence. clear Hr Hr'.
  by destruct r as [[b s]| |].
Qed.

(** X8: a seed other than 0 reaches the generator when the maze has
    been generated and solved: the run ends as the run without a seed
    from the same state of the generator does, with the same value of
    the solver and in the same state, but for the generator, which is
    left in the state that [random.seed(seed)] sets. *)
Theorem seed_is_applied_last seeded random0 fuel window rows cols size_x size_y
    x y z :
  z ≠ 0 →
  match
    Maze__init__ seeded random0 fuel window rows cols size_x size_y x y None,
    Maze__init__ seeded random0 fuel window rows cols size_x size_y x y (Some z)
  with
  | Ok (_, b, s), Ok (_, b', s') => b' = b ∧ s' = set_random (seeded z) s
  | Raise e, Raise e' => e' = e
  | OutOfFuel, OutOfFuel => True
  | _, _ => False
  end.
Proof.
  intros Hz.
  destruct (Maze__init__seed seeded random0 fuel window rows cols size_x size_y
              x y None) as (r & Hr & ->).
  destruct (Maze__init__seed seeded random0 fuel window rows cols size_x size_y
              x y (Some z)) as (r' & Hr' & ->).
  assert (r' = r) as -> by congruence. clear Hr Hr'.
  destruct r as [[b s]| |]; [|done..].
  by replace (z =? 0) with false by lia.
Qed.

Lemma seed_is_applied_last_witness :
  42 ≠ 0 ∧
  match
    Maze__init__ (λ z, [Z.to_nat z]) [1; 0; 2]%nat 13
      (Some (Window_init 800 600)) 3 2 10 10 0 0 None,
    Maze__init__ (λ z, [Z.to_nat z]) [1; 0; 2]%nat 13
      (Some (Window_init 800 600)) 3 2 10 10 0 0 (Some 42)
  with
  | Ok (_, b, s), Ok (_, b', s') =>
      b' = b ∧ s' = set_random ((λ z, [Z.to_nat z]) 42) s
  | Raise e, Raise e' => e' = e
  | OutOfFuel, OutOfFuel => True
  | _, _ => False
  end.
Proof.
  assert (H : 42 ≠ 0) by lia.
  split; [exact H|].
  exact (seed_is_applied_last (λ z, [Z.to_nat z]) [1; 0; 2]%nat 13
           (Some (Window_init 800 600)) 3 2 10 10 0 0 42 H).
Defined.

Lemma iterative_solver_without_window_raises_witness :
  1 ≤ 20 ∧ 1 ≤ 50 ∧ 1000 ≤ 20 * 50 ∧ (2 * Z.to_nat (20 * 50) < 2001)%nat ∧
  Maze__init__ (λ _, []) [] 2001 None 20 50 10 10 0 0 None
  = Raise AttributeError.
Proof.
  split; [lia|]. split; [lia|]. split; [lia|]. split; [lia|].
  apply iterative_solver_without_window_raises; lia.
Defined.

(** X13: the maze of [main], 52 rows and 94 columns in a window of
    1920 by 1080: whatever the random generator yields, construction
    ends without error; the iterative carver and solver run; the 4888
    cells are joined by 4887 passages that form a spanning tree, and
    the solver has drawn its way into the exit (93, 51) without
    undoing any move. *)
Theorem main_builds_and_solves_its_maze seeded random0 fuel :
  (2 * Z.to_nat (52 * 94) < fuel)%nat →
  ∃ m s, main seeded random0 fuel = Ok (m, None, s) ∧
    num_rows m = 52 ∧ num_cols m = 94 ∧
    spanning_tree m (cells s) ∧
    length (passages m (cells s)) = 4887%nat ∧
    undone s = [] ∧ (93, 51) ∈ reported_path s.
Proof.
  intros Hfuel. unfold main.
  destruct (construct_large seeded random0 fuel (Window_init 1920 1080)
              52 94 10 10 100 50 None) as (s & Hrun & Hst & _ & Hmv & a & Ha);
    [lia..|].
  exists (mkMaze 100 50 52 94 10 10 None), s.
  split; [exact Hrun|]. clear Hrun.
  assert (Hno : ∀ mv, mv ∈ moves s → mv.2 = false).
  { intros mv Hin. by destruct (Hmv mv Hin). }
  split; [reflexivity|]. split; [reflexivity|]. split; [exact Hst|].
  split_and!.
  - pose proof (st_count _ _ Hst) as Hn. cbn [num_rows num_cols] in Hn. lia.
  - by apply undone_nil.
  - unfold reported_path. right. apply list_elem_of_fmap.
    exists (a, (93, 51)). split; [done|]. by apply red_segments_moves_iff.
Qed.

Lemma main_builds_and_solves_its_maze_witness :
  (2 * Z.to_nat (52 * 94) < 2 * Z.to_nat (52 * 94) + 1)%nat ∧
  ∃ m s, main (λ _, []) [] (2 * Z.to_nat (52 * 94) + 1) = Ok (m, None, s) ∧
    num_rows m = 52 ∧ num_cols m = 94 ∧
    spanning_tree m (cells s) ∧
    length (passages m (cells s)) = 4887%nat ∧
    undone s = [] ∧ (93, 51) ∈ reported_path s.
Proof.
  split; [lia|]. apply main_builds_and_solves_its_maze. lia.
Defined.

(** * Drawing, on concrete cells *)

Lemma Cell_draw_paints_walls_witness :
  let s := mkState [[with_top false Cell_init]] (Some (Window_init 800 600))
                   [] [] [] in
  has_cell (cells s) (0, 0) ∧ win s = Some (Window_init 800 600) ∧
  Cell_draw 0 0 100 50 110 60 s
  = Ok (tt, mkState (upd (cells s) (0, 0) (with_coords 100 50 110 60))
              (Some (paint (wall_lines (cell (cells s) (0, 0)) 100 50 110 60)
                           (Window_init 800 600)))
              (random s) (wall_log s) (moves s)).
Proof.
  intros s.
  assert (H1 : has_cell (cells s) (0, 0)).
  { split; [simpl; lia|]. split; [simpl; lia|]. by eexists. }
  assert (H2 : win s = Some (Window_init 800 600)) by reflexivity.
  split; [exact H1|]. split; [exact H2|].
  exact (Cell_draw_paints_walls s 0 0 100 50 110 60 (Window_init 800 600) H1 H2).
Defined.

(** X10: [draw_move] with [undo] set, between two neighbours that lie
    where [__draw_cell] puts them, the cells having a positive size:
    the segment between their centres is drawn in gray, the marker of
    the direction of the move is set to [False] in the first cell and
    the marker of the opposite direction in the second one; no other
    marker and no other cell changes. *)
Theorem undo_marks_both_cells m s a d w :
  0 < cell_size_x m → 0 < cell_size_y m →
  has_cell (cells s) a → has_cell (cells s) (step d a) →
  placed m a (cell (cells s) a) →
  placed m (step d a) (cell (cells s) (step d a)) →
  win s = Some w →
  ∃ s', draw_move a.1 a.2 (step d a).1 (step d a).2 true s = Ok (tt, s') ∧
    cell (cells s') a = with_dir (key d) false (cell (cells s) a) ∧
    cell (cells s') (step d a)
    = with_dir (key (opp d)) false (cell (cells s) (step d a)) ∧
    (∀ c, 0 ≤ c.1 → 0 ≤ c.2 → c ≠ a → c ≠ step d a →
          cell (cells s') c = cell (cells s) c) ∧
    win s' = Some (paint [(Line.make (centre (cell (cells s) a))
                                     (centre (cell (cells s) (step d a))),
                           "gray")] w) ∧
    moves s' = (a, step d a, true) :: moves s.
Proof.
  intros Hx Hy Ha Hb Pa Pb Hw.
  rewrite (draw_move_undo m s a d w) by done.
  eexists. split; [reflexivity|]. simpl.
  pose proof (step_ne d a) as Hne.
  destruct Ha as (Ha1 & Ha2 & Ha3), Hb as (Hb1 & Hb2 & Hb3).
  split_and!; try done.
  - rewrite cell_upd_other by done. by rewrite cell_upd_at.
  - rewrite cell_upd_at by (by apply has_cell_upd).
    by rewrite cell_upd_other.
  - intros c Hc1 Hc2 Hca Hcb. by rewrite !cell_upd_other.
Qed.

Lemma undo_marks_both_cells_witness :
  let m := mkMaze 100 50 1 2 10 10 None in
  let s := mkState [[place m (0, 0) Cell_init]; [place m (1, 0) Cell_init]]
                   (Some (Window_init 800 600)) [] [] [] in
  0 < cell_size_x m ∧ 0 < cell_size_y m ∧
  has_cell (cells s) (0, 0) ∧ has_cell (cells s) (step Right (0, 0)) ∧
  placed m (0, 0) (cell (cells s) (0, 0)) ∧
  placed m (step Right (0, 0)) (cell (cells s) (step Right (0, 0))) ∧
  win s = Some (Window_init 800 600) ∧
  ∃ s', draw_move 0 0 1 0 true s = Ok (tt, s') ∧
    cell (cells s') (0, 0) = with_dir "right" false (cell (cells s) (0, 0)) ∧
    cell (cells s') (1, 0) = with_dir "left" false (cell (cells s) (1, 0)) ∧
    (∀ c, 0 ≤ c.1 → 0 ≤ c.2 → c ≠ (0, 0) → c ≠ (1, 0) →
          cell (cells s') c = cell (cells s) c) ∧
    win s' = Some (paint [(Line.make (centre (cell (cells s) (0, 0)))
                                     (centre (cell (cells s) (1, 0))),
                           "gray")] (Window_init 800 600)) ∧
    moves s' = ((0, 0), (1, 0), true) :: moves s.
Proof.
  intros m s.
  assert (H1 : 0 < cell_size_x m) by (simpl; lia).
  assert (H2 : 0 < cell_size_y m) by (simpl; lia).
  assert (H3 : has_cell (cells s) (0, 0)).
  { split; [simpl; lia|]. split; [simpl; lia|]. by eexists. }
  assert (H4 : has_cell (cells s) (step Right (0, 0))).
  { split; [simpl; lia|]. split; [simpl; lia|]. by eexists. }
  assert (H5 : placed m (0, 0) (cell (cells s) (0, 0))) by (by repeat split).
  assert (H6 : placed m (step Right (0, 0)) (cell (cells s) (step Right (0, 0))))
    by (by repeat split).
  assert (H7 : win s = Some (Window_init 800 600)) by reflexivity.
  split_and!; [done..|].
  exact (undo_marks_both_cells m s (0, 0) Right (Window_init 800 600)
           H1 H2 H3 H4 H5 H6 H7).
Defined.

(** * Invariants of the large-grid carver *)

(** A property of the grid that each step of [__break_walls_l] keeps
    is kept by a run of it. *)
Section carver_l_invariant.
Context (m : Maze) (Q : Grid → Prop).
Hypothesis Q_mark : ∀ g c,
  wf m g → inb m c → Q g → Q (upd g c (with_visited true)).
Hypothesis Q_draw : ∀ g c,
  wf m g → inb m c → Q g → Q (upd g c (place m c)).
Hypothesis Q_carve : ∀ s a d,
  gen_inv true m s None → inb m a → visited (cell (cells s) a) = true →
  inb m (step d a) → visited (cell (cells s) (step d a)) = false →
  Q (cells s) → Q (carve_l (cells s) a d).

Lemma for_pairs_l_keeps a : ∀ pairs s stack stack' s',
  gen_inv true m s None → inb m a → visited (cell (cells s) a) = true →
  NoDup pairs →
  (∀ x, x ∈ pairs → ∃ d, x = step d a ∧ inb m x ∧
                         visited (cell (cells s) x) = false) →
  for_pairs_l m a.1 a.2 pairs stack s = Ok (stack', s') →
  Q (cells s) → Q (cells s').
Proof.
  destruct a as [i j]. simpl fst. simpl snd.
  induction pairs as [|b pairs IH]; intros s stack stack' s' Hinv Ha Hva Hnd Hp.
  { simpl. by intros [= _ <-]. }
  apply NoDup_cons in Hnd as [Hnb Hnd].
  destruct (Hp b) as (d & Hb & Hbin & Hvb); [by left|].
  destruct b as [ni nj]. simpl for_pairs_l.
  pose proof (ti_wf _ _ _ (gi_tree _ _ _ _ Hinv)) as Hwf.
  pose proof (connect_l_ok m s (i, j) d Hwf Ha) as Hcon.
  rewrite <- Hb in Hcon. specialize (Hcon Hbin). simpl in Hcon.
  rewrite (bind_ok _ _ _ _ _ Hcon).
  match type of Hcon with _ = Ok (_, ?st) => set (s1 := st) in * end.
  assert (Hinv1 : gen_inv true m s1 (Some (ni, nj))).
  { pose proof (gen_inv_carve_l m s s1 (i, j) d) as H. rewrite <- Hb in H.
    by apply H. }
  assert (Hwf1 : wf m (cells s1)) by apply Hinv1.
  set (s2 := set_cells (upd (cells s1) (ni, nj) (with_visited true)) s1).
  rewrite (bind_ok _ _ _ _ _ (update_cell_ok m s1 ni nj _ Hwf1 Hbin)). fold s2.
  assert (Hinv2 : gen_inv true m s2 None) by (by eapply gen_inv_mark).
  assert (Hwf2 : wf m (cells s2)) by apply Hinv2.
  destruct (draw_cell_run m s2 i j Hwf2 Ha)
    as (s3 & Hrun3 & Hcells3 & Hlog3 & _ & Hk3).
  rewrite (bind_ok _ _ _ _ _ Hrun3).
  assert (Hinv3 : gen_inv true m s3 None)
    by (by eapply (gen_inv_coords _ _ s2 s3 _ (i, j))).
  assert (Hwf3 : wf m (cells s3)) by apply Hinv3.
  destruct (draw_cell_run m s3 ni nj Hwf3 Hbin)
    as (s4 & Hrun4 & Hcells4 & Hlog4 & _ & Hk4).
  rewrite (bind_ok _ _ _ _ _ Hrun4).
  assert (Hinv4 : gen_inv true m s4 None)
    by (by eapply (gen_inv_coords _ _ s3 s4 _ (ni, nj))).
  assert (Hv1 : ∀ c, inb m c →
            visited (cell (cells s1) c) = visited (cell (cells s) c)).
  { intros c Hc. simpl. rewrite (cell_carve_l m) by (done || by rewrite <- Hb).
    rewrite <- (visited_carve m (cells s) (i, j) d) by (done || by rewrite <- Hb).
    by repeat case_decide. }
  assert (Hv4 : ∀ c, inb m c →
            visited (cell (cells s4) c)
            = if decide ((ni, nj) = c) then true else visited (cell (cells s) c)).
  { intros c Hc. rewrite Hcells4. unfold place.
    rewrite (visited_upd_coords m) by done.
    rewrite Hcells3. unfold place. rewrite (visited_upd_coords m) by done.
    unfold s2. simpl cells. rewrite (visited_upd_mark m) by done.
    case_decide; [done|]. by apply Hv1. }
  intros Hrun HQ.
  apply (IH s4 ((ni, nj) :: stack) stack' s'); [done|done| |done| |done|].
  - rewrite Hv4 by done. by case_decide.
  - intros x Hx. destruct (Hp x) as (d' & Hx1 & Hx2 & Hx3); [by right|].
    exists d'. split_and!; [done..|]. rewrite Hv4 by done.
    rewrite decide_False; [done|]. by intros <-.
  - rewrite Hcells4. apply Q_draw; [done..|].
    rewrite Hcells3. apply Q_draw; [done..|].
    unfold s2. simpl cells. apply Q_mark; [done..|].
    pose proof (Q_carve s (i, j) d Hinv Ha Hva) as H. rewrite <- Hb in H.
    by apply H.
Qed.

Lemma break_walls_l_while_keeps : ∀ fuel stack s p s',
  gen_inv true m s p →
  (∀ a, p = Some a → head stack = Some a) →
  (∀ c, c ∈ stack → inb m c ∧ reached (cells s) p c) →
  (∀ c, inb m c → visited (cell (cells s) c) = true →
        closed true m (cells s) c ∨ c ∈ stack) →
  (length stack + unvisited_count m (cells s) ≤ fuel)%nat →
  break_walls_l_while m fuel stack s = Ok (tt, s') →
  Q (cells s) → Q (cells s').
Proof.
  induction fuel as [|f IH]; intros stack s p s' Hinv Hp Hstk Hcl Hf;
    destruct stack as [|[i j] rest];
    [simpl; by intros [= <-]|simpl in Hf; lia|simpl; by intros [= <-]|].
  destruct (Hstk (i, j)) as [Ha Hra]; [by left|].
  pose proof (ti_wf _ _ _ (gi_tree _ _ _ _ Hinv)) as Hwf.
  simpl break_walls_l_while.
  set (s1 := set_cells (upd (cells s) (i, j) (with_visited true)) s).
  rewrite (bind_ok _ _ _ _ _ (update_cell_ok m s i j _ Hwf Ha)). fold s1.
  assert (Hinv1 : gen_inv true m s1 None).
  { destruct p as [a|].
    - specialize (Hp a eq_refl). injection Hp as <-. by eapply gen_inv_mark.
    - destruct Hra as [Hv|[=]]. by eapply gen_inv_remark. }
  assert (Hwf1 : wf m (cells s1)) by apply Hinv1.
  assert (Hv1 : ∀ c, inb m c → visited (cell (cells s1) c)
              = if decide ((i, j) = c) then true else visited (cell (cells s) c)).
  { intros c Hc. by apply (visited_upd_mark m). }
  assert (Hg1 : grows m (cells s) (cells s1)).
  { intros c Hc Hvc. rewrite Hv1 by done. by case_decide. }
  rewrite (bind_ok _ _ _ _ _ (indexes_to_visit_ok m s1 i j Hwf1 Ha)).
  destruct (shuffle_ok (candidates true m (cells s1) (i, j)) s1)
    as (l' & s2 & Hsh & Hperm & Hc2 & Hl2 & Hk2).
  rewrite (bind_ok _ _ _ _ _ Hsh).
  assert (Hinv2 : gen_inv true m s2 None) by (by eapply gen_inv_ext).
  assert (Hl' : ∀ x, x ∈ l' → ∃ d, x = step d (i, j) ∧ allowed true m d (i, j) ∧
                  visited (cell (cells s1) x) = false).
  { intros x Hx. rewrite Hperm in Hx. by apply elem_of_candidates in Hx. }
  assert (Hva2 : visited (cell (cells s2) (i, j)) = true).
  { rewrite Hc2, Hv1 by done. by rewrite decide_True. }
  assert (Hnd : NoDup l') by (rewrite Hperm; apply NoDup_candidates).
  assert (Hpairs : ∀ x, x ∈ l' → ∃ d, x = step d (i, j) ∧ inb m x ∧
                     visited (cell (cells s2) x) = false).
  { intros x Hx. destruct (Hl' x Hx) as (d & -> & Hd & Hvx). exists d.
    split_and!; [done|by eapply allowed_inb|by rewrite Hc2]. }
  destruct (for_pairs_l_ok m (i, j) l' s2 rest)
    as (s3 & Hrun3 & Hinv3 & Hk3 & Hv3 & Hu3); [done..|].
  simpl in Hrun3. rewrite (bind_ok _ _ _ _ _ Hrun3).
  assert (Hg3 : grows m (cells s1) (cells s3)).
  { intros c Hc Hvc. apply Hv3; [done|]. left. by rewrite Hc2. }
  intros Hrun HQ.
  apply (IH (rev l' ++ rest) s3 None s'); [done|done|..|done|].
  - intros c Hc. apply elem_of_app in Hc as [Hc|Hc].
    + rewrite elem_of_rev in Hc. destruct (Hl' c Hc) as (d & -> & Hd & _).
      split; [by eapply allowed_inb|]. left. apply Hv3; [by eapply allowed_inb|].
      by right.
    + destruct (Hstk c) as [Hcin Hr]; [by right|]. split; [done|]. left.
      apply Hg3; [done|]. rewrite Hv1 by done. case_decide as E; [done|].
      destruct Hr as [?|Hr]; [done|]. specialize (Hp _ Hr). simpl in Hp.
      congruence.
  - intros c Hc Hvc. apply Hv3 in Hvc; [|done]. destruct Hvc as [Hvc|Hvc].
    + rewrite Hc2, Hv1 in Hvc by done. case_decide as E.
      * subst c. left. intros d Hd.
        assert (Hin : inb m (step d (i, j))) by (by eapply allowed_inb).
        destruct (visited (cell (cells s1) (step d (i, j)))) eqn:Ev.
        -- by apply Hg3.
        -- apply Hv3; [done|]. right. rewrite Hperm.
           apply elem_of_candidates. eauto.
      * destruct (Hcl c Hc Hvc) as [Hclosed|Hin].
        -- left. eapply closed_grows; [done| |done].
           by eapply grows_trans.
        -- right. apply elem_of_app. right.
           apply elem_of_cons in Hin as [->|Hin]; done.
    + right. apply elem_of_app. left. by rewrite elem_of_rev.
  - rewrite length_app, length_rev.
    pose proof (unvisited_count_le m _ _ Hg1). rewrite Hc2 in Hu3.
    simpl in Hf. lia.
  - apply (for_pairs_l_keeps (i, j) l' s2 rest _ s3 Hinv2 Ha Hva2 Hnd Hpairs Hrun3).
    rewrite Hc2. unfold s1. simpl cells. by apply Q_mark.
Qed.

End carver_l_invariant.

(** * The corners of the cells *)

Lemma placed_place m c x : placed m c (place m c x).
Proof. by destruct x. Qed.

Lemma all_placed_fresh m : all_placed m (fresh_grid m).
Proof. intros c Hc. rewrite cell_fresh_grid by done. apply placed_place. Qed.

Lemma all_placed_carve m g a d :
  wf m g → inb m a → inb m (step d a) →
  all_placed m g → all_placed m (carve g a d).
Proof.
  intros Hwf Ha Hb Hg. unfold carve.
  apply all_placed_upd; [by apply wf_upd|done| |].
  { intros x. by destruct d. }
  apply all_placed_upd; [done..| |done]. intros x. by destruct d.
Qed.

Lemma all_placed_carve_l m g a d :
  wf m g → inb m a → inb m (step d a) →
  all_placed m g → all_placed m (carve_l g a d).
Proof.
  intros Hwf Ha Hb Hg. unfold carve_l.
  apply all_placed_upd; [by apply wf_upd, wf_upd, wf_upd|done|done|].
  apply all_placed_upd; [by apply wf_upd, wf_upd|done|done|].
  by apply all_placed_carve.
Qed.

(** The statements of [__break_entrance_and_exit] before the carver
    is called keep the corners. *)
Lemma open_ends_placed m s s' :
  1 ≤ num_cols m → 1 ≤ num_rows m → wf m (cells s) →
  (update_cell 0 0 (with_top false);; log_walls;;
   update_cell (num_cols m - 1) (num_rows m - 1) (with_bottom false);;
   log_walls;;
   draw_cell m 0 0;;
   draw_cell m (num_cols m - 1) (num_rows m - 1);;
   ret tt)%M s = Ok (tt, s') →
  all_placed m (cells s) → all_placed m (cells s').
Proof.
  intros HC HR Hwf.
  set (ex := (num_cols m - 1, num_rows m - 1)).
  assert (H0 : inb m (0, 0)) by (split; simpl; lia).
  assert (He : inb m ex) by (split; simpl; lia).
  rewrite (bind_ok _ _ _ _ _ (update_cell_ok m s 0 0 _ Hwf H0)).
  erewrite bind_ok; [|reflexivity].
  match goal with |- context [bind _ _ ?st] => set (s1 := st) end.
  assert (Hwf1 : wf m (cells s1)) by (by apply wf_upd).
  rewrite (bind_ok _ _ _ _ _ (update_cell_ok m s1 _ _ _ Hwf1 He)).
  erewrite bind_ok; [|reflexivity].
  match goal with |- context [bind _ _ ?st] => set (s2 := st) end.
  assert (Hwf2 : wf m (cells s2)) by (by apply wf_upd, wf_upd).
  destruct (draw_cell_run m s2 0 0 Hwf2 H0) as (s3 & Hrun3 & Hcells3 & _).
  rewrite (bind_ok _ _ _ _ _ Hrun3).
  assert (Hwf3 : wf m (cells s3)) by (rewrite Hcells3; by apply wf_upd).
  destruct (draw_cell_run m s3 _ _ Hwf3 He) as (s4 & Hrun4 & Hcells4 & _).
  rewrite (bind_ok _ _ _ _ _ Hrun4).
  intros [= <-] Hpl. rewrite Hcells4.
  apply all_placed_upd; [done..| |]. { intros x _. apply placed_place. }
  rewrite Hcells3.
  apply all_placed_upd; [done..| |]. { intros x _. apply placed_place. }
  apply all_placed_upd; [done..|]. by apply all_placed_upd.
Qed.

(** Generation keeps every cell where the creation loops have put
    it. *)
Lemma generation_placed m fuel s s' :
  1 ≤ num_cols m → 1 ≤ num_rows m → cells s = [] → wall_log s = [] →
  (2 * Z.to_nat (num_rows m * num_cols m) < fuel)%nat →
  generation m fuel s = Ok (tt, s') → all_placed m (cells s').
Proof.
  intros HC HR Hnil Hlog Hfuel. unfold generation.
  destruct (create_loops_ok m s Hnil) as (s1 & Hrun1 & (Hl1 & _ & Hk1) & Hlen1 & HG1).
  destruct (create_loops_fresh m s Hnil) as (s1' & Hrun1' & _ & Hfresh).
  rewrite Hrun1 in Hrun1'. injection Hrun1' as <-.
  rewrite (bind_ok _ _ _ _ _ Hrun1).
  assert (Hwf1 : wf m (cells s1)) by (apply wf_created; (lia || done)).
  destruct (open_ends_ok m s1) as (s2 & Hrun2 & Hwf2 & Ho2 & Hlog2 & Hlen2 & Hk2);
    [done|done|done|by intros; eapply blank_cells|congruence|].
  unfold open_and_carve. rewrite Hrun2.
  assert (Hpl2 : all_placed m (cells s2)).
  { apply (open_ends_placed m s1 s2); [done..|apply (Hrun2 (ret tt))|].
    rewrite Hfresh. apply all_placed_fresh. }
  assert (H0 : inb m (0, 0)) by (split; simpl; lia).
  assert (Hv2 : ∀ c, inb m c → visited (cell (cells s2) c) = false).
  { intros c Hc. by destruct (Ho2 c Hc). }
  assert (Hu2 : (unvisited_count m (cells s2)
                 ≤ Z.to_nat (num_rows m * num_cols m))%nat).
  { pose proof (unvisited_count_total m (cells s2)).
    pose proof (length_all_cells m). lia. }
  destruct (num_cols m * num_rows m <? 1000) eqn:Hsize.
  - intros Hrun.
    destruct (break_walls_r_keeps m (all_placed m)) with (fuel := fuel) as [H _].
    + intros g c Hwf Hc. by apply all_placed_upd.
    + intros g c Hwf Hc. apply all_placed_upd; [done..|].
      intros x _. apply placed_place.
    + intros s0 a d Hinv Ha _ Hd _.
      apply all_placed_carve; [apply Hinv|done|by eapply allowed_inb].
    + apply (H s2 (0, 0) s'); [by apply gen_inv_opened|done|by apply Hv2|lia|done..].
  - intros Hrun.
    apply (break_walls_l_while_keeps m (all_placed m)) with
      (fuel := fuel) (stack := [(0, 0)]) (s := s2) (p := Some (0, 0)).
    + intros g c Hwf Hc. by apply all_placed_upd.
    + intros g c Hwf Hc. apply all_placed_upd; [done..|].
      intros x _. apply placed_place.
    + intros s0 a d Hinv Ha _ Hd _.
      apply all_placed_carve_l; [apply Hinv|done..].
    + by apply gen_inv_opened.
    + by intros a [= <-].
    + intros c Hc. apply list_elem_of_singleton in Hc as ->. split; [done|].
      by right.
    + intros c Hc Hvc. rewrite Hv2 in Hvc; done.
    + simpl. lia.
    + done.
    + done.
Qed.

(** ** The corners at the end of construction *)

Lemma reset_loops_placed m s s' :
  wf m (cells s) → reset_loops m s = Ok (tt, s') →
  all_placed m (cells s) → all_placed m (cells s').
Proof.
  intros Hwf Hrun Hpl c Hc.
  destruct (reset_loops_ok m s Hwf) as (s2 & Hrun2 & _ & _ & _ & Hc2).
  rewrite Hrun in Hrun2. injection Hrun2 as <-.
  rewrite Hc2 by done. apply (Hpl c Hc).
Qed.

(** With a window and enough fuel, the run in which every call finds
    room ends, and every cell of the grid still has the corners that
    [__draw_cell] gave it in [__create_cells]. *)
Lemma construct_placed seeded random0 fuel w rows cols
    size_x size_y x y seed :
  1 ≤ rows → 1 ≤ cols → (2 * Z.to_nat (rows * cols) < fuel)%nat →
  ∃ r s,
    Maze__init__ seeded random0 fuel (Some w) rows cols size_x size_y x y seed
    = Ok (mkMaze x y rows cols size_x size_y seed, r, s) ∧
    ∀ i j, 0 ≤ i < cols → 0 ≤ j < rows →
      _x1 (cell (cells s) (i, j)) = x + i * size_x ∧
      _y1 (cell (cells s) (i, j)) = y + j * size_y ∧
      _x2 (cell (cells s) (i, j)) = x + i * size_x + size_x ∧
      _y2 (cell (cells s) (i, j)) = y + j * size_y + size_y.
Proof.
  intros HR HC Hfuel.
  set (m := mkMaze x y rows cols size_x size_y seed).
  assert (∃ r s,
    Maze__init__ seeded random0 fuel (Some w) rows cols size_x size_y x y seed
    = Ok (m, r, s) ∧ all_placed m (cells s)) as (r & s & Hrun & Hpl).
  { unfold Maze__init__. fold m.
    set (s0 := initial_state (Some w) random0).
    destruct (generation_ok m fuel s0) as (s1 & Hrun1 & Hinv & Hv1 & Hk1);
      [simpl; lia..|done|done|simpl; lia|].
    assert (Hpl1 : all_placed m (cells s1)).
    { apply (generation_placed m fuel s0 s1); (done || simpl; lia). }
    pose proof (gi_tree _ _ _ _ Hinv) as Ht.
    pose proof (ti_wf _ _ _ Ht) as Hwf1.
    pose proof (spanning_tree_inv m _ ltac:(simpl; lia) ltac:(simpl; lia) Ht Hv1)
      as Hst1.
    destruct (reset_loops_ok m s1 Hwf1)
      as (s2 & Hrun2 & Hwf2 & (Hl2 & _ & Hm2 & _) & Hw2 & Hc2).
    assert (Hpl2 : all_placed m (cells s2))
      by (by apply (reset_loops_placed m s1 s2)).
    assert (Hwalls2 : ∀ c d, inb m c →
              wall d (cell (cells s2) c) = wall d (cell (cells s1) c)).
    { intros c d Hc. rewrite Hc2 by done. by destruct d. }
    assert (Hwin2 : is_Some (win s2)).
    { rewrite Hw2. apply Hk1. by eexists. }
    assert (Hv2 : ∀ c, inb m c → visited (cell (cells s2) c) = false).
    { intros c Hc. by rewrite Hc2. }
    assert (Hmv2 : moves s2 = []).
    { rewrite Hm2. by destruct Hk1 as [-> _]. }
    assert (Hag2 : agree m (cells s2)).
    { eapply agree_same_walls; [done|]. apply Ht. }
    assert (Hst2 : spanning_tree m (cells s2)) by (by eapply spanning_tree_same).
    assert (∃ r s3, solve m fuel s2 = Ok (r, s3) ∧ solving m s2 s3)
      as (r & s3 & Hrun3 & Hs3).
    { unfold is_large in Hinv.
      destruct (decide (cols * rows < 1000)) as [Hsmall|Hlarge].
      - replace (_ <? 1000) with true in Hinv by (simpl; lia).
        simpl negb in Hinv.
        destruct (generation_small m fuel s0)
          as (s1' & Hrun1' & _ & _ & _ & Hco1);
          [simpl; lia..|done|done|simpl; lia|].
        rewrite Hrun1 in Hrun1'. injection Hrun1' as <-.
        destruct (solve_small m fuel s2) as (s3 & p & Hrun3 & Hs3 & _);
          [simpl; lia..|done|done| | |done|done|done|done|simpl; lia|].
        + eapply border_ok_same; [done|]. apply Hinv.
        + by eapply corridors_same_walls.
        + by exists (Some true), s3.
      - replace (_ <? 1000) with false in Hinv by (simpl; lia).
        simpl negb in Hinv.
        destruct (solve_large m fuel s2) as (s3 & Hrun3 & Hs3 & _);
          [simpl; lia..|done|done| |done|done|done|done|simpl; lia|].
        + eapply dirs_ok_same; [done| |apply Hinv]. intros c Hc. by rewrite Hc2.
        + by exists None, s3. }
    assert (Hcreate : create_cells m fuel s0 = Ok (r, s3)).
    { rewrite create_cells_phases by (simpl; lia).
      by rewrite (bind_ok _ _ _ _ _ Hrun1), (bind_ok _ _ _ _ _ Hrun2). }
    rewrite (bind_ok _ _ _ _ _ Hcreate).
    destruct (seed_random_ok seeded seed s3) as (s & Hseed & Hcs & _).
    rewrite (bind_ok _ _ _ _ _ Hseed). unfold ret.
    exists r, s. split; [done|]. rewrite Hcs. by apply (sv_place _ _ _ Hs3). }
  exists r, s. split; [exact Hrun|]. clear Hrun.
  intros i j Hi Hj. by apply (Hpl (i, j)).
Qed.


(** * Runs that the recursion limit does not cut *)

Lemma break_walls_r_lim_S m fuel depth i j :
  break_walls_r_lim m (S fuel) (S depth) i j =
  (update_cell i j (with_visited true);;
   break_walls_r_while_lim m fuel depth i j)%M.
Proof. done. Qed.

Lemma break_walls_r_while_lim_S m fuel depth i j :
  break_walls_r_while_lim m (S fuel) depth i j =
  (l ← need_to_visit m i j;
   match l with
   | [] => draw_cell m i j
   | _ :: _ =>
       '(next_index_i, next_index_j) ← choice l;
       connect_r i j next_index_i next_index_j;;
       draw_cell m i j;;
       draw_cell m next_index_i next_index_j;;
       break_walls_r_lim m fuel depth next_index_i next_index_j;;
       break_walls_r_while_lim m fuel depth i j
   end)%M.
Proof. done. Qed.

(** A call of [__break_walls_r] nests at most one call for each cell
    that is not visited yet: with that much room, the run is the one
    of [break_walls_r]. *)
Lemma break_walls_r_lim_eq m fuel :
  (∀ depth s a, gen_inv false m s (Some a) → inb m a →
     visited (cell (cells s) a) = false →
     (2 * unvisited_count m (cells s) ≤ fuel)%nat →
     (unvisited_count m (cells s) ≤ depth)%nat →
     break_walls_r_lim m fuel depth a.1 a.2 s
     = break_walls_r m fuel a.1 a.2 s) ∧
  (∀ depth s a, gen_inv false m s None → inb m a →
     visited (cell (cells s) a) = true →
     (2 * unvisited_count m (cells s) + 1 ≤ fuel)%nat →
     (unvisited_count m (cells s) ≤ depth)%nat →
     break_walls_r_while_lim m fuel depth a.1 a.2 s
     = break_walls_r_while m fuel a.1 a.2 s).
Proof.
  induction fuel as [|f [IH1 IH2]].
  { split; intros depth s a Hinv Ha Hv Hf Hd; [|lia].
    pose proof (unvisited_count_pos m _ a Ha Hv). lia. }
  split; intros depth s [i j] Hinv Ha Hv Hf Hd; simpl fst; simpl snd.
  - pose proof (ti_wf _ _ _ (gi_tree _ _ _ _ Hinv)) as Hwf.
    destruct depth as [|d].
    { pose proof (unvisited_count_pos m _ _ Ha Hv). lia. }
    rewrite break_walls_r_lim_S, break_walls_r_S.
    set (s1 := set_cells (upd (cells s) (i, j) (with_visited true)) s).
    rewrite !(bind_ok _ _ _ _ _ (update_cell_ok m s i j _ Hwf Ha)). fold s1.
    assert (Hinv1 : gen_inv false m s1 None) by (by eapply gen_inv_mark).
    assert (Hv1 : ∀ c, inb m c → visited (cell (cells s1) c)
                = if decide ((i, j) = c) then true else visited (cell (cells s) c)).
    { intros c Hc. by apply (visited_upd_mark m). }
    assert (Hg1 : grows m (cells s) (cells s1)).
    { intros c Hc Hvc. rewrite Hv1 by done. by case_decide. }
    assert (Hlt : (unvisited_count m (cells s1) < unvisited_count m (cells s))%nat).
    { apply (unvisited_count_lt m _ _ (i, j)); [done..|].
      rewrite Hv1 by done. by rewrite decide_True. }
    apply (IH2 d s1 (i, j)); [done|done| |lia|lia].
    rewrite Hv1 by done. by rewrite decide_True.
  - pose proof (ti_wf _ _ _ (gi_tree _ _ _ _ Hinv)) as Hwf.
    rewrite break_walls_r_while_lim_S, break_walls_r_while_S.
    rewrite !(bind_ok _ _ _ _ _ (need_to_visit_ok m s i j Hwf Ha)).
    destruct (candidates false m (cells s) (i, j)) as [|x l] eqn:Hcand; [done|].
    destruct (choice_ok (x :: l) s) as (b & s1 & Hch & Hb & Hc1 & Hl1 & Hk1);
      [done|].
    rewrite !(bind_ok _ _ _ _ _ Hch).
    rewrite <- Hcand in Hb.
    apply elem_of_candidates in Hb as (d & -> & Hd' & Hvb).
    assert (Hbin : inb m (step d (i, j))) by (by eapply allowed_inb).
    assert (Hinv1 : gen_inv false m s1 None) by (by eapply gen_inv_ext).
    destruct (step d (i, j)) as [ni nj] eqn:Hstep.
    assert (Hwf1 : wf m (cells s1)) by (by rewrite Hc1).
    pose proof (connect_r_ok m s1 (i, j) d Hwf1 Ha) as Hcon.
    rewrite Hstep in Hcon. specialize (Hcon Hbin). simpl in Hcon.
    rewrite !(bind_ok _ _ _ _ _ Hcon).
    match type of Hcon with _ = Ok (_, ?st) => set (s2 := st) in * end.
    assert (Hinv2 : gen_inv false m s2 (Some (ni, nj))).
    { pose proof (gen_inv_carve m s1 s2 (i, j) d) as H. rewrite Hstep in H.
      apply H; [done|done|done|by rewrite Hc1|by rewrite Hc1|done|done]. }
    assert (Hwf2 : wf m (cells s2)) by apply Hinv2.
    destruct (draw_cell_ok m s2 i j Hwf2 Ha)
      as (s3 & a1 & b1 & a2 & b2 & Hrun3 & Hcells3 & Hlog3 & _ & Hk3).
    rewrite !(bind_ok _ _ _ _ _ Hrun3).
    assert (Hinv3 : gen_inv false m s3 (Some (ni, nj)))
      by (by eapply (gen_inv_coords _ _ s2 s3 _ (i, j))).
    assert (Hwf3 : wf m (cells s3)) by apply Hinv3.
    destruct (draw_cell_ok m s3 ni nj Hwf3 Hbin)
      as (s4 & a1' & b1' & a2' & b2' & Hrun4 & Hcells4 & Hlog4 & _ & Hk4).
    rewrite !(bind_ok _ _ _ _ _ Hrun4).
    assert (Hinv4 : gen_inv false m s4 (Some (ni, nj)))
      by (by eapply (gen_inv_coords _ _ s3 s4 _ (ni, nj))).
    assert (Hsame : ∀ c, inb m c →
              visited (cell (cells s4) c) = visited (cell (cells s) c)).
    { intros c Hc. rewrite Hcells4, (visited_upd_coords m) by done.
      rewrite Hcells3, (visited_upd_coords m) by done.
      simpl. rewrite (visited_carve m), Hc1; try done.
      by rewrite Hstep. }
    assert (Hu4 : unvisited_count m (cells s4) = unvisited_count m (cells s))
      by (by apply unvisited_count_same).
    destruct (break_walls_r_ok m f) as [Hok _].
    destruct (Hok s4 (ni, nj)) as (s5 & Hrun5 & [Hi5 Hg5 Hk5 Hc5] & Hv5);
      [done|done|by rewrite Hsame|lia|].
    assert (Hrun5' : break_walls_r_lim m f depth ni nj s4 = Ok (tt, s5)).
    { rewrite <- Hrun5.
      apply (IH1 depth s4 (ni, nj)); [done|done|by rewrite Hsame|lia|lia]. }
    simpl in Hrun5.
    rewrite (bind_ok _ _ _ _ _ Hrun5), (bind_ok _ _ _ _ _ Hrun5').
    assert (Hu5 : (unvisited_count m (cells s5) < unvisited_count m (cells s4))%nat).
    { apply (unvisited_count_lt m _ _ (ni, nj)); [done..|by rewrite Hsame|done]. }
    apply (IH2 depth s5 (i, j)); [done|done| |lia|lia].
    apply Hg5; [done|]. by rewrite Hsame.
Qed.

Lemma solve_r_lim_blocks m fuel depth i j :
  solve_r_lim m (S fuel) (S depth) i j =
  (animate;;
   update_cell i j (with_visited true);;
   if (i + 1 =? num_cols m) && (j + 1 =? num_rows m) then ret true
   else sblocks m (solve_r_lim m fuel depth) [Left; Right; Up; Down] (i, j))%M.
Proof. reflexivity. Qed.

Section solve_r_lim_blocks.
Context (m : Maze) (f depth : nat).

(** The induction hypothesis on the calls that the blocks make. *)
Hypothesis IH : ∀ s b,
  ready m s → inb m b → visited (cell (cells s) b) = false →
  (∀ sg, sg ∈ red_segments s →
     inb m sg.2 ∧ (visited (cell (cells s) sg.2) = true ∨ sg.2 = b)) →
  (unvisited_count m (cells s) ≤ f)%nat →
  (unvisited_count m (cells s) ≤ depth)%nat →
  solve_r_lim m f depth b.1 b.2 s = solve_r m f b.1 b.2 s.

Lemma sblock_lim_eq d s a :
  ready m s → inb m a → a ≠ exit_cell m →
  visited (cell (cells s) a) = true →
  (∀ sg, sg ∈ red_segments s →
     inb m sg.2 ∧ visited (cell (cells s) sg.2) = true) →
  (unvisited_count m (cells s) ≤ f)%nat →
  (unvisited_count m (cells s) ≤ depth)%nat →
  sblock m (solve_r_lim m f depth) d a s = sblock m (solve_r m f) d a s.
Proof.
  intros Hr Ha Hne Hva Hred Hf Hd.
  pose proof Hr as (Hwf & Hag & Hbo & Hw & Hex).
  unfold sblock. destruct (sguard m d a) eqn:Hg; [|done].
  destruct (sopen_ok m s d a Hr Ha Hne Hg) as (o & Ho & Ho1 & Ho2).
  unfold try_r. rewrite !(bind_ok _ _ _ _ _ Ho). destruct o; [|done].
  destruct (Ho1 eq_refl) as (Hb & Hwall & Hvb).
  destruct (draw_move_ok m s a (step d a) false Hwf Ha Hb Hw)
    as (s1 & Hrun1 & Hs1 & Hv1 & Hm1).
  rewrite !(bind_ok _ _ _ _ _ Hrun1).
  assert (Hr1 : ready m s1).
  { apply (ready_solving m s); [done..|]. rewrite Hv1; [done|].
    destruct (decide (inb m (exit_cell m))) as [|Hn]; [done|].
    exfalso. apply Hn. destruct Hb as [? ?], Ha as [? ?].
    destruct d; split; simpl in *; lia. }
  assert (Hred1 : red_segments s1 = red_segments s ++ [(a, step d a)])
    by (by rewrite (red_segments_moves s s1 _ Hm1)).
  assert (Heq : solve_r_lim m f depth (step d a).1 (step d a).2 s1
                = solve_r m f (step d a).1 (step d a).2 s1).
  { apply IH; [done|done|by rewrite Hv1| |
      by rewrite (unvisited_count_same m (cells s) (cells s1))|
      by rewrite (unvisited_count_same m (cells s) (cells s1))].
    intros sg. rewrite Hred1, elem_of_app, list_elem_of_singleton.
    intros [Hsg| ->]; [|by split; [|right]].
    destruct (Hred sg Hsg) as [Hin Hv]. split; [done|]. left.
    by rewrite Hv1. }
  unfold bind at 1. rewrite Heq. reflexivity.
Qed.

Lemma sblocks_lim_eq ds : ∀ s a,
  ready m s → inb m a → a ≠ exit_cell m →
  visited (cell (cells s) a) = true →
  (∀ sg, sg ∈ red_segments s →
     inb m sg.2 ∧ visited (cell (cells s) sg.2) = true) →
  (unvisited_count m (cells s) ≤ f)%nat →
  (unvisited_count m (cells s) ≤ depth)%nat →
  sblocks m (solve_r_lim m f depth) ds a s = sblocks m (solve_r m f) ds a s.
Proof.
  induction ds as [|d ds IHds]; intros s a Hr Ha Hne Hva Hred Hf Hd; simpl;
    [done|].
  destruct (sblock_ok m f (solve_r_ok m f) d s a Hr Ha Hne Hva Hred Hf)
    as (r & s1 & Hrun1 & Hpost).
  assert (Hrun1' : sblock m (solve_r_lim m f depth) d a s = Ok (r, s1))
    by (by rewrite sblock_lim_eq).
  rewrite (bind_ok _ _ _ _ _ Hrun1), (bind_ok _ _ _ _ _ Hrun1').
  destruct r; [done|].
  destruct Hpost as [Hfail1 Hd1].
  pose proof (fl_solving _ _ _ Hfail1) as Hs1.
  pose proof (unvisited_count_le m _ _ (sv_grows _ _ _ Hs1)) as Hle.
  apply IHds; [|done|done| | |lia|lia].
  - apply (ready_solving m s); [done..|]. apply Hfail1.
  - by apply Hs1.
  - intros sg. rewrite (fl_red _ _ _ Hfail1). intros Hsg.
    destruct (Hred sg Hsg) as [Hin Hv]. split; [done|]. by apply Hs1.
Qed.

End solve_r_lim_blocks.

(** A call of [_solve_r] nests at most one call for each cell that is
    not visited yet: with that much room, the run is the one of
    [solve_r]. *)
Lemma solve_r_lim_eq m fuel : ∀ depth s a,
  ready m s → inb m a → visited (cell (cells s) a) = false →
  (∀ sg, sg ∈ red_segments s →
     inb m sg.2 ∧ (visited (cell (cells s) sg.2) = true ∨ sg.2 = a)) →
  (unvisited_count m (cells s) ≤ fuel)%nat →
  (unvisited_count m (cells s) ≤ depth)%nat →
  solve_r_lim m fuel depth a.1 a.2 s = solve_r m fuel a.1 a.2 s.
Proof.
  induction fuel as [|f IH]; intros depth s [i j] Hr Ha Hv Hred Hf Hd.
  { pose proof (unvisited_count_pos m _ _ Ha Hv). lia. }
  destruct depth as [|d].
  { pose proof (unvisited_count_pos m _ _ Ha Hv). lia. }
  pose proof Hr as (Hwf & Hag & Hbo & Hw & Hex).
  simpl fst. simpl snd. rewrite solve_r_lim_blocks, solve_r_blocks.
  rewrite !(bind_ok _ _ _ _ _ (animate_ok s Hw)).
  set (s1 := set_cells (upd (cells s) (i, j) (with_visited true)) s).
  rewrite !(bind_ok _ _ _ _ _ (update_cell_ok m s i j _ Hwf Ha)). fold s1.
  assert (Hv1 : ∀ c, inb m c → visited (cell (cells s1) c)
              = if decide ((i, j) = c) then true else visited (cell (cells s) c)).
  { intros c Hc. by apply (visited_upd_mark m). }
  assert (Hs1 : solving m s s1).
  { by apply (solving_upd m s s1 (i, j) (with_visited true)). }
  assert (Hva1 : visited (cell (cells s1) (i, j)) = true).
  { rewrite Hv1 by done. by rewrite decide_True. }
  destruct ((i + 1 =? num_cols m) && (j + 1 =? num_rows m)) eqn:Hexit; [done|].
  assert (Hne : (i, j) ≠ exit_cell m).
  { unfold exit_cell. intros [= -> ->].
    rewrite !Z.sub_add, !Z.eqb_refl in Hexit. done. }
  assert (Hr1 : ready m s1).
  { apply (ready_solving m s); [done..|].
    destruct (decide (inb m (exit_cell m))) as [Hin|Hn].
    - rewrite Hv1 by done. by rewrite decide_False.
    - exfalso. apply Hn. destruct Ha. split; simpl in *; lia. }
  assert (Hlt : (unvisited_count m (cells s1) < unvisited_count m (cells s))%nat).
  { apply (unvisited_count_lt m _ _ (i, j)); [apply Hs1|done..]. }
  apply (sblocks_lim_eq m f d (IH d)); [done|done|done|done| |lia|lia].
  intros sg Hsg. rewrite (red_segments_same s s1) in Hsg by done.
  destruct (Hred sg Hsg) as [Hin [Hvs|Heq]]; (split; [done|]).
  - by apply Hs1.
  - by rewrite Heq.
Qed.

(** ** The constructor under the recursion limit *)

(** With room for one nested call for each cell, in the carver and in
    the solver, the constructor runs as if there were no limit.  On a
    grid of 1000 cells or more the recursive functions are not
    called. *)
Lemma create_cells_lim_eq m fuel carve_depth solve_depth s0 :
  1 ≤ num_cols m → 1 ≤ num_rows m →
  cells s0 = [] → wall_log s0 = [] → moves s0 = [] → is_Some (win s0) →
  (2 * Z.to_nat (num_rows m * num_cols m) < fuel)%nat →
  (num_cols m * num_rows m < 1000 →
   (Z.to_nat (num_rows m * num_cols m) ≤ carve_depth)%nat ∧
   (Z.to_nat (num_rows m * num_cols m) ≤ solve_depth)%nat) →
  create_cells_lim m fuel carve_depth solve_depth s0 = create_cells m fuel s0.
Proof.
  intros HC HR Hnil Hlog Hmv Hwin Hfuel Hroom.
  unfold create_cells_lim, create_cells.
  destruct (create_loops_ok m s0 Hnil) as (s1 & Hrun1 & (Hl1 & _ & Hk1) & Hlen1 & HG1).
  rewrite !(bind_ok _ _ _ _ _ Hrun1).
  replace (num_cols m >? 0) with true by lia.
  replace (num_rows m >? 0) with true by lia.
  change (true && true) with true. cbv iota.
  assert (Hwf1 : wf m (cells s1)) by (apply wf_created; (lia || done)).
  destruct (open_ends_ok m s1) as (s2 & Hrun2 & Hwf2 & Ho2 & Hlog2 & Hlen2 & Hk2);
    [done|done|done|by intros; eapply blank_cells|congruence|].
  unfold break_entrance_and_exit_lim, break_entrance_and_exit.
  assert (E1 : open_and_carve_lim m fuel carve_depth s1
               = (if num_cols m * num_rows m <? 1000
                  then break_walls_r_lim m fuel carve_depth 0 0
                  else break_walls_l m fuel 0 0) s2) by apply Hrun2.
  assert (E2 : open_and_carve m fuel s1
               = (if num_cols m * num_rows m <? 1000
                  then break_walls_r m fuel 0 0
                  else break_walls_l m fuel 0 0) s2) by apply Hrun2.
  unfold bind. rewrite E1, E2. clear E1 E2.
  destruct (num_cols m * num_rows m <? 1000) eqn:Hsize.
  - (* the recursive carver and solver *)
    destruct Hroom as [Hcd Hsd]; [lia|].
    assert (H0 : inb m (0, 0)) by (split; simpl; lia).
    assert (Hv2 : ∀ c, inb m c → visited (cell (cells s2) c) = false).
    { intros c Hc. by destruct (Ho2 c Hc). }
    assert (Hu2 : (unvisited_count m (cells s2)
                   ≤ Z.to_nat (num_rows m * num_cols m))%nat).
    { pose proof (unvisited_count_total m (cells s2)).
      pose proof (length_all_cells m). lia. }
    assert (Hinv2 : gen_inv false m s2 (Some (0, 0)))
      by (by apply gen_inv_opened).
    destruct (break_walls_r_ok m fuel) as [Hr _].
    destruct (Hr s2 (0, 0)) as (s3 & Hrun3 & [Hinv3 Hg3 Hk3 Hcl3] & Hv0);
      [done|done|by apply Hv2|lia|].
    destruct (break_walls_r_lim_eq m fuel) as [Hl _].
    pose proof (Hl carve_depth s2 (0, 0) Hinv2 H0 (Hv2 _ H0)
                  ltac:(lia) ltac:(lia)) as El.
    simpl in El, Hrun3. rewrite El, Hrun3.
    pose proof (gi_tree _ _ _ _ Hinv3) as Ht.
    pose proof (ti_wf _ _ _ Ht) as Hwf3.
    unfold reset_cells_visited_lim, reset_cells_visited.
    destruct (reset_loops_ok m s3 Hwf3)
      as (s4 & Hrun4 & Hwf4 & (Hl4 & _ & Hm4 & _) & Hw4 & Hc4).
    rewrite !(bind_ok _ _ _ _ _ Hrun4).
    unfold solve_lim, solve. rewrite Hsize.
    assert (Hwalls4 : ∀ c d, inb m c →
              wall d (cell (cells s4) c) = wall d (cell (cells s3) c)).
    { intros c d Hc. rewrite Hc4 by done. by destruct d. }
    assert (Hmoves4 : moves s4 = []).
    { rewrite Hm4. destruct Hk3 as [-> _]. destruct Hk2 as [-> _].
      by destruct Hk1 as [-> _]. }
    assert (Es : solve_r_lim m fuel solve_depth 0 0 s4 = solve_r m fuel 0 0 s4).
    { apply (solve_r_lim_eq m fuel solve_depth s4 (0, 0)).
      - split_and!.
        + done.
        + eapply agree_same_walls; [done|]. apply Ht.
        + eapply border_ok_same; [done|]. apply Hinv3.
        + rewrite Hw4. apply Hk3, Hk2, Hk1. done.
        + rewrite Hc4 by (split; simpl; lia). done.
      - done.
      - by rewrite Hc4.
      - intros sg. unfold red_segments. rewrite Hmoves4. simpl.
        intros H. by apply elem_of_nil in H.
      - pose proof (unvisited_count_total m (cells s4)).
        pose proof (length_all_cells m). lia.
      - pose proof (unvisited_count_total m (cells s4)).
        pose proof (length_all_cells m). lia. }
    unfold bind. by rewrite Es.
  - (* the iterative carver and solver *)
    destruct (break_walls_l m fuel 0 0 s2) as [[[] s3]| |]; [|done..].
    unfold reset_cells_visited_lim, reset_cells_visited, solve_lim, solve.
    by rewrite Hsize.
Qed.

Lemma Maze__init__lim_eq seeded random0 fuel carve_depth solve_depth w
    rows cols size_x size_y x y seed :
  1 ≤ rows → 1 ≤ cols →
  (2 * Z.to_nat (rows * cols) < fuel)%nat →
  (rows * cols < 1000 →
   (Z.to_nat (rows * cols) ≤ carve_depth)%nat ∧
   (Z.to_nat (rows * cols) ≤ solve_depth)%nat) →
  Maze__init__lim seeded random0 fuel carve_depth solve_depth (Some w)
    rows cols size_x size_y x y seed
  = Maze__init__ seeded random0 fuel (Some w) rows cols size_x size_y x y seed.
Proof.
  intros HR HC Hfuel Hroom. unfold Maze__init__lim, Maze__init__.
  set (m := mkMaze x y rows cols size_x size_y seed).
  assert (E : create_cells_lim m fuel carve_depth solve_depth
                (initial_state (Some w) random0)
              = create_cells m fuel (initial_state (Some w) random0)).
  { apply create_cells_lim_eq; [simpl; lia|simpl; lia|done|done|done|
      by eexists|done|].
    simpl. intros Hsmall. apply Hroom. lia. }
  unfold bind at 1. rewrite E. reflexivity.
Qed.

(** X1: on every grid of fewer than 1000 cells with [R, C ≥ 1], built
    with a window, when the recursion limit leaves room for one nested
    call of [__break_walls_r] and of [_solve_r] for each cell, the
    constructor ends without error and [_solve_r] has returned [True];
    the walls it leaves form a spanning tree, and the reported path is
    a path from the entrance to the exit in which each cell is joined
    to the next one by an open passage. *)
Theorem recursive_solver_finds_the_exit seeded random0 fuel
    carve_depth solve_depth w rows cols size_x size_y x y seed :
  1 ≤ rows → 1 ≤ cols → rows * cols < 1000 →
  (2 * Z.to_nat (rows * cols) < fuel)%nat →
  (Z.to_nat (rows * cols) ≤ carve_depth)%nat →
  (Z.to_nat (rows * cols) ≤ solve_depth)%nat →
  ∃ s,
    Maze__init__lim seeded random0 fuel carve_depth solve_depth (Some w)
      rows cols size_x size_y x y seed
    = Ok (mkMaze x y rows cols size_x size_y seed, Some true, s) ∧
    spanning_tree (mkMaze x y rows cols size_x size_y seed) (cells s) ∧
    valid_path (mkMaze x y rows cols size_x size_y seed) (cells s)
               (reported_path s).
Proof.
  intros HR HC Hsmall Hfuel Hcd Hsd.
  pose proof (Maze__init__lim_eq seeded random0 fuel carve_depth solve_depth w
                rows cols size_x size_y x y seed HR HC Hfuel
                (λ _, conj Hcd Hsd)) as Elim.
  destruct (construct_small seeded random0 fuel w rows cols size_x size_y x y
              seed HR HC Hsmall Hfuel) as (s & p & Hrun & Hst & _ & Hp & Hred & _).
  exists s. split; [rewrite Elim; exact Hrun|]. clear Hrun Elim.
  split; [exact Hst|].
  unfold reported_path. rewrite Hred, snd_links. by apply route_valid_path.
Qed.

Lemma recursive_solver_finds_the_exit_witness :
  1 ≤ 3 ∧ 1 ≤ 2 ∧ 3 * 2 < 1000 ∧ (2 * Z.to_nat (3 * 2) < 13)%nat ∧
  (Z.to_nat (3 * 2) ≤ 6)%nat ∧ (Z.to_nat (3 * 2) ≤ 6)%nat ∧
  ∃ s,
    Maze__init__lim (λ _, []) [1; 0; 2]%nat 13 6 6 (Some (Window_init 800 600))
      3 2 10 10 0 0 None
    = Ok (mkMaze 0 0 3 2 10 10 None, Some true, s) ∧
    spanning_tree (mkMaze 0 0 3 2 10 10 None) (cells s) ∧
    valid_path (mkMaze 0 0 3 2 10 10 None) (cells s) (reported_path s).
Proof.
  split; [lia|]. split; [lia|]. split; [lia|]. split; [lia|].
  split; [lia|]. split; [lia|].
  apply recursive_solver_finds_the_exit; lia.
Defined.

(** X2: in the same runs, the segments that [_solve_r] leaves in red
    are exactly the steps of the reported path, one after the other:
    every move into a branch that failed has been drawn over by a call
    of [draw_move] with [undo] set. *)
Theorem recursive_solver_retracts_failed_moves seeded random0 fuel
    carve_depth solve_depth w rows cols size_x size_y x y seed :
  1 ≤ rows → 1 ≤ cols → rows * cols < 1000 →
  (2 * Z.to_nat (rows * cols) < fuel)%nat →
  (Z.to_nat (rows * cols) ≤ carve_depth)%nat →
  (Z.to_nat (rows * cols) ≤ solve_depth)%nat →
  ∃ s p,
    Maze__init__lim seeded random0 fuel carve_depth solve_depth (Some w)
      rows cols size_x size_y x y seed
    = Ok (mkMaze x y rows cols size_x size_y seed, Some true, s) ∧
    reported_path s = (0, 0) :: p ∧
    red_segments s = links (0, 0) p ∧
    length (red_segments s) = length p.
Proof.
  intros HR HC Hsmall Hfuel Hcd Hsd.
  pose proof (Maze__init__lim_eq seeded random0 fuel carve_depth solve_depth w
                rows cols size_x size_y x y seed HR HC Hfuel
                (λ _, conj Hcd Hsd)) as Elim.
  destruct (construct_small seeded random0 fuel w rows cols size_x size_y x y
              seed HR HC Hsmall Hfuel) as (s & p & Hrun & _ & _ & _ & Hred & _).
  exists s, p. split; [rewrite Elim; exact Hrun|]. clear Hrun Elim. split_and!.
  - unfold reported_path. by rewrite Hred, snd_links.
  - exact Hred.
  - by rewrite <- (snd_links (0, 0) p), <- Hred, length_fmap.
Qed.

Lemma recursive_solver_retracts_failed_moves_witness :
  1 ≤ 2 ∧ 1 ≤ 2 ∧ 2 * 2 < 1000 ∧ (2 * Z.to_nat (2 * 2) < 9)%nat ∧
  (Z.to_nat (2 * 2) ≤ 4)%nat ∧ (Z.to_nat (2 * 2) ≤ 4)%nat ∧
  ∃ s p,
    Maze__init__lim (λ _, []) [1; 1; 1; 1]%nat 9 4 4
      (Some (Window_init 800 600)) 2 2 10 10 0 0 None
    = Ok (mkMaze 0 0 2 2 10 10 None, Some true, s) ∧
    reported_path s = (0, 0) :: p ∧
    red_segments s = links (0, 0) p ∧
    length (red_segments s) = length p.
Proof.
  split; [lia|]. split; [lia|]. split; [lia|]. split; [lia|].
  split; [lia|]. split; [lia|].
  apply recursive_solver_retracts_failed_moves; lia.
Defined.

(** X14: in the same runs, the path that [_solve_r] reports visits no
    cell twice: a call of the function only moves on to cells that
    are not visited yet. *)
Theorem recursive_solver_path_is_simple seeded random0 fuel
    carve_depth solve_depth w rows cols size_x size_y x y seed :
  1 ≤ rows → 1 ≤ cols → rows * cols < 1000 →
  (2 * Z.to_nat (rows * cols) < fuel)%nat →
  (Z.to_nat (rows * cols) ≤ carve_depth)%nat →
  (Z.to_nat (rows * cols) ≤ solve_depth)%nat →
  ∃ s,
    Maze__init__lim seeded random0 fuel carve_depth solve_depth (Some w)
      rows cols size_x size_y x y seed
    = Ok (mkMaze x y rows cols size_x size_y seed, Some true, s) ∧
    head (reported_path s) = Some (0, 0) ∧
    last (reported_path s) = Some (cols - 1, rows - 1) ∧
    NoDup (reported_path s) ∧
    (length (reported_path s) ≤ Z.to_nat (rows * cols))%nat.
Proof.
  intros HR HC Hsmall Hfuel Hcd Hsd.
  pose proof (Maze__init__lim_eq seeded random0 fuel carve_depth solve_depth w
                rows cols size_x size_y x y seed HR HC Hfuel
                (λ _, conj Hcd Hsd)) as Elim.
  destruct (construct_small seeded random0 fuel w rows cols size_x size_y x y
              seed HR HC Hsmall Hfuel)
    as (s & p & Hrun & _ & _ & Hp & Hred & Hnd).
  exists s. split; [rewrite Elim; exact Hrun|]. clear Hrun Elim.
  set (m := mkMaze x y rows cols size_x size_y seed) in *.
  assert (Hpath : reported_path s = (0, 0) :: p).
  { unfold reported_path. by rewrite Hred, snd_links. }
  rewrite Hpath. split_and!; [done| |done|].
  - by apply (route_last m (cells s)).
  - (* distinct cells of the grid *)
    pose proof (length_all_cells m ltac:(simpl; lia) ltac:(simpl; lia)) as Hlen.
    change (num_rows m * num_cols m) with (rows * cols) in Hlen.
    rewrite <- Hlen, Nat2Z.id.
    apply submseteq_length, NoDup_submseteq; [done|].
    intros c Hc. apply elem_of_all_cells.
    apply elem_of_cons in Hc as [->|Hc]; [split; simpl; lia|].
    by apply (route_inb m (cells s) (0, 0) p).
Qed.

Lemma recursive_solver_path_is_simple_witness :
  1 ≤ 3 ∧ 1 ≤ 3 ∧ 3 * 3 < 1000 ∧ (2 * Z.to_nat (3 * 3) < 19)%nat ∧
  (Z.to_nat (3 * 3) ≤ 9)%nat ∧ (Z.to_nat (3 * 3) ≤ 9)%nat ∧
  ∃ s,
    Maze__init__lim (λ _, []) [2; 0; 1]%nat 19 9 9 (Some (Window_init 800 600))
      3 3 10 10 0 0 None
    = Ok (mkMaze 0 0 3 3 10 10 None, Some true, s) ∧
    head (reported_path s) = Some (0, 0) ∧
    last (reported_path s) = Some (3 - 1, 3 - 1) ∧
    NoDup (reported_path s) ∧
    (length (reported_path s) ≤ Z.to_nat (3 * 3))%nat.
Proof.
  split; [lia|]. split; [lia|]. split; [lia|]. split; [lia|].
  split; [lia|]. split; [lia|].
  apply recursive_solver_path_is_simple; lia.
Defined.

(** X15: whatever the size of the grid, with a window, enough fuel
    and, below 1000 cells, room under the recursion limit for one
    nested call of [__break_walls_r] and of [_solve_r] for each cell,
    the constructor ends and every cell of the grid still has the
    corners that [__draw_cell] gave it in [__create_cells]: at
    [x1 + i * cell_size_x] and [y1 + j * cell_size_y], one cell size
    apart.  Carving, the reset of the visited flags and both solvers
    leave them alone. *)
Theorem cells_stay_in_place seeded random0 fuel carve_depth solve_depth w
    rows cols size_x size_y x y seed :
  1 ≤ rows → 1 ≤ cols → (2 * Z.to_nat (rows * cols) < fuel)%nat →
  (rows * cols < 1000 →
   (Z.to_nat (rows * cols) ≤ carve_depth)%nat ∧
   (Z.to_nat (rows * cols) ≤ solve_depth)%nat) →
  ∃ r s,
    Maze__init__lim seeded random0 fuel carve_depth solve_depth (Some w)
      rows cols size_x size_y x y seed
    = Ok (mkMaze x y rows cols size_x size_y seed, r, s) ∧
    ∀ i j, 0 ≤ i < cols → 0 ≤ j < rows →
      _x1 (cell (cells s) (i, j)) = x + i * size_x ∧
      _y1 (cell (cells s) (i, j)) = y + j * size_y ∧
      _x2 (cell (cells s) (i, j)) = x + i * size_x + size_x ∧
      _y2 (cell (cells s) (i, j)) = y + j * size_y + size_y.
Proof.
  intros HR HC Hfuel Hroom.
  pose proof (Maze__init__lim_eq seeded random0 fuel carve_depth solve_depth w
                rows cols size_x size_y x y seed HR HC Hfuel Hroom) as Elim.
  destruct (construct_placed seeded random0 fuel w rows cols size_x size_y x y
              seed HR HC Hfuel) as (r & s & Hrun & Hpl).
  exists r, s. split; [rewrite Elim; exact Hrun|]. exact Hpl.
Qed.

Lemma cells_stay_in_place_witness :
  1 ≤ 3 ∧ 1 ≤ 3 ∧ (2 * Z.to_nat (3 * 3) < 19)%nat ∧
  (3 * 3 < 1000 →
   (Z.to_nat (3 * 3) ≤ 9)%nat ∧ (Z.to_nat (3 * 3) ≤ 9)%nat) ∧
  ∃ r s,
    Maze__init__lim (λ _, []) [2; 0; 1]%nat 19 9 9 (Some (Window_init 800 600))
      3 3 10 20 5 7 None
    = Ok (mkMaze 5 7 3 3 10 20 None, r, s) ∧
    ∀ i j, 0 ≤ i < 3 → 0 ≤ j < 3 →
      _x1 (cell (cells s) (i, j)) = 5 + i * 10 ∧
      _y1 (cell (cells s) (i, j)) = 7 + j * 20 ∧
      _x2 (cell (cells s) (i, j)) = 5 + i * 10 + 10 ∧
      _y2 (cell (cells s) (i, j)) = 7 + j * 20 + 20.
Proof.
  split; [lia|]. split; [lia|]. split; [lia|].
  split; [intros _; lia|].
  apply cells_stay_in_place; [lia..|intros _; lia].
Defined.

(** ** A grid of one row *)

(** On a grid of one row the carver walks from column to column, one
    nested call for each: with fewer calls left than columns ahead, it
    runs out of room. *)
Lemma corridor_carver_raises m :
  num_rows m = 1 →
  ∀ depth fuel s i,
    wf m (cells s) → 0 ≤ i → i + Z.of_nat depth < num_cols m →
    (∀ k, i ≤ k < num_cols m → visited (cell (cells s) (k, 0)) = false) →
    (∀ k, 0 ≤ k < i → visited (cell (cells s) (k, 0)) = true) →
    (2 * depth < fuel)%nat →
    break_walls_r_lim m fuel depth i 0 s = Raise RecursionError.
Proof.
  intros HR. induction depth as [|d IH]; intros fuel s i Hwf Hi Hroom Hun Hvis Hfuel.
  { destruct fuel as [|f]; [lia|]. reflexivity. }
  destruct fuel as [|[|f]]; [lia..|].
  assert (Ha : inb m (i, 0)) by (split; simpl; lia).
  assert (Hb : inb m (i + 1, 0)) by (split; simpl; lia).
  rewrite break_walls_r_lim_S.
  set (s1 := set_cells (upd (cells s) (i, 0) (with_visited true)) s).
  rewrite (bind_ok _ _ _ _ _ (update_cell_ok m s i 0 _ Hwf Ha)). fold s1.
  assert (Hwf1 : wf m (cells s1)) by (by apply wf_upd).
  assert (Hv1 : ∀ c, inb m c → visited (cell (cells s1) c)
              = if decide ((i, 0) = c) then true else visited (cell (cells s) c)).
  { intros c Hc. by apply (visited_upd_mark m). }
  rewrite break_walls_r_while_lim_S.
  rewrite (bind_ok _ _ _ _ _ (need_to_visit_ok m s1 i 0 Hwf1 Ha)).
  assert (Hin : (i + 1, 0) ∈ candidates false m (cells s1) (i, 0)).
  { apply elem_of_candidates. exists Right. split_and!; [done|simpl; lia|].
    rewrite Hv1 by done. rewrite decide_False by (intros [=]; lia).
    apply Hun. lia. }
  destruct (candidates false m (cells s1) (i, 0)) as [|x l] eqn:Hcand;
    [by apply elem_of_nil in Hin|].
  destruct (choice_ok (x :: l) s1) as (b & s2 & Hch & Hbl & Hc2 & _ & _); [done|].
  rewrite (bind_ok _ _ _ _ _ Hch).
  assert (b = (i + 1, 0)) as ->.
  { rewrite <- Hcand in Hbl.
    apply elem_of_candidates in Hbl as (dir & -> & Hal & Hvb).
    destruct dir; simpl in Hal, Hvb |- *; [|done|lia|lia].
    exfalso. rewrite Hv1 in Hvb by (split; simpl; lia).
    rewrite decide_False in Hvb by (intros [=]; lia).
    rewrite Hvis in Hvb by lia. done. }
  assert (Hwf2 : wf m (cells s2)) by (by rewrite Hc2).
  pose proof (connect_r_ok m s2 (i, 0) Right Hwf2 Ha Hb) as Hcon.
  simpl in Hcon. cbv beta iota. rewrite (bind_ok _ _ _ _ _ Hcon).
  match type of Hcon with _ = Ok (_, ?st) => set (s3 := st) in * end.
  assert (Hwf3 : wf m (cells s3)) by (by apply wf_upd, wf_upd).
  destruct (draw_cell_run m s3 i 0 Hwf3 Ha) as (s4 & Hrun4 & Hcells4 & _).
  rewrite (bind_ok _ _ _ _ _ Hrun4).
  assert (Hwf4 : wf m (cells s4)) by (rewrite Hcells4; by apply wf_upd).
  destruct (draw_cell_run m s4 (i + 1) 0 Hwf4 Hb) as (s5 & Hrun5 & Hcells5 & _).
  rewrite (bind_ok _ _ _ _ _ Hrun5).
  assert (Hwf5 : wf m (cells s5)) by (rewrite Hcells5; by apply wf_upd).
  assert (Hsame : ∀ c, inb m c →
            visited (cell (cells s5) c) = visited (cell (cells s1) c)).
  { intros c Hc. rewrite Hcells5. unfold place.
    rewrite (visited_upd_coords m) by done.
    rewrite Hcells4. unfold place. rewrite (visited_upd_coords m) by done.
    simpl. rewrite (visited_carve m), Hc2; done. }
  unfold bind at 1. rewrite (IH f s5 (i + 1)); [done|done|lia|lia| | |lia].
  - intros k Hk. rewrite Hsame by (split; simpl; lia).
    rewrite Hv1 by (split; simpl; lia).
    rewrite decide_False by (intros [=]; lia). apply Hun. lia.
  - intros k Hk. rewrite Hsame by (split; simpl; lia).
    rewrite Hv1 by (split; simpl; lia).
    case_decide; [done|]. apply Hvis.
    destruct (decide (k = i)) as [->|]; [done|lia].
Qed.

(** X17: the recursion limit cuts the generation of a long corridor.
    On a grid of one row and fewer than 1000 columns, the carver nests
    one call for each column; when the interpreter has room for fewer
    nested calls of [__break_walls_r] than the grid has columns, the
    constructor raises [RecursionError], with or without a window and
    whatever the random generator yields. *)
Theorem long_corridor_hits_recursion_limit seeded random0 fuel
    carve_depth solve_depth window cols size_x size_y x y seed :
  (carve_depth < Z.to_nat cols)%nat → cols < 1000 →
  (2 * carve_depth < fuel)%nat →
  Maze__init__lim seeded random0 fuel carve_depth solve_depth window
    1 cols size_x size_y x y seed
  = Raise RecursionError.
Proof.
  intros Hd Hsmall Hfuel. unfold Maze__init__lim.
  set (m := mkMaze x y 1 cols size_x size_y seed).
  set (s0 := initial_state window random0).
  assert (HC : 1 ≤ num_cols m) by (simpl; lia).
  assert (HR : 1 ≤ num_rows m) by (simpl; lia).
  destruct (create_loops_ok m s0 eq_refl)
    as (s1 & Hrun1 & (Hl1 & _ & Hk1) & Hlen1 & HG1).
  assert (Hwf1 : wf m (cells s1)) by (apply wf_created; (lia || done)).
  destruct (open_ends_ok m s1) as (s2 & Hrun2 & Hwf2 & Ho2 & Hlog2 & Hlen2 & Hk2);
    [done|done|done|by intros; eapply blank_cells|by rewrite Hl1|].
  assert (Hcarve : open_and_carve_lim m fuel carve_depth s1
                   = Raise RecursionError).
  { unfold open_and_carve_lim. rewrite Hrun2.
    replace (num_cols m * num_rows m <? 1000) with true by (simpl; lia).
    apply (corridor_carver_raises m eq_refl); [done|lia|simpl; lia| |lia|done].
    intros k Hk. by destruct (Ho2 (k, 0) ltac:(split; [exact Hk|simpl; lia])). }
  assert (Hcreate : create_cells_lim m fuel carve_depth solve_depth s0
                    = Raise RecursionError).
  { unfold create_cells_lim. rewrite (bind_ok _ _ _ _ _ Hrun1).
    replace (num_cols m >? 0) with true by lia.
    replace (num_rows m >? 0) with true by lia.
  change (true && true) with true. cbv iota.
    unfold break_entrance_and_exit_lim. unfold bind at 1. by rewrite Hcarve. }
  unfold bind at 1. by rewrite Hcreate.
Qed.

Lemma long_corridor_hits_recursion_limit_witness :
  (3 < Z.to_nat 5)%nat ∧ 5 < 1000 ∧ (2 * 3 < 7)%nat ∧
  Maze__init__lim (λ _, []) [] 7 3 3 (Some (Window_init 800 600))
    1 5 10 10 0 0 None
  = Raise RecursionError.
Proof.
  split; [lia|]. split; [lia|]. split; [lia|].
  apply long_corridor_hits_recursion_limit; lia.
Defined.
